(** * gtfstidy: route duplicate removal, identifier minimisation, driver

    A shallow embedding of [processors/routeduplicateremover.go], of the
    identifier minimiser and of the command line driver, with the
    properties their specification states about them.

    Modelling conventions.
    - A Go pointer [*gtfs.Route], [*gtfs.Trip], ... is an address ([ptr]);
      the structs live in one store per struct type, held next to the
      feed's collections in [Feed].  Two handles are the same instance
      exactly when the addresses are equal, as Go's [==] on pointers.
    - A Go [map[string]*T] is a [gmap string ptr].  The order in which a
      [range] statement enumerates a map is not specified by Go; every
      [range] over a map takes its order from an oracle, indexed by the
      place of the statement in the source, that may return any
      permutation of the map's entries.  An entry deleted before the
      enumeration reaches it is not produced.
    - A run-time panic (index out of range, illegal base) is the [Panic]
      outcome of the [result] monad. *)

From Stdlib Require Import ZArith String Ascii Lia.
From stdpp Require Import base option list gmap strings fin_maps sorting.

Open Scope string_scope.
Open Scope list_scope.
Open Scope Z_scope.

(** ** Outcomes: normal return or panic *)

Inductive result (A : Type) : Type :=
  | Ok (a : A)
  | Panic (msg : string).
Arguments Ok {A} a.
Arguments Panic {A} msg.

Definition rbind {A B} (m : result A) (k : A -> result B) : result B :=
  match m with
  | Ok a => k a
  | Panic msg => Panic msg
  end.

Notation "'let*' x ':=' m 'in' k" := (rbind m (fun x => k))
  (at level 10, x name, m at level 100, k at level 200, only parsing).

(** A loop whose body may panic: the first panic ends it. *)
Fixpoint forM {A S} (body : S -> A -> result S) (s : S) (l : list A) : result S :=
  match l with
  | [] => Ok s
  | x :: l' => let* s' := body s x in forM body s' l'
  end.

Definition isOk {A} (r : result A) : Prop :=
  match r with Ok _ => True | Panic _ => False end.

(** ** The entity graph (package gtfs of the parser library)

    Only the fields the processors read or write decide anything below; the
    others follow the data model of the specification and are carried
    along to state what is left unchanged.  The rules of a fare attribute
    are never written through their handles, so [Rules] holds the rule
    values. *)

(** Handles are addresses. *)
Abbreviation ptr := nat (only parsing).

Module Agency.
Record t := mk { Id : string; Name : string; Url : string; Timezone : string }.
Definition setId (s : string) (a : t) : t := mk s (Name a) (Url a) (Timezone a).
Definition zero : t := mk "" "" "" "".
End Agency.

(** [*url.URL]: the address of the URL value and what [String()] prints;
    nil is [None]. *)
Record URL := mkURL { url_addr : ptr; url_String : string }.

Module Route.
Record t := mk {
    Id : string;
    Agency : option ptr;
    Short_name : string;
    Long_name : string;
    Desc : string;
    Typ : Z;   (* the field Type *)
    Url : option URL;
    Color : string;
    Text_color : string }.
Definition setId (s : string) (r : t) : t :=
    mk s (Agency r) (Short_name r) (Long_name r) (Desc r) (Typ r) (Url r)
       (Color r) (Text_color r).
Definition zero : t := mk "" None "" "" "" 0 None "" "".
End Route.

Module StopTime.
Record t := mk { Stop : ptr; Sequence : Z; Arrival : Z; Departure : Z }.
End StopTime.

Module Trip.
Record t := mk {
    Id : string;
    Route : ptr;
    Service : ptr;
    Shape : option ptr;
    StopTimes : list StopTime.t }.
Definition setId (s : string) (x : t) : t :=
    mk s (Route x) (Service x) (Shape x) (StopTimes x).
Definition setRoute (r : ptr) (x : t) : t :=
    mk (Id x) r (Service x) (Shape x) (StopTimes x).
Definition zero : t := mk "" 0%nat 0%nat None [].
End Trip.

Module Stop.
Record t := mk { Id : string; Name : string; Lat : Z; Lon : Z }.
Definition setId (s : string) (x : t) : t := mk s (Name x) (Lat x) (Lon x).
Definition zero : t := mk "" "" 0 0.
End Stop.

Module Service.
Record t := mk {
    Id : string;
    Daymap : list bool;
    Start_date : Z;
    End_date : Z;
    Exceptions : list (Z * bool) }.
Definition setId (s : string) (x : t) : t :=
    mk s (Daymap x) (Start_date x) (End_date x) (Exceptions x).
Definition zero : t := mk "" [] 0 0 [].
End Service.

Module Shape.
Record t := mk { Id : string; Points : list (Z * Z * Z) }.
Definition setId (s : string) (x : t) : t := mk s (Points x).
Definition zero : t := mk "" [].
End Shape.

Module FareAttributeRule.
Record t := mk {
    Origin_id : string;
    Destination_id : string;
    Contains_id : string;
    Route : ptr }.
End FareAttributeRule.

Module FareAttribute.
Record t := mk { Id : string; Price : string; Rules : list FareAttributeRule.t }.
Definition setRules (l : list FareAttributeRule.t) (x : t) : t :=
    mk (Id x) (Price x) l.
Definition zero : t := mk "" "" [].
End FareAttribute.

#[global] Instance Agency_inhabited : Inhabited Agency.t := populate Agency.zero.
#[global] Instance Route_inhabited : Inhabited Route.t := populate Route.zero.
#[global] Instance Trip_inhabited : Inhabited Trip.t := populate Trip.zero.
#[global] Instance Stop_inhabited : Inhabited Stop.t := populate Stop.zero.
#[global] Instance Service_inhabited : Inhabited Service.t := populate Service.zero.
#[global] Instance Shape_inhabited : Inhabited Shape.t := populate Shape.zero.
#[global] Instance FareAttribute_inhabited : Inhabited FareAttribute.t :=
  populate FareAttribute.zero.

#[global] Instance URL_eq_dec : EqDecision URL.
Proof. solve_decision. Defined.
#[global] Instance Route_eq_dec : EqDecision Route.t.
Proof. solve_decision. Defined.
#[global] Instance FareAttributeRule_eq_dec : EqDecision FareAttributeRule.t.
Proof. solve_decision. Defined.

(** [gtfsparser.Feed]: the collections, and the store the handles point into. *)
Record Feed := mkFeed {
  Agencies : gmap string ptr;
  Routes : gmap string ptr;
  Trips : gmap string ptr;
  Stops : gmap string ptr;
  Services : gmap string ptr;
  Shapes : gmap string ptr;
  FareAttributes : gmap string ptr;
  agencyAt : gmap ptr Agency.t;
  routeAt : gmap ptr Route.t;
  tripAt : gmap ptr Trip.t;
  stopAt : gmap ptr Stop.t;
  serviceAt : gmap ptr Service.t;
  shapeAt : gmap ptr Shape.t;
  fareAt : gmap ptr FareAttribute.t }.

Definition setRoutes (m : gmap string ptr) (f : Feed) : Feed :=
  mkFeed (Agencies f) m (Trips f) (Stops f) (Services f) (Shapes f)
         (FareAttributes f) (agencyAt f) (routeAt f) (tripAt f) (stopAt f)
         (serviceAt f) (shapeAt f) (fareAt f).
Definition setFareAttributes (m : gmap string ptr) (f : Feed) : Feed :=
  mkFeed (Agencies f) (Routes f) (Trips f) (Stops f) (Services f) (Shapes f)
         m (agencyAt f) (routeAt f) (tripAt f) (stopAt f)
         (serviceAt f) (shapeAt f) (fareAt f).
Definition setTripAt (h : gmap ptr Trip.t) (f : Feed) : Feed :=
  mkFeed (Agencies f) (Routes f) (Trips f) (Stops f) (Services f) (Shapes f)
         (FareAttributes f) (agencyAt f) (routeAt f) h (stopAt f)
         (serviceAt f) (shapeAt f) (fareAt f).
Definition setFareAt (h : gmap ptr FareAttribute.t) (f : Feed) : Feed :=
  mkFeed (Agencies f) (Routes f) (Trips f) (Stops f) (Services f) (Shapes f)
         (FareAttributes f) (agencyAt f) (routeAt f) (tripAt f) (stopAt f)
         (serviceAt f) (shapeAt f) h.

(** Reading through a handle. *)
Definition route (f : Feed) (p : ptr) : Route.t := routeAt f !!! p.
Definition trip (f : Feed) (p : ptr) : Trip.t := tripAt f !!! p.
Definition fare (f : Feed) (p : ptr) : FareAttribute.t := fareAt f !!! p.

(** ** Enumeration order of [range] over a map *)

(** The [range] statements over maps, by place in the source. *)
Inductive Site :=
  | RunChunks        (* Run: for _, r := range feed.Routes (chunking) *)
  | RunTrips         (* Run: for _, t := range feed.Trips *)
  | RunRoutes        (* Run: for _, r := range feed.Routes (merging) *)
  | FareEquality     (* checkFareEquality: range feed.FareAttributes *)
  | CombineFares     (* combineRoutes: range feed.FareAttributes *)
  | MinTrips | MinStops | MinRoutes | MinShapes | MinAgencies | MinServices.

Definition Order := Site -> gmap string ptr -> list (string * ptr).

Definition fairOrder (order : Order) : Prop :=
  forall s m, order s m ≡ₚ map_to_list m.

(** ** routeduplicateremover.go *)

Module RouteDuplicateRemover.

(** Same origin, destination and contains identifiers. *)
Definition sameZones (r rb : FareAttributeRule.t) : bool :=
  bool_decide (FareAttributeRule.Origin_id r = FareAttributeRule.Origin_id rb)
  && bool_decide (FareAttributeRule.Destination_id r = FareAttributeRule.Destination_id rb)
  && bool_decide (FareAttributeRule.Contains_id r = FareAttributeRule.Contains_id rb).

(** The inner search loop of fareRulesEqual: the first rule of [rules] with
    the zones of [r] is cut out ([append(rules[:i], rules[i+1:]...)]) and the
    loop left; [None] when the loop ends with [found] still false. *)
Fixpoint cutFirst (r : FareAttributeRule.t) (rules : list FareAttributeRule.t)
  : option (list FareAttributeRule.t) :=
  match rules with
  | [] => None
  | rb :: rest =>
      if sameZones r rb then Some rest
      else match cutFirst r rest with
           | Some rest' => Some (rb :: rest')
           | None => None
           end
  end.

(** One round of the loop over [attr.Rules]; the state is (rulesA, rulesB). *)
Definition fareRulesStep (a b : ptr)
    (st : list FareAttributeRule.t * list FareAttributeRule.t)
    (r : FareAttributeRule.t) : list FareAttributeRule.t * list FareAttributeRule.t :=
  let st1 :=
    if bool_decide (FareAttributeRule.Route r = a) then
      match cutFirst r (snd st) with
      | Some rulesB => (fst st, rulesB)
      | None => (fst st ++ [r], snd st)
      end
    else st in
  if bool_decide (FareAttributeRule.Route r = b) then
    match cutFirst r (fst st1) with
    | Some rulesA => (rulesA, snd st1)
    | None => (fst st1, snd st1 ++ [r])
    end
  else st1.

Definition fareRulesEqual (attr : FareAttribute.t) (a b : ptr) : bool :=
  let st := foldl (fareRulesStep a b) ([], []) (FareAttribute.Rules attr) in
  bool_decide (length (fst st) = 0%nat) && bool_decide (length (snd st) = 0%nat).

(** [(a.Url != nil && b.Url != nil && a.Url.String() == b.Url.String())
     || a.Url == b.Url]; two handles are the same URL when address and
    content agree. *)
Definition urlEquals (a b : option URL) : bool :=
  (bool_decide (a ≠ None) && bool_decide (b ≠ None)
   && bool_decide (url_String <$> a = url_String <$> b))
  || bool_decide (a = b).

Definition routeEquals (a b : Route.t) : bool :=
  bool_decide (Route.Agency a = Route.Agency b)
  && bool_decide (Route.Short_name a = Route.Short_name b)
  && bool_decide (Route.Long_name a = Route.Long_name b)
  && bool_decide (Route.Desc a = Route.Desc b)
  && bool_decide (Route.Typ a = Route.Typ b)
  && urlEquals (Route.Url a) (Route.Url b)
  && bool_decide (Route.Color a = Route.Color b)
  && bool_decide (Route.Text_color a = Route.Text_color b).

Section WithOrder.

Variable order : Order.
(** [MaxParallelism()] of the package, declared in another file. *)
Variable MaxParallelism : Z.

(** The rule loop of checkFareEquality for one fare attribute: at the first
    rule on [a] or [b] the attribute is compared and the loop left. *)
Definition touches (a b : ptr) (fr : FareAttributeRule.t) : bool :=
  bool_decide (FareAttributeRule.Route fr = a)
  || bool_decide (FareAttributeRule.Route fr = b).

Definition fareAttrOk (attr : FareAttribute.t) (a b : ptr) : bool :=
  if existsb (touches a b) (FareAttribute.Rules attr)
  then fareRulesEqual attr a b
  else true.

Definition checkFareEquality (feed : Feed) (a b : ptr) : bool :=
  forallb (fun e => fareAttrOk (fare feed (snd e)) a b)
          (order FareEquality (FareAttributes feed)).

(** The test of the scan in getEquivalentRoutes:
    [r != route && m.routeEquals(r, route) && m.checkFareEquality(feed, route, r)]. *)
Definition equivalentTo (feed : Feed) (rt : ptr) (r : ptr) : bool :=
  bool_decide (r ≠ rt)
  && routeEquals (route feed r) (route feed rt)
  && checkFareEquality feed rt r.

(** The goroutines of getEquivalentRoutes each scan one chunk and write
    only their own slot of [rets]; the slots are joined in chunk order once
    all have signalled. *)
Definition getEquivalentRoutes (rt : ptr) (feed : Feed) (chunks : list (list ptr))
  : list ptr :=
  let rets := map (List.filter (equivalentTo feed rt)) chunks in
  concat rets.

(** [fa.Rules[j] = fa.Rules[len-1]; fa.Rules[len-1] = nil;
     fa.Rules = fa.Rules[:len-1]], with Go's bounds check on [j]. *)
Definition swapRemove (rules : list FareAttributeRule.t) (j : nat)
  : result (list FareAttributeRule.t) :=
  match rules !! (length rules - 1)%nat with
  | Some last =>
      if bool_decide (j < length rules)%nat
      then Ok (take (length rules - 1)%nat (<[j := last]> rules))
      else Panic "runtime error: index out of range"
  | None => Panic "runtime error: index out of range"
  end.

(** The indices [toDel] of the rules on route [r], ascending from [j]. *)
Fixpoint toDelFrom (r : ptr) (j : nat) (rules : list FareAttributeRule.t) : list nat :=
  match rules with
  | [] => []
  | fr :: rest =>
      if bool_decide (FareAttributeRule.Route fr = r)
      then j :: toDelFrom r (S j) rest
      else toDelFrom r (S j) rest
  end.

(** Body of [for _, fa := range feed.FareAttributes] in combineRoutes. *)
Definition combineFare (r : ptr) (feed : Feed) (e : string * ptr) : result Feed :=
  match FareAttributes feed !! fst e with
  | None => Ok feed
  | Some _ =>
      let fa := snd e in
      let rules := FareAttribute.Rules (fare feed fa) in
      let emptyBef := bool_decide (length rules = 0%nat) in
      let toDel := toDelFrom r 0 rules in
      let* rules' := forM swapRemove rules toDel in
      let feed1 :=
        setFareAt (<[fa := FareAttribute.setRules rules' (fare feed fa)]> (fareAt feed)) feed in
      if bool_decide (length rules' = 0%nat) && negb emptyBef
      then Ok (setFareAttributes
                 (delete (FareAttribute.Id (fare feed1 fa)) (FareAttributes feed1)) feed1)
      else Ok feed1
  end.

(** [for _, t := range trips[r] { if t.Route == r { t.Route = ref } }] *)
Definition repoint (r ref : ptr) (feed : Feed) (t : ptr) : Feed :=
  if bool_decide (Trip.Route (trip feed t) = r)
  then setTripAt (<[t := Trip.setRoute ref (trip feed t)]> (tripAt feed)) feed
  else feed.

(** The reference route: the first of [routes] with the shortest Id. *)
Definition shorter (feed : Feed) (ref r : ptr) : ptr :=
  if bool_decide (String.length (Route.Id (route feed r))
                  < String.length (Route.Id (route feed ref)))%nat
  then r else ref.

Definition pickRef (feed : Feed) (routes : list ptr) : result ptr :=
  match routes with
  | [] => Panic "runtime error: index out of range"
  | r0 :: _ => Ok (foldl (shorter feed) r0 routes)
  end.

(** Body of the second loop of combineRoutes. *)
Definition combineOne (ref : ptr) (trips : gmap ptr (list ptr)) (feed : Feed) (r : ptr)
  : result Feed :=
  if bool_decide (r = ref) then Ok feed
  else
    let feed1 := foldl (repoint r ref) feed (trips !!! r) in
    let* feed2 := forM (combineFare r) feed1 (order CombineFares (FareAttributes feed1)) in
    Ok (setRoutes (delete (Route.Id (route feed2 r)) (Routes feed2)) feed2).

Definition combineRoutes (feed : Feed) (routes : list ptr) (trips : gmap ptr (list ptr))
  : result Feed :=
  let* ref := pickRef feed routes in
  forM (combineOne ref trips) feed routes.

(** The chunking loop of Run; the state is (chunks, curchunk). *)
Definition chunkStep (chunksize : Z) (st : list (list ptr) * nat) (e : string * ptr)
  : result (list (list ptr) * nat) :=
  match fst st !! snd st with
  | None => Panic "runtime error: index out of range"
  | Some c =>
      let c' := c ++ [snd e] in
      Ok (<[snd st := c']> (fst st),
          if bool_decide (Z.of_nat (length c') = chunksize) then S (snd st) else snd st)
  end.

Definition buildChunks (feed : Feed) : result (list (list ptr)) :=
  let numchunks := MaxParallelism in
  if bool_decide (numchunks <= 0)
  then Panic "runtime error: integer divide by zero or makeslice: len out of range"
  else
    let chunksize := Z.quot (Z.of_nat (size (Routes feed)) + numchunks - 1) numchunks in
    let chunks := replicate (Z.to_nat numchunks) [] in
    let* st := forM (chunkStep chunksize) (chunks, 0%nat) (order RunChunks (Routes feed)) in
    Ok (fst st).

(** [trips[t.Route] = append(trips[t.Route], t)] over feed.Trips. *)
Definition indexTrip (feed : Feed) (trips : gmap ptr (list ptr)) (e : string * ptr)
  : gmap ptr (list ptr) :=
  let rt := Trip.Route (trip feed (snd e)) in
  <[rt := (trips !!! rt) ++ [snd e]]> trips.

Definition tripsIndex (feed : Feed) : gmap ptr (list ptr) :=
  foldl (indexTrip feed) ∅ (order RunTrips (Trips feed)).

(** Body of the merging loop of Run; the state is (feed, proced). *)
Definition runStep (chunks : list (list ptr)) (trips : gmap ptr (list ptr))
    (st : Feed * gset ptr) (e : string * ptr) : result (Feed * gset ptr) :=
  let feed := fst st in
  let proced := snd st in
  match Routes feed !! fst e with
  | None => Ok st
  | Some _ =>
      let r := snd e in
      if bool_decide (r ∈ proced) then Ok st
      else
        let eqRoutes := getEquivalentRoutes r feed chunks in
        if bool_decide (0 < length eqRoutes)%nat then
          let* feed' := combineRoutes feed (eqRoutes ++ [r]) trips in
          Ok (feed', proced ∪ list_to_set eqRoutes ∪ {[r]})
        else Ok st
  end.

Definition Run (feed : Feed) : result Feed :=
  let* chunks := buildChunks feed in
  let trips := tripsIndex feed in
  let* st := forM (runStep chunks trips) (feed, ∅) (order RunRoutes (Routes feed)) in
  Ok (fst st).

End WithOrder.

End RouteDuplicateRemover.

(** ** The identifier minimiser (idminimizer.go) *)

Definition setTrips (m : gmap string ptr) (h : gmap ptr Trip.t) (f : Feed) : Feed :=
  mkFeed (Agencies f) (Routes f) m (Stops f) (Services f) (Shapes f)
         (FareAttributes f) (agencyAt f) (routeAt f) h (stopAt f)
         (serviceAt f) (shapeAt f) (fareAt f).
Definition setStops (m : gmap string ptr) (h : gmap ptr Stop.t) (f : Feed) : Feed :=
  mkFeed (Agencies f) (Routes f) (Trips f) m (Services f) (Shapes f)
         (FareAttributes f) (agencyAt f) (routeAt f) (tripAt f) h
         (serviceAt f) (shapeAt f) (fareAt f).
Definition setRoutesAll (m : gmap string ptr) (h : gmap ptr Route.t) (f : Feed) : Feed :=
  mkFeed (Agencies f) m (Trips f) (Stops f) (Services f) (Shapes f)
         (FareAttributes f) (agencyAt f) h (tripAt f) (stopAt f)
         (serviceAt f) (shapeAt f) (fareAt f).
Definition setShapes (m : gmap string ptr) (h : gmap ptr Shape.t) (f : Feed) : Feed :=
  mkFeed (Agencies f) (Routes f) (Trips f) (Stops f) (Services f) m
         (FareAttributes f) (agencyAt f) (routeAt f) (tripAt f) (stopAt f)
         (serviceAt f) h (fareAt f).
Definition setAgencies (m : gmap string ptr) (h : gmap ptr Agency.t) (f : Feed) : Feed :=
  mkFeed m (Routes f) (Trips f) (Stops f) (Services f) (Shapes f)
         (FareAttributes f) h (routeAt f) (tripAt f) (stopAt f)
         (serviceAt f) (shapeAt f) (fareAt f).
Definition setServices (m : gmap string ptr) (h : gmap ptr Service.t) (f : Feed) : Feed :=
  mkFeed (Agencies f) (Routes f) (Trips f) (Stops f) m (Shapes f)
         (FareAttributes f) (agencyAt f) (routeAt f) (tripAt f) (stopAt f)
         h (shapeAt f) (fareAt f).

Module IDMinimizer.

(** [int64] arithmetic wraps around. *)
Definition wrap64 (z : Z) : Z := (z + 2 ^ 63) mod 2 ^ 64 - 2 ^ 63.

(** [strconv.FormatInt] of Go's library: the digits of [i] in [base], most
    significant first, lower-case letters for digit values from 10, a
    leading minus sign for a negative [i]; a base outside 2..36 panics. *)
Definition digits : string := "0123456789abcdefghijklmnopqrstuvwxyz".

Definition digit (d : Z) : ascii :=
  match String.get (Z.to_nat d) digits with
  | Some c => c
  | None => "0"%char
  end.

Fixpoint formatBits (fuel : nat) (u base : Z) : string :=
  match fuel with
  | O => ""
  | S fuel' =>
      if u <? base then String (digit u) ""
      else formatBits fuel' (u / base) base +:+ String (digit (u mod base)) ""
  end.

Definition FormatInt (i base : Z) : result string :=
  if bool_decide (base < 2 \/ 36 < base)
  then Panic "strconv: illegal AppendInt/FormatInt base"
  else Ok (if i <? 0 then "-" +:+ formatBits 64 (- i) base
           else formatBits 64 i base).

(** [IDMinimizer{Base}] *)
Record t := mk { Base : Z }.

Section Collection.
Context {A : Type} `{Inhabited A}.
Variable setId : string -> A -> A.

  (** Body of [for _, x := range feed.Xs]: [x.Id = FormatInt(idCount, Base);
      idCount = idCount + 1; newMap[x.Id] = x].  The state is
      (idCount, newMap, the store of the Xs). *)
Definition renumber (base : Z) (st : Z * gmap string ptr * gmap ptr A)
      (e : string * ptr) : result (Z * gmap string ptr * gmap ptr A) :=
    let idCount := fst (fst st) in
    let newMap := snd (fst st) in
    let mem := snd st in
    let* id := FormatInt idCount base in
    let mem' := <[snd e := setId id (mem !!! snd e)]> mem in
    Ok (wrap64 (idCount + 1), <[id := snd e]> newMap, mem').

  (** One of the six minimize functions, for the entries in the order the
      [range] produces them: the new map and the store afterwards. *)
Definition minimizeIds (base : Z) (entries : list (string * ptr)) (mem : gmap ptr A)
    : result (gmap string ptr * gmap ptr A) :=
    let* st := forM (renumber base) (1, ∅, mem) entries in
    Ok (snd (fst st), snd st).
End Collection.

Section WithOrder.
Variable order : Order.

Definition minimizeTripIds (minimizer : t) (feed : Feed) : result Feed :=
  let* r := minimizeIds Trip.setId (Base minimizer)
              (order MinTrips (Trips feed)) (tripAt feed) in
  Ok (setTrips (fst r) (snd r) feed).

Definition minimizeShapeIds (minimizer : t) (feed : Feed) : result Feed :=
  let* r := minimizeIds Shape.setId (Base minimizer)
              (order MinShapes (Shapes feed)) (shapeAt feed) in
  Ok (setShapes (fst r) (snd r) feed).

Definition minimizeRouteIds (minimizer : t) (feed : Feed) : result Feed :=
  let* r := minimizeIds Route.setId (Base minimizer)
              (order MinRoutes (Routes feed)) (routeAt feed) in
  Ok (setRoutesAll (fst r) (snd r) feed).

Definition minimizeServiceIds (minimizer : t) (feed : Feed) : result Feed :=
  let* r := minimizeIds Service.setId (Base minimizer)
              (order MinServices (Services feed)) (serviceAt feed) in
  Ok (setServices (fst r) (snd r) feed).

Definition minimizeStopIds (minimizer : t) (feed : Feed) : result Feed :=
  let* r := minimizeIds Stop.setId (Base minimizer)
              (order MinStops (Stops feed)) (stopAt feed) in
  Ok (setStops (fst r) (snd r) feed).

Definition minimizeAgencyIds (minimizer : t) (feed : Feed) : result Feed :=
  let* r := minimizeIds Agency.setId (Base minimizer)
              (order MinAgencies (Agencies feed)) (agencyAt feed) in
  Ok (setAgencies (fst r) (snd r) feed).

(** Run starts the six functions as goroutines and waits for all of them.
    Each reads and writes one collection of the feed and the structs of
    that collection only, so the interleaving does not show in the result:
    they are taken one after the other, in the order they are started. *)
Definition Run (minimizer : t) (feed : Feed) : result Feed :=
  let* f1 := minimizeTripIds minimizer feed in
  let* f2 := minimizeStopIds minimizer f1 in
  let* f3 := minimizeRouteIds minimizer f2 in
  let* f4 := minimizeShapeIds minimizer f3 in
  let* f5 := minimizeAgencyIds minimizer f4 in
  minimizeServiceIds minimizer f5.

End WithOrder.

End IDMinimizer.

(** ** The driver (gtfstidy.go) *)

Module Main.

(** The command line after [flag.Parse()]; [arg0] is [flag.Arg(0)], empty
    when no argument is given. *)
Record Flags := mkFlags {
  onlyValidate : bool;
  outputPath : string;
  useDefaultValuesOnError : bool;
  dropErroneousEntities : bool;
  useOrphanDeleter : bool;
  useShapeMinimizer : bool;
  useShapeRemeasurer : bool;
  useRedShapeRemover : bool;
  useRedRouteMinimizer : bool;
  useRedServiceMinimizer : bool;
  useIDMinimizerNum : bool;
  useIDMinimizerChar : bool;
  useServiceMinimizer : bool;
  useFrequencyMinimizer : bool;
  help : bool;
  arg0 : string }.

(** [gtfsparser.ParseOptions] *)
Record ParseOptions := mkParseOptions {
  UseDefValueOnError : bool;
  DropErroneous : bool;
  DryRun : bool }.

(** The values of [processors.Processor] main builds; Epsilon is 1.0 and
    MaxEqDistance is 10.0 in the source. *)
Inductive Processor :=
  | OrphanRemover
  | ShapeRemeasurer
  | ShapeMinimizer (Epsilon : Z)
  | ShapeDuplicateRemover (MaxEqDistance : Z)
  | RouteDuplicateRemover_
  | ServiceDuplicateRemover
  | ServiceMinimizer
  | FrequencyMinimizer
  | IDMinimizer_ (Base : Z).

(** What main does not contain: the parser, the writer, the processors of
    other files, the order of map enumeration and the number of workers.
    [Parse] and [WriteFeed] (the writer's Write) return the error value ([None] for nil). *)
Record World := mkWorld {
  order : Order;
  MaxParallelism : Z;
  Parse : ParseOptions -> string -> result (Feed * option string);
  RunOther : Processor -> Feed -> result Feed;
  WriteFeed : Feed -> string -> result (option string) }.

(** What the process shows: lines on the two streams, and the options and
    paths it hands to the parser and to the writer. *)
Inductive Event :=
  | Stdout (s : string)
  | Stderr (s : string)
  | CallParse (opts : ParseOptions) (path : string)
  | CallWrite (path : string).

(** How a piece of main ends. *)
Inductive Ending :=
  | Returns
  | Exits (code : Z)       (* os.Exit(code) *)
  | Panics (v : string).

Definition usage : string :=
  "gtfstidy - 2016 by P. Brosi

Usage:

  gtfstidy [-o <outputfile>] <input GTFS>

Allowed options:

".

(** Lines 65 to 67. *)
Definition parseOptions (fl : Flags) : ParseOptions :=
  let opts := mkParseOptions false false (onlyValidate fl) in
  let opts := mkParseOptions (UseDefValueOnError opts)
                (dropErroneousEntities fl && negb (onlyValidate fl)) (DryRun opts) in
  mkParseOptions (useDefaultValuesOnError fl && negb (onlyValidate fl))
                 (DropErroneous opts) (DryRun opts).

(** Lines 82 to 120. *)
Definition minzers (fl : Flags) : list Processor :=
  (if useOrphanDeleter fl then [OrphanRemover] else [])
  ++ (if useShapeRemeasurer fl || useShapeMinimizer fl || useRedShapeRemover fl
      then [ShapeRemeasurer] else [])
  ++ (if useShapeMinimizer fl then [ShapeMinimizer 1] else [])
  ++ (if useRedShapeRemover fl then [ShapeDuplicateRemover 10] else [])
  ++ (if useRedRouteMinimizer fl then [RouteDuplicateRemover_] else [])
  ++ (if useRedServiceMinimizer fl then [ServiceDuplicateRemover] else [])
  ++ (if useServiceMinimizer fl then [ServiceMinimizer] else [])
  ++ (if useFrequencyMinimizer fl then [FrequencyMinimizer] else [])
  ++ (if useIDMinimizerNum fl then [IDMinimizer_ 10]
      else if useIDMinimizerChar fl then [IDMinimizer_ 36] else []).

(** [m.Run(feed)] *)
Definition runProcessor (w : World) (feed : Feed) (m : Processor) : result Feed :=
  match m with
  | RouteDuplicateRemover_ =>
      RouteDuplicateRemover.Run (order w) (MaxParallelism w) feed
  | IDMinimizer_ b => IDMinimizer.Run (order w) (IDMinimizer.mk b) feed
  | _ => RunOther w m feed
  end.

(** main from line 64 on, below the [defer].  The progress lines the
    processors print themselves are left out of the trace. *)
Definition process (w : World) (fl : Flags) : list Event * Ending :=
  let gtfsPath := arg0 fl in
  let opts := parseOptions fl in
  let ev0 := [Stdout ("Parsing GTFS feed in '" +:+ gtfsPath +:+ "' ...");
              CallParse opts gtfsPath] in
  match Parse w opts gtfsPath with
  | Panic v => (ev0, Panics v)
  | Ok (feed, Some e) =>
      (ev0 ++ [Stderr "
Error while parsing GTFS feed:
"; Stderr e]
           ++ (if negb (onlyValidate fl)
               then [Stdout "
You may want to try running gtfstidy with -e and/or -D for error fixing / skipping. See --help for details."]
               else []),
       Exits 1)
  | Ok (feed, None) =>
      let ev1 := ev0 ++ [Stdout " done."] in
      if onlyValidate fl then (ev1 ++ [Stdout "No errors."], Exits 0)
      else
        match forM (runProcessor w) feed (minzers fl) with
        | Panic v => (ev1, Panics v)
        | Ok feed' =>
            let ev2 := ev1 ++ [Stdout ("Outputting GTFS feed to '" +:+ outputPath fl +:+ "'...");
                               CallWrite (outputPath fl)] in
            match WriteFeed w feed' (outputPath fl) with
            | Panic v => (ev2, Panics v)
            | Ok (Some e) =>
                (ev2 ++ [Stderr ("
Error while writing GTFS feed in '" +:+ outputPath fl +:+ "':
 "); Stderr e],
                 Exits 1)
            | Ok None => (ev2 ++ [Stdout " done."], Returns)
            end
        end
  end.

(** main: what is shown, and the exit status of the process.  [os.Exit]
    ends the process at once; a return from main ends it with status 0;
    the deferred function runs when main returns or panics, and a panic it
    recovers from makes main return normally. *)
Definition main (w : World) (fl : Flags) : list Event * Z :=
  if help fl then ([Stderr usage], 0)
  else if bool_decide (String.length (arg0 fl) = 0%nat)
  then ([Stderr "No GTFS location specified, see --help"], 1)
  else
    match process w fl with
    | (ev, Exits code) => (ev, code)
    | (ev, Returns) => (ev, 0)
    | (ev, Panics v) => (ev ++ [Stderr ("Error: " +:+ v)], 0)
    end.

End Main.

(** * Specification vocabulary *)

Module Spec.

(** What a fare rule is matched by. *)
Definition zones (r : FareAttributeRule.t) : string * string * string :=
  (FareAttributeRule.Origin_id r, FareAttributeRule.Destination_id r,
   FareAttributeRule.Contains_id r).

(** The rules of a list attributable to route [a], in list order. *)
Definition sideOf (a : ptr) (l : list FareAttributeRule.t) : list FareAttributeRule.t :=
  List.filter (fun r => bool_decide (FareAttributeRule.Route r = a)) l.

Definition rulesOf (attr : FareAttribute.t) (a : ptr) : list FareAttributeRule.t :=
  sideOf a (FareAttribute.Rules attr).

(** The rules of the two routes pair off one-to-one by zones. *)
Definition pairable (attr : FareAttribute.t) (a b : ptr) : Prop :=
  zones <$> rulesOf attr a ≡ₚ zones <$> rulesOf attr b.

(** No rule of [la] has the zones of a rule of [lb]. *)
Definition apart (la lb : list FareAttributeRule.t) : Prop :=
  forall x y, x ∈ la -> y ∈ lb -> zones x ≠ zones y.

Definition urlIdentical (a b : option URL) : Prop :=
  match a, b with
  | Some ua, Some ub => url_String ua = url_String ub
  | None, None => True
  | _, _ => False
  end.

(** Agency, short name, long name, description, type, url, color, text
    color are identical. *)
Definition fieldsIdentical (x y : Route.t) : Prop :=
  Route.Agency x = Route.Agency y /\
  Route.Short_name x = Route.Short_name y /\
  Route.Long_name x = Route.Long_name y /\
  Route.Desc x = Route.Desc y /\
  Route.Typ x = Route.Typ y /\
  urlIdentical (Route.Url x) (Route.Url y) /\
  Route.Color x = Route.Color y /\
  Route.Text_color x = Route.Text_color y.

(** The rule set of [attr] touches route [a] or route [b]. *)
Definition touched (attr : FareAttribute.t) (a b : ptr) : Prop :=
  exists fr, fr ∈ FareAttribute.Rules attr /\
             (FareAttributeRule.Route fr = a \/ FareAttributeRule.Route fr = b).

Definition fareCompatible (feed : Feed) (a b : ptr) : Prop :=
  forall k fa, FareAttributes feed !! k = Some fa ->
    touched (fare feed fa) a b -> pairable (fare feed fa) a b.

(** The rules of a list that are not on route [r]. *)
Definition rulesOffRoute (r : ptr) (l : list FareAttributeRule.t)
  : list FareAttributeRule.t :=
  List.filter (fun fr => negb (bool_decide (FareAttributeRule.Route fr = r))) l.

(** The rules of a list that are on none of the routes in [D]. *)
Definition rulesOffRoutes (D : gset ptr) (l : list FareAttributeRule.t)
  : list FareAttributeRule.t :=
  List.filter (fun fr => bool_decide (FareAttributeRule.Route fr ∉ D)) l.

(** Every route, and every fare attribute, is filed under its own Id. *)
Definition routesById (feed : Feed) : Prop :=
  forall k p, Routes feed !! k = Some p -> Route.Id (route feed p) = k.

Definition faresById (feed : Feed) : Prop :=
  forall k p, FareAttributes feed !! k = Some p -> FareAttribute.Id (fare feed p) = k.

(** The routes of [f] are those of [feed0] but for the routes in [D]. *)
Definition routesPruned (feed0 : Feed) (D : gset ptr) (f : Feed) : Prop :=
  routeAt f = routeAt feed0
  /\ forall k p, Routes f !! k = Some p <-> Routes feed0 !! k = Some p /\ p ∉ D.

(** The fare attributes of [f] are those of [feed0] with the rules on the
    routes in [D] removed, the attributes emptied by that possibly gone. *)
Definition faresPruned (feed0 : Feed) (D : gset ptr) (f : Feed) : Prop :=
  FareAttributes f ⊆ FareAttributes feed0
  /\ (forall k p, FareAttributes feed0 !! k = Some p ->
         FareAttribute.Id (fare f p) = k)
  /\ (forall k p, FareAttributes feed0 !! k = Some p ->
         FareAttribute.Rules (fare f p)
         ≡ₚ rulesOffRoutes D (FareAttribute.Rules (fare feed0 p)))
  /\ (forall k p, FareAttributes feed0 !! k = Some p ->
         FareAttributes f !! k = None -> FareAttribute.Rules (fare f p) = []).

(** Two routes are duplicates in [feed0]: identical descriptive fields, and
    in every fare attribute their rules pair off. *)
Definition sameFares (feed0 : Feed) (x y : ptr) : Prop :=
  forall k p, FareAttributes feed0 !! k = Some p -> pairable (fare feed0 p) x y.

Definition duplicates (feed0 : Feed) (x y : ptr) : Prop :=
  fieldsIdentical (route feed0 x) (route feed0 y) /\ sameFares feed0 x y.

(** Route [r] is held by the Routes collection. *)
Definition routeListed (feed : Feed) (r : ptr) : Prop :=
  r ∈ (map_to_list (Routes feed)).*2.

(** Every trip's route and every fare rule's route is in the Routes
    collection. *)
Definition referencesResolve (feed : Feed) : Prop :=
  map_Forall (fun _ t => routeListed feed (Trip.Route (trip feed t))) (Trips feed)
  /\ map_Forall (fun _ fa =>
        Forall (fun fr => routeListed feed (FareAttributeRule.Route fr))
               (FareAttribute.Rules (fare feed fa)))
      (FareAttributes feed).

(** Reading a numeral back: the value of a digit character, and of a
    string of digits in [base]. *)
Fixpoint indexOf (c : ascii) (s : string) (i : Z) : Z :=
  match s with
  | EmptyString => i
  | String d s' => if Ascii.eqb c d then i else indexOf c s' (i + 1)
  end.

Definition digitVal (c : ascii) : Z := indexOf c IDMinimizer.digits 0.

Fixpoint parseBits (base : Z) (acc : Z) (s : string) : Z :=
  match s with
  | EmptyString => acc
  | String c s' => parseBits base (acc * base + digitVal c) s'
  end.

(** The identifiers the minimiser hands out to a collection of [n]
    entities: the numerals of 1, ..., n. *)
Definition numeral (base : Z) (i : Z) : string := IDMinimizer.formatBits 64 i base.

Definition numerals (base : Z) (n : nat) : list string :=
  numeral base <$> seqZ 1 (Z.of_nat n).

(** A collection renumbered: the entities of [old], in some order, under
    the numerals of 1, ..., n, each entity carrying the identifier it is
    filed under. *)
Definition renumbered {A} (getId : A -> string) (base : Z)
    (old new : gmap string ptr) (mem : gmap ptr A) `{Inhabited A} : Prop :=
  (exists handles,
      handles ≡ₚ (map_to_list old).*2
      /\ map_to_list new ≡ₚ zip (numerals base (length handles)) handles)
  /\ (forall k p, new !! k = Some p -> getId (mem !!! p) = k).

(** The six renumbered collections hold fewer than 2^63 entities each, so
    the [int64] counter does not wrap. *)
Definition countable64 (feed : Feed) : Prop :=
  Z.of_nat (size (Trips feed)) < 2 ^ 63 /\
  Z.of_nat (size (Stops feed)) < 2 ^ 63 /\
  Z.of_nat (size (Routes feed)) < 2 ^ 63 /\
  Z.of_nat (size (Shapes feed)) < 2 ^ 63 /\
  Z.of_nat (size (Agencies feed)) < 2 ^ 63 /\
  Z.of_nat (size (Services feed)) < 2 ^ 63.

(** The collection holds the same entity instances as before. *)
Definition sameEntities (old new : gmap string ptr) : Prop :=
  (map_to_list new).*2 ≡ₚ (map_to_list old).*2.

(** Every struct of a store is as before in all fields but Id. *)
Definition onlyIdChanged {A} `{Inhabited A} (getId : A -> string)
    (setId : string -> A -> A) (mem mem' : gmap ptr A) : Prop :=
  forall p, mem' !!! p = setId (getId (mem' !!! p)) (mem !!! p).

(** No entity is filed under two identifiers. *)
Definition distinctHandles (m : gmap string ptr) : Prop :=
  NoDup (map_to_list m).*2.

(** What one minimize function does to its collection and store. *)
Definition minimized {A} `{Inhabited A} (getId : A -> string)
    (setId : string -> A -> A) (base : Z)
    (old new : gmap string ptr) (mem mem' : gmap ptr A) : Prop :=
  sameEntities old new
  /\ dom new = list_to_set (numerals base (size old))
  /\ onlyIdChanged getId setId mem mem'
  /\ (distinctHandles old -> renumbered getId base old new mem').

(** The six renumbered collections file no entity twice. *)
Definition distinctEntities (feed : Feed) : Prop :=
  distinctHandles (Trips feed) /\ distinctHandles (Stops feed) /\
  distinctHandles (Routes feed) /\ distinctHandles (Shapes feed) /\
  distinctHandles (Agencies feed) /\ distinctHandles (Services feed).

#[global] Instance routeListed_dec feed r : Decision (routeListed feed r).
Proof. unfold routeListed. apply _. Defined.
#[global] Instance referencesResolve_dec feed : Decision (referencesResolve feed).
Proof. unfold referencesResolve. apply _. Defined.

#[global] Instance distinctEntities_dec feed : Decision (distinctEntities feed).
Proof. unfold distinctEntities, distinctHandles. apply _. Defined.
#[global] Instance countable64_dec feed : Decision (countable64 feed).
Proof. unfold countable64. apply _. Defined.

End Spec.

(** * Concrete feeds *)

Module Examples.

(** Enumeration in the order of the map's own listing, and in the reverse
    of it. *)
Definition inMapOrder : Order := fun _ m => map_to_list m.
Definition reversedOrder : Order := fun _ m => reverse (map_to_list m).

(** A route of line 10; all routes below agree in every descriptive field. *)
Definition line10 (id : string) : Route.t :=
  Route.mk id (Some 1%nat) "10" "" "" 3 None "" "".

Definition tripOn (id : string) (r : ptr) : Trip.t :=
  Trip.mk id r 1%nat None [].

Definition rule (zone : string) (r : ptr) : FareAttributeRule.t :=
  FareAttributeRule.mk zone "" "" r.

Definition feedOf (routes trips : list (string * ptr))
    (fares : list (string * ptr))
    (routeMem : gmap ptr Route.t) (tripMem : gmap ptr Trip.t)
    (fareMem : gmap ptr FareAttribute.t) : Feed :=
  mkFeed ∅ (list_to_map routes) (list_to_map trips) ∅ ∅ ∅ (list_to_map fares)
         ∅ routeMem tripMem ∅ ∅ ∅ fareMem.

(** Routes R1 and R22 with identical fields, no fares, trips T1 on R1 and
    T2 on R22.  Handles: routes 1 and 2, trips 1 and 2. *)
Definition feedR1R22 : Feed :=
  feedOf [("R1", 1%nat); ("R22", 2%nat)] [("T1", 1%nat); ("T2", 2%nat)] []
         (list_to_map [(1%nat, line10 "R1"); (2%nat, line10 "R22")])
         (list_to_map [(1%nat, tripOn "T1" 1%nat); (2%nat, tripOn "T2" 2%nat)])
         ∅.

(** [feedR1R22] with R22 merged into R1: R22 is gone from the Routes
    collection and trip T2 is on R1. *)
Definition feedR1R22_merged : Feed :=
  setRoutes {[ "R1" := 1%nat ]}
    (setTripAt (<[2%nat := tripOn "T2" 1%nat]> (tripAt feedR1R22)) feedR1R22).

(** The same two routes, and a fare F with a rule per route for each of
    two zones. *)
Definition feedTwoZones : Feed :=
  feedOf [("R1", 1%nat); ("R22", 2%nat)] [("T1", 1%nat); ("T2", 2%nat)]
         [("F", 1%nat)]
         (list_to_map [(1%nat, line10 "R1"); (2%nat, line10 "R22")])
         (list_to_map [(1%nat, tripOn "T1" 1%nat); (2%nat, tripOn "T2" 2%nat)])
         (list_to_map [(1%nat, FareAttribute.mk "F" "2.50"
                          [rule "z1" 1%nat; rule "z1" 2%nat;
                           rule "z2" 1%nat; rule "z2" 2%nat])]).

(** Routes A, BB and CCC with identical fields; fare F has one rule for A
    and one for BB, none for CCC; one trip on each route.  Handles: routes
    1, 2, 3 and trips 1, 2, 3. *)
Definition feedThree : Feed :=
  feedOf [("A", 1%nat); ("BB", 2%nat); ("CCC", 3%nat)]
         [("T1", 1%nat); ("T2", 2%nat); ("T3", 3%nat)]
         [("F", 1%nat)]
         (list_to_map [(1%nat, line10 "A"); (2%nat, line10 "BB"); (3%nat, line10 "CCC")])
         (list_to_map [(1%nat, tripOn "T1" 1%nat); (2%nat, tripOn "T2" 2%nat);
                       (3%nat, tripOn "T3" 3%nat)])
         (list_to_map [(1%nat, FareAttribute.mk "F" "2.50"
                          [rule "z1" 1%nat; rule "z1" 2%nat])]).

(** Two routes, three trips and the fare attribute "adult". *)
Definition feedIds : Feed :=
  feedOf [("R1", 1%nat); ("R22", 2%nat)]
         [("T1", 1%nat); ("T2", 2%nat); ("T3", 3%nat)]
         [("adult", 1%nat)]
         (list_to_map [(1%nat, line10 "R1"); (2%nat, line10 "R22")])
         (list_to_map [(1%nat, tripOn "T1" 1%nat); (2%nat, tripOn "T2" 2%nat);
                       (3%nat, tripOn "T3" 2%nat)])
         (list_to_map [(1%nat, FareAttribute.mk "adult" "2.50"
                          [rule "z1" 1%nat; rule "z1" 2%nat])]).

(** [gtfstidy -R feed.zip], and [gtfstidy -v -e -D feed.zip]. *)
Definition flagsR : Main.Flags :=
  Main.mkFlags false "gtfs-out" false false false false false false true false
               false false false false false "feed.zip".
Definition flagsValidateLenient : Main.Flags :=
  Main.mkFlags true "gtfs-out" true true false false false false false false
               false false false false false "feed.zip".

(** A machine with four workers on which the parser yields [feed] without
    error and the writer succeeds. *)
Definition worldOf (feed : Feed) : Main.World :=
  Main.mkWorld inMapOrder 4 (fun _ _ => Ok (feed, None)) (fun _ f => Ok f)
               (fun _ _ => Ok None).

End Examples.

(** * Further vocabulary and feeds *)

Module Frame.

(** Every trip is as before in all fields but Route, and every fare
    attribute in all fields but Rules. *)
Definition onlyRouteChanged (mem mem' : gmap ptr Trip.t) : Prop :=
  forall t, mem' !!! t = Trip.setRoute (Trip.Route (mem' !!! t)) (mem !!! t).

Definition onlyRulesChanged (mem mem' : gmap ptr FareAttribute.t) : Prop :=
  forall p, mem' !!! p = FareAttribute.setRules (FareAttribute.Rules (mem' !!! p)) (mem !!! p)
            /\ FareAttribute.Rules (mem' !!! p) ⊆+ FareAttribute.Rules (mem !!! p).

(** What the route duplicate remover may do to a feed: drop entries of
    Routes and of FareAttributes, set the Route of trips, take rules out of
    fare attributes; nothing else. *)
Definition touchesOnlyRoutesAndFares (f f' : Feed) : Prop :=
  Agencies f' = Agencies f /\ Stops f' = Stops f /\ Services f' = Services f
  /\ Shapes f' = Shapes f /\ Trips f' = Trips f
  /\ agencyAt f' = agencyAt f /\ stopAt f' = stopAt f /\ serviceAt f' = serviceAt f
  /\ shapeAt f' = shapeAt f /\ routeAt f' = routeAt f
  /\ Routes f' ⊆ Routes f
  /\ FareAttributes f' ⊆ FareAttributes f
  /\ onlyRouteChanged (tripAt f) (tripAt f')
  /\ onlyRulesChanged (fareAt f) (fareAt f').

(** Every rule of a listed fare attribute is on a listed route. *)
Definition fareRulesResolve (feed : Feed) : Prop :=
  forall k fa fr, FareAttributes feed !! k = Some fa ->
    fr ∈ FareAttribute.Rules (fare feed fa) ->
    Spec.routeListed feed (FareAttributeRule.Route fr).

(** What holds between the rounds of Run on a feed [feed0] without fare
    attributes: for some set [D] of superseded routes, the routes are
    those of [feed0] but for [D]; the routes of [D] are marked as
    processed; with a processed route every listed route of identical
    fields is processed; and every trip is on a listed route, which is its
    route in [feed0] or a processed one, and in either case a route with
    the fields of its route in [feed0]; and every route of [feed0] has a
    listed route with its fields. *)
Definition classesMerged (feed0 : Feed) (st : Feed * gset ptr) : Prop :=
  exists D : gset ptr,
    Spec.routesPruned feed0 D (fst st)
    /\ FareAttributes (fst st) = ∅
    /\ Trips (fst st) = Trips feed0
    /\ (forall x, x ∈ D -> x ∈ snd st)
    /\ (forall x y ky, x ∈ snd st -> Routes feed0 !! ky = Some y ->
          Spec.fieldsIdentical (route feed0 x) (route feed0 y) -> y ∈ snd st)
    /\ (forall k t, Trips feed0 !! k = Some t ->
          (exists kr, Routes (fst st) !! kr = Some (Trip.Route (trip (fst st) t)))
          /\ (Trip.Route (trip (fst st) t) = Trip.Route (trip feed0 t)
              \/ Trip.Route (trip (fst st) t) ∈ snd st))
    /\ (forall k t, Trips feed0 !! k = Some t ->
          Spec.fieldsIdentical (route feed0 (Trip.Route (trip (fst st) t)))
                               (route feed0 (Trip.Route (trip feed0 t))))
    /\ (forall kx x, Routes feed0 !! kx = Some x ->
          exists ky y, Routes (fst st) !! ky = Some y
                       /\ Spec.fieldsIdentical (route feed0 x) (route feed0 y)).

End Frame.

Module Numerals.

(** Every character of [s] is one of the first [base] digits of
    [IDMinimizer.digits]. *)
Fixpoint allDigits (base : Z) (s : string) : Prop :=
  match s with
  | EmptyString => True
  | String c s' => 0 <= Spec.digitVal c < base /\ allDigits base s'
  end.

(** An identifier of at most [k] digits of [base], not empty. *)
Definition shortId (base : Z) (k : nat) (id : string) : Prop :=
  id ≠ "" /\ (String.length id <= k)%nat /\ allDigits base id.

(** A collection of fewer than [base ^ k] entities is filed under
    identifiers of at most [k] digits. *)
Definition shortIds (base : Z) (k : nat) (old new : gmap string ptr) : Prop :=
  Z.of_nat (size old) < base ^ Z.of_nat k ->
  forall id, id ∈ dom new -> shortId base k id.

(** The six collections the minimiser renumbers are all empty. *)
Definition nothingToRenumber (feed : Feed) : Prop :=
  Trips feed = ∅ /\ Stops feed = ∅ /\ Routes feed = ∅ /\ Shapes feed = ∅
  /\ Agencies feed = ∅ /\ Services feed = ∅.

End Numerals.

Module Driver.
Import Main.

(** The processors main can build, in the order of the [if] statements
    that append them; [b] is the base of the identifier minimiser. *)
Definition allProcessors (b : Z) : list Processor :=
  [OrphanRemover; ShapeRemeasurer; ShapeMinimizer 1; ShapeDuplicateRemover 10;
   RouteDuplicateRemover_; ServiceDuplicateRemover; ServiceMinimizer;
   FrequencyMinimizer; IDMinimizer_ b].

End Driver.

Module MoreExamples.
Import Examples.

(** Routes A, BB and CCC with identical fields, and a fare F with one rule
    of zone z1 for each; one trip on each route. *)
Definition feedTriple : Feed :=
  feedOf [("A", 1%nat); ("BB", 2%nat); ("CCC", 3%nat)]
         [("T1", 1%nat); ("T2", 2%nat); ("T3", 3%nat)]
         [("F", 1%nat)]
         (list_to_map [(1%nat, line10 "A"); (2%nat, line10 "BB"); (3%nat, line10 "CCC")])
         (list_to_map [(1%nat, tripOn "T1" 1%nat); (2%nat, tripOn "T2" 2%nat);
                       (3%nat, tripOn "T3" 3%nat)])
         (list_to_map [(1%nat, FareAttribute.mk "F" "2.50"
                          [rule "z1" 1%nat; rule "z1" 2%nat; rule "z1" 3%nat])]).

(** Two routes that differ in their short name. *)
Definition feedDistinct : Feed :=
  feedOf [("R1", 1%nat); ("R2", 2%nat)] [("T1", 1%nat)] []
         (list_to_map [(1%nat, line10 "R1");
                       (2%nat, Route.mk "R2" (Some 1%nat) "11" "" "" 3 None "" "")])
         (list_to_map [(1%nat, tripOn "T1" 1%nat)])
         ∅.

(** [gtfstidy -v -R feed.zip]. *)
Definition flagsValidateR : Main.Flags :=
  Main.mkFlags true "gtfs-out" false false false false false false true false
               false false false false false "feed.zip".

End MoreExamples.

(** * Proof tools *)

(** Reading a field of a feed built by the setters. *)
Ltac feed_reduce :=
  cbn [Agencies Routes Trips Stops Services Shapes FareAttributes
       agencyAt routeAt tripAt stopAt serviceAt shapeAt fareAt
       setTrips setStops setRoutesAll setShapes setAgencies setServices
       rbind fst snd].

Ltac feed_fields :=
  cbn [Agencies Routes Trips Stops Services Shapes FareAttributes
       agencyAt routeAt tripAt stopAt serviceAt shapeAt fareAt
       setRoutes setFareAttributes setTripAt setFareAt] in *.
(** * Properties *)

(** ** Fare rules: the pairing test of fareRulesEqual *)

Module FareRulesFacts.
Import RouteDuplicateRemover Spec.





Lemma sameZones_spec r rb : sameZones r rb = true <-> zones r = zones rb.
Proof.
  unfold sameZones, zones. rewrite !andb_true_iff, !bool_decide_eq_true.
  split; [intros [[-> ->] ->]; reflexivity | intros [= -> -> ->]; auto].
Qed.

Lemma cutFirst_Some r l l' :
  cutFirst r l = Some l' ->
  exists rb, zones rb = zones r /\ l ≡ₚ rb :: l'.
Proof.
  revert l'. induction l as [|x l IH]; intros l'; simpl; [discriminate|].
  destruct (sameZones r x) eqn:E.
  - intros [= <-]. exists x. split; [symmetry; by apply sameZones_spec | done].
  - destruct (cutFirst r l) as [rest|] eqn:C; [|discriminate].
    intros [= <-]. destruct (IH rest eq_refl) as (rb & Hz & Hp).
    exists rb. split; [done|]. rewrite Hp. apply Permutation_swap.
Qed.

Lemma cutFirst_None r l :
  cutFirst r l = None -> forall y, y ∈ l -> zones y ≠ zones r.
Proof.
  induction l as [|x l IH]; simpl; intros H y Hy; [by apply elem_of_nil in Hy|].
  destruct (sameZones r x) eqn:E; [discriminate|].
  destruct (cutFirst r l) eqn:C; [discriminate|].
  apply elem_of_cons in Hy as [->|Hy]; [|by apply IH].
  intros Hz. assert (sameZones r x = true) by (by apply sameZones_spec).
  congruence.
Qed.

Lemma apart_sub la lb la' lb' :
  apart la lb -> la' ⊆ la -> lb' ⊆ lb -> apart la' lb'.
Proof. intros H Ha Hb x y Hx Hy. apply H; auto. Qed.

(** One side of a round: a rule [r] arriving for the side whose leftovers
    are [mine], searched in the other side's leftovers [other]. *)
Lemma arrive_spec r mine other :
  apart mine other ->
  match cutFirst r other with
  | Some other' =>
      apart mine other' /\
      exists m, zones <$> mine ++ [r] ≡ₚ (zones <$> mine) ++ m
                /\ zones <$> other ≡ₚ (zones <$> other') ++ m
  | None => apart (mine ++ [r]) other
  end.
Proof.
  intros Hap. destruct (cutFirst r other) as [other'|] eqn:C.
  - destruct (cutFirst_Some _ _ _ C) as (rb & Hz & Hp). split.
    + eapply apart_sub; [exact Hap|done|]. intros y Hy. rewrite Hp. by right.
    + exists [zones r]. split; [by rewrite fmap_app|].
      rewrite Hp, fmap_cons, Hz. by rewrite Permutation_cons_append.
  - intros x y Hx Hy. apply elem_of_app in Hx as [Hx|Hx]; [by apply Hap|].
    apply list_elem_of_singleton in Hx as ->.
    intros Hz. eapply cutFirst_None; eauto.
Qed.


Lemma sideOf_cons_in a r l :
  FareAttributeRule.Route r = a -> sideOf a (r :: l) = r :: sideOf a l.
Proof. intros H. unfold sideOf. simpl. by rewrite bool_decide_eq_true_2. Qed.

Lemma sideOf_cons_out a r l :
  FareAttributeRule.Route r ≠ a -> sideOf a (r :: l) = sideOf a l.
Proof. intros H. unfold sideOf. simpl. by rewrite bool_decide_eq_false_2. Qed.

Lemma sideOf_app a l1 l2 : sideOf a (l1 ++ l2) = sideOf a l1 ++ sideOf a l2.
Proof. apply List.filter_app. Qed.

(** One round keeps the leftovers apart, and what leaves the two sides in
    this round is the same multiset [m] of zones. *)
Lemma fareRulesStep_spec a b la lb r :
  a ≠ b -> apart la lb ->
  let st := fareRulesStep a b (la, lb) r in
  apart (fst st) (snd st) /\
  exists m,
    zones <$> la ++ sideOf a [r] ≡ₚ (zones <$> fst st) ++ m /\
    zones <$> lb ++ sideOf b [r] ≡ₚ (zones <$> snd st) ++ m.
Proof.
  intros Hab Hap. unfold fareRulesStep; cbn [fst snd].
  assert (Hpa : apart lb la) by (intros x y Hx Hy Hz; by apply (Hap y x)).
  destruct (decide (FareAttributeRule.Route r = a)) as [Ha|Ha].
  - assert (Hb : FareAttributeRule.Route r ≠ b) by congruence.
    rewrite (bool_decide_eq_true_2 _ Ha), (sideOf_cons_in _ _ _ Ha),
      (sideOf_cons_out _ _ _ Hb).
    pose proof (arrive_spec r la lb Hap) as Hs.
    destruct (cutFirst r lb) as [lb'|]; cbn [fst snd];
      rewrite (bool_decide_eq_false_2 _ Hb); cbn [fst snd sideOf List.filter].
    + destruct Hs as (Hap' & m1 & H1 & H2). split; [exact Hap'|].
      exists m1. split; [exact H1|]. by rewrite app_nil_r.
    + split; [exact Hs|]. exists []. by rewrite !app_nil_r.
  - rewrite (bool_decide_eq_false_2 _ Ha), (sideOf_cons_out _ _ _ Ha).
    destruct (decide (FareAttributeRule.Route r = b)) as [Hb|Hb].
    + rewrite (bool_decide_eq_true_2 _ Hb), (sideOf_cons_in _ _ _ Hb).
      pose proof (arrive_spec r lb la Hpa) as Hs. cbn [fst snd].
      destruct (cutFirst r la) as [la'|]; cbn [fst snd sideOf List.filter].
      * destruct Hs as (Hap2 & m1 & H1 & H2). split.
        { intros x y Hx Hy Hz. by apply (Hap2 y x). }
        exists m1. split; [|exact H1]. by rewrite app_nil_r.
      * split; [intros x y Hx Hy Hz; by apply (Hs y x)|].
        exists []. by rewrite !app_nil_r.
    + rewrite (bool_decide_eq_false_2 _ Hb), (sideOf_cons_out _ _ _ Hb).
      cbn [fst snd sideOf List.filter]. split; [exact Hap|].
      exists []. by rewrite !app_nil_r.
Qed.

Lemma fold_fareRules a b l :
  a ≠ b -> forall la lb, apart la lb ->
  let st := foldl (fareRulesStep a b) (la, lb) l in
  apart (fst st) (snd st) /\
  exists m,
    zones <$> la ++ sideOf a l ≡ₚ (zones <$> fst st) ++ m /\
    zones <$> lb ++ sideOf b l ≡ₚ (zones <$> snd st) ++ m.
Proof.
  intros Hab. induction l as [|r l IH]; intros la lb Hap; cbn [foldl].
  { cbn. split; [done|]. exists []. by rewrite !app_nil_r. }
  pose proof (fareRulesStep_spec a b la lb r Hab Hap) as Hstep.
  destruct (fareRulesStep a b (la, lb) r) as [la1 lb1]. cbn [fst snd] in Hstep.
  destruct Hstep as (Hap1 & m1 & Ha1 & Hb1).
  destruct (IH la1 lb1 Hap1) as (Hfin & m & Ha2 & Hb2).
  split; [exact Hfin|]. exists (m ++ m1).
  change (r :: l) with ([r] ++ l). rewrite !sideOf_app.
  rewrite !(assoc (++) la), !(assoc (++) lb).
  rewrite (fmap_app _ (la ++ _)), (fmap_app _ (lb ++ _)), Ha1, Hb1.
  rewrite !(assoc (++) _ m m1), <- Ha2, <- Hb2, !fmap_app.
  split.
  - rewrite <- !(assoc (++)). f_equiv. apply (comm (++)).
  - rewrite <- !(assoc (++)). f_equiv. apply (comm (++)).
Qed.

(** fareRulesEqual answers whether the rules of the two routes pair off. *)
Lemma fareRulesEqual_spec attr a b :
  a ≠ b -> (fareRulesEqual attr a b = true <-> pairable attr a b).
Proof.
  intros Hab. unfold fareRulesEqual, pairable, rulesOf.
  assert (H0 : apart [] []) by (intros x y Hx; by apply elem_of_nil in Hx).
  destruct (fold_fareRules a b (FareAttribute.Rules attr) Hab [] [] H0)
    as (Hap & m & Ha & Hb).
  destruct (foldl (fareRulesStep a b) ([], []) (FareAttribute.Rules attr))
    as [la lb]. cbn [fst snd app] in *.
  rewrite andb_true_iff, !bool_decide_eq_true. split.
  - intros [Hla Hlb]. apply nil_length_inv in Hla, Hlb. subst la lb.
    cbn in Ha, Hb. by rewrite Ha, Hb.
  - intros Hp. rewrite Ha, Hb in Hp. apply Permutation_app_inv_r in Hp.
    destruct la as [|x la].
    + split; [done|]. apply Permutation_length in Hp.
      rewrite !length_fmap in Hp. by rewrite <- Hp.
    + exfalso. assert (Hx : zones x ∈ zones <$> lb).
      { rewrite <- Hp. cbn. by left. }
      apply list_elem_of_fmap in Hx as (y & Hz & Hy).
      eapply Hap; [by left|exact Hy|exact Hz].
Qed.

End FareRulesFacts.

Module MergeCondition.
Import RouteDuplicateRemover Spec FareRulesFacts.





Lemma routeEquals_spec x y : routeEquals x y = true <-> fieldsIdentical x y.
Proof.
  unfold routeEquals, fieldsIdentical.
  rewrite !andb_true_iff, !bool_decide_eq_true.
  assert (Hu : urlEquals (Route.Url x) (Route.Url y) = true
               <-> urlIdentical (Route.Url x) (Route.Url y)).
  { unfold urlEquals, urlIdentical.
    rewrite orb_true_iff, !andb_true_iff, !bool_decide_eq_true.
    destruct (Route.Url x) as [ux|], (Route.Url y) as [uy|]; cbn;
      split; try tauto.
    - intros [[_ [= ->]]|[= ->]]; reflexivity.
    - intros ->. left. repeat split; congruence.
    - intros [[_ [=]]|[=]].
    - intros [[_ [=]]|[=]]. }
  rewrite Hu. tauto.
Qed.

Lemma fareAttrOk_spec attr a b :
  a ≠ b -> (fareAttrOk attr a b = true <-> (touched attr a b -> pairable attr a b)).
Proof.
  intros Hab. unfold fareAttrOk.
  destruct (existsb (touches a b) (FareAttribute.Rules attr)) eqn:E.
  - apply existsb_exists in E as (fr & Hin & Ht).
    rewrite fareRulesEqual_spec by done. split; [tauto|]. intros H. apply H.
    exists fr. split; [by apply list_elem_of_In|].
    unfold touches in Ht. by rewrite orb_true_iff, !bool_decide_eq_true in Ht.
  - split; [|done]. intros _ (fr & Hin & Ht). exfalso.
    assert (existsb (touches a b) (FareAttribute.Rules attr) = true); [|congruence].
    apply existsb_exists. exists fr. split; [by apply list_elem_of_In|].
    unfold touches. by rewrite orb_true_iff, !bool_decide_eq_true.
Qed.

Lemma checkFareEquality_spec order feed a b :
  fairOrder order -> a ≠ b ->
  (checkFareEquality order feed a b = true <-> fareCompatible feed a b).
Proof.
  intros Hfair Hab. unfold checkFareEquality, fareCompatible.
  rewrite forallb_forall. split.
  - intros H k fa Hk. apply fareAttrOk_spec; [done|].
    apply (H (k, fa)). apply list_elem_of_In. rewrite (Hfair _ _).
    by apply elem_of_map_to_list.
  - intros H [k fa] Hin. cbn [snd]. apply fareAttrOk_spec; [done|].
    apply (H k). apply list_elem_of_In in Hin. rewrite (Hfair _ _) in Hin.
    by apply elem_of_map_to_list in Hin.
Qed.

Lemma getEquivalentRoutes_filter order rt feed chunks :
  getEquivalentRoutes order rt feed chunks
  = List.filter (equivalentTo order feed rt) (concat chunks).
Proof. unfold getEquivalentRoutes. apply concat_filter_map. Qed.

Lemma equivalentTo_spec order feed rt r :
  fairOrder order ->
  (equivalentTo order feed rt r = true <->
   r ≠ rt /\ fieldsIdentical (route feed r) (route feed rt) /\ fareCompatible feed rt r).
Proof.
  intros Hfair. unfold equivalentTo.
  rewrite !andb_true_iff, bool_decide_eq_true, routeEquals_spec.
  destruct (decide (r = rt)) as [->|Hne]; [tauto|].
  rewrite checkFareEquality_spec by done. tauto.
Qed.

(** One round of Run, in the feed as it is when the round begins: the
    candidates of the scan are the routes of the chunks, other than the
    route [r] visited, that have the descriptive fields of [r] and whose
    rules pair off with those of [r], one-to-one by origin, destination
    and contains identifiers, in every fare attribute of that feed whose
    rules touch either; and the round merges [r] with such routes only.
    The chunks are those built when Run began, so a candidate need not be
    in the Routes collection any more, and the feed of the round is not
    the feed Run was given. *)
Theorem merge_only_when_fields_and_fares_match order :
  fairOrder order ->
  (forall feed rt chunks r,
     r ∈ getEquivalentRoutes order rt feed chunks <->
     r ∈ concat chunks /\ r ≠ rt /\
     fieldsIdentical (route feed r) (route feed rt) /\ fareCompatible feed rt r)
  /\
  (forall chunks trips st e st',
     runStep order chunks trips st e = Ok st' ->
     st' = st \/
     exists group,
       combineRoutes order (fst st) (group ++ [snd e]) trips = Ok (fst st') /\
       forall x, x ∈ group ->
         x ≠ snd e /\
         fieldsIdentical (route (fst st) x) (route (fst st) (snd e)) /\
         fareCompatible (fst st) (snd e) x).
Proof.
  intros Hfair.
  assert (Hcand : forall feed rt chunks r,
     r ∈ getEquivalentRoutes order rt feed chunks <->
     r ∈ concat chunks /\ r ≠ rt /\
     fieldsIdentical (route feed r) (route feed rt) /\ fareCompatible feed rt r).
  { intros feed rt chunks r. rewrite getEquivalentRoutes_filter.
    rewrite list_elem_of_In, filter_In, <- list_elem_of_In.
    by rewrite equivalentTo_spec. }
  split; [exact Hcand|].
  intros chunks trips [feed proced] [k r] st'. unfold runStep; cbn [fst snd].
  destruct (Routes feed !! k); [|intros [= <-]; by left].
  case_bool_decide; [intros [= <-]; by left|].
  case_bool_decide; [|intros [= <-]; by left].
  destruct (combineRoutes order feed _ trips) as [feed'|msg] eqn:C;
    cbn [rbind]; [|discriminate].
  intros [= <-]. right. exists (getEquivalentRoutes order r feed chunks).
  split; [exact C|]. intros x Hx. apply Hcand in Hx. tauto.
Qed.

(** A fair order, and a candidate found through the characterisation: R22
    for R1 in [feedR1R22]. *)
Lemma merge_only_when_fields_and_fares_match_witness :
  fairOrder Examples.inMapOrder
  /\ 2%nat ∈ getEquivalentRoutes Examples.inMapOrder 1 Examples.feedR1R22 [[1; 2]]%nat.
Proof.
  assert (Hfair : fairOrder Examples.inMapOrder) by (intros s m; reflexivity).
  split; [exact Hfair|].
  apply (proj1 (merge_only_when_fields_and_fares_match Examples.inMapOrder Hfair)).
  split; [cbn; set_solver|]. split; [lia|]. split.
  - vm_compute. tauto.
  - intros k fa Hk. exfalso. revert Hk.
    change (FareAttributes Examples.feedR1R22) with (∅ : gmap string ptr).
    by rewrite lookup_empty.
Defined.

End MergeCondition.

(** ** A stale candidate, and what the driver does with a panic *)

Module MergeDefects.
Import RouteDuplicateRemover Spec Examples.

(** C3. In [feedThree] every reference resolves.  Enumerated in reversed
    order, Run first merges BB into A and deletes BB; the chunks still hold
    BB, and with its rule gone BB now equals CCC, so CCC is merged into the
    deleted BB: trip T3 ends on route BB, which the Routes collection no
    longer holds. *)
Theorem stale_chunk_leaves_dangling_trip :
  referencesResolve feedThree
  /\ exists feed',
       Run reversedOrder 4 feedThree = Ok feed'
       /\ Routes feed' = {[ "A" := 1%nat ]}
       /\ Trips feed' !! "T3" = Some 3%nat
       /\ Trip.Route (trip feed' 3) = 2%nat
       /\ ~ routeListed feed' 2
       /\ ~ referencesResolve feed'.
Proof.
  split.
  { apply (bool_decide_unpack _). vm_compute. exact I. }
  destruct (Run reversedOrder 4 feedThree) as [feed'|msg] eqn:E;
    [|vm_compute in E; discriminate].
  exists feed'. split; [reflexivity|].
  vm_compute in E. injection E as <-.
  split; [apply (bool_decide_unpack _); vm_compute; exact I|].
  split; [vm_compute; reflexivity|].
  split; [vm_compute; reflexivity|].
  split; [apply (bool_decide_unpack _); vm_compute; exact I|].
  apply (bool_decide_unpack _); vm_compute; exact I.
Qed.

(** C1. In [feedThree] fare F has a rule on BB and none on CCC: the
    routes BB and CCC agree in all descriptive fields but are
    fare-incompatible, so they are not to be merged.  Run, enumerating
    BB, A, CCC, first merges BB into A and takes BB's rule out of F.  The
    chunks still hold BB; against the feed of the third round BB passes
    the fare comparison with CCC, the scan for CCC returns BB, and
    combineRoutes merges the two: trip T3 goes from CCC to BB and CCC is
    deleted. *)
Theorem stale_chunk_merges_fare_incompatible_routes :
  fieldsIdentical (route feedThree 3) (route feedThree 2)
  /\ FareAttributes feedThree !! "F" = Some 1%nat
  /\ touched (fare feedThree 1) 3 2
  /\ ~ pairable (fare feedThree 1) 3 2
  /\ ~ fareCompatible feedThree 3 2
  /\ reversedOrder RunRoutes (Routes feedThree)
     = [("BB", 2%nat); ("A", 1%nat); ("CCC", 3%nat)]
  /\ exists chunks st feed',
       buildChunks reversedOrder 4 feedThree = Ok chunks
       /\ forM (runStep reversedOrder chunks (tripsIndex reversedOrder feedThree))
               (feedThree, ∅) [("BB", 2%nat); ("A", 1%nat)] = Ok st
       /\ getEquivalentRoutes reversedOrder 3 (fst st) chunks = [2%nat]
       /\ runStep reversedOrder chunks (tripsIndex reversedOrder feedThree) st
                  ("CCC", 3%nat)
          = Ok (feed', snd st ∪ list_to_set [2%nat] ∪ {[3%nat]})
       /\ combineRoutes reversedOrder (fst st) [2; 3]%nat
                        (tripsIndex reversedOrder feedThree) = Ok feed'
       /\ Run reversedOrder 4 feedThree = Ok feed'
       /\ Trip.Route (trip feedThree 3) = 3%nat
       /\ Trip.Route (trip feed' 3) = 2%nat
       /\ Routes (fst st) !! "CCC" = Some 3%nat
       /\ Routes feed' !! "CCC" = None.
Proof.
  assert (Htouched : touched (fare feedThree 1) 3 2).
  { exists (rule "z1" 2%nat). split; [|by right].
    change (FareAttribute.Rules (fare feedThree 1))
      with [rule "z1" 1%nat; rule "z1" 2%nat].
    apply elem_of_cons. right. apply elem_of_cons. by left. }
  assert (Hunpaired : ~ pairable (fare feedThree 1) 3 2).
  { unfold pairable. intros Hperm. apply Permutation_length in Hperm.
    vm_compute in Hperm. discriminate Hperm. }
  split; [vm_compute; tauto|].
  split; [reflexivity|].
  split; [exact Htouched|].
  split; [exact Hunpaired|].
  split.
  { intros Hcompat. apply Hunpaired. by apply (Hcompat "F" 1%nat). }
  split; [vm_compute; reflexivity|].
  destruct (buildChunks reversedOrder 4 feedThree) as [chunks|msg] eqn:Ec;
    [|vm_compute in Ec; discriminate Ec].
  vm_compute in Ec. injection Ec as <-.
  destruct (forM (runStep reversedOrder [[2%nat]; [1%nat]; [3%nat]; []]
                    (tripsIndex reversedOrder feedThree))
              (feedThree, ∅) [("BB", 2%nat); ("A", 1%nat)]) as [st|msg] eqn:Es;
    [|vm_compute in Es; discriminate Es].
  vm_compute in Es. injection Es as <-.
  destruct (Run reversedOrder 4 feedThree) as [feed'|msg] eqn:Er;
    [|vm_compute in Er; discriminate Er].
  vm_compute in Er. injection Er as <-.
  eexists _, _, _. split; [reflexivity|]. split; [reflexivity|].
  split; [vm_compute; reflexivity|].
  split; [vm_compute; reflexivity|].
  split; [vm_compute; reflexivity|].
  split; [vm_compute; reflexivity|].
  split; [vm_compute; reflexivity|].
  split; [vm_compute; reflexivity|].
  split; vm_compute; reflexivity.
Qed.

End MergeDefects.

Module DriverFacts.
Import Main Examples.

(** C8. When the work below the [defer] panics, the deferred function
    prints the diagnostic to the error stream and main, having recovered,
    returns: the exit status is 0, not 1. *)
Theorem recovered_panic_exits_zero (w : World) (fl : Flags) ev v :
  help fl = false -> arg0 fl ≠ "" ->
  process w fl = (ev, Panics v) ->
  main w fl = (ev ++ [Stderr ("Error: " +:+ v)], 0).
Proof.
  intros Hh Ha Hp. unfold main. rewrite Hh.
  rewrite bool_decide_eq_false_2.
  - by rewrite Hp.
  - intros Hlen. apply Ha. by destruct (arg0 fl).
Qed.

(** [gtfstidy -R] on [feedTwoZones], on which the route merge panics. *)
Lemma recovered_panic_exits_zero_witness :
  main (worldOf feedTwoZones) flagsR
  = ([Stdout "Parsing GTFS feed in 'feed.zip' ...";
      CallParse (mkParseOptions false false false) "feed.zip";
      Stdout " done.";
      Stderr "Error: runtime error: index out of range"],
     0).
Proof.
  assert (Hp : process (worldOf feedTwoZones) flagsR
               = ([Stdout "Parsing GTFS feed in 'feed.zip' ...";
                   CallParse (mkParseOptions false false false) "feed.zip";
                   Stdout " done."],
                  Panics "runtime error: index out of range"))
    by (vm_compute; reflexivity).
  assert (Ha : arg0 flagsR ≠ "") by discriminate.
  exact (recovered_panic_exits_zero (worldOf feedTwoZones) flagsR _ _ eq_refl Ha Hp).
Defined.

(** C10. In validation mode the parser is given UseDefValueOnError = false
    and DropErroneous = false, whatever the other flags are. *)
Theorem validation_mode_parses_strictly (w : World) (fl : Flags) :
  onlyValidate fl = true ->
  UseDefValueOnError (parseOptions fl) = false
  /\ DropErroneous (parseOptions fl) = false
  /\ forall opts path,
       CallParse opts path ∈ fst (main w fl) ->
       UseDefValueOnError opts = false /\ DropErroneous opts = false.
Proof.
  intros Hv.
  assert (Hopts : UseDefValueOnError (parseOptions fl) = false
                  /\ DropErroneous (parseOptions fl) = false).
  { unfold parseOptions; cbn. rewrite Hv. cbn. by rewrite !andb_false_r. }
  split; [apply Hopts|]. split; [apply Hopts|].
  intros opts path. unfold main.
  destruct (help fl); cbn [fst].
  { intros Hin. apply list_elem_of_singleton in Hin. discriminate. }
  case_bool_decide; cbn [fst].
  { intros Hin. apply list_elem_of_singleton in Hin. discriminate. }
  unfold process. rewrite Hv. cbn [negb].
  destruct (Parse w (parseOptions fl) (arg0 fl)) as [[feed [e|]]|v]; cbn [fst];
    rewrite ?app_nil_r; intros Hin;
    repeat (apply elem_of_app in Hin as [Hin|Hin]);
    repeat (apply elem_of_cons in Hin as [Hin|Hin]); try discriminate;
    try (by apply elem_of_nil in Hin);
    injection Hin as -> _; exact Hopts.
Qed.

(** The hypothesis is met by [-v -e -D]; the parser still gets the strict
    options. *)
Lemma validation_mode_parses_strictly_witness :
  Main.parseOptions flagsValidateLenient = mkParseOptions false false true.
Proof.
  pose proof (validation_mode_parses_strictly (worldOf feedR1R22)
                flagsValidateLenient eq_refl) as (H1 & H2 & _).
  destruct (parseOptions flagsValidateLenient) as [a b c] eqn:E.
  cbn in H1, H2. subst a b. f_equal.
  vm_compute in E. by injection E as <-.
Defined.

End DriverFacts.

(** ** Identifier minimiser: numerals and one collection *)

Module NumeralFacts.
Import IDMinimizer Spec.

Lemma parseBits_app base acc s1 s2 :
  parseBits base acc (s1 +:+ s2) = parseBits base (parseBits base acc s1) s2.
Proof. revert acc. induction s1 as [|c s1 IH]; intros acc; simpl; auto. Qed.

Lemma digitVal_digit d : 0 <= d < 36 -> digitVal (digit d) = d.
Proof.
  intros Hd.
  assert (H36 : forallb (fun d => digitVal (digit d) =? d) (seqZ 0 36) = true)
    by (vm_compute; reflexivity).
  rewrite forallb_forall in H36. apply Z.eqb_eq, H36.
  apply list_elem_of_In, elem_of_seqZ. lia.
Qed.

(** Enough fuel: the digits read back give the number. *)
Lemma parse_format base fuel u :
  2 <= base <= 36 -> 0 <= u < base ^ Z.of_nat fuel ->
  parseBits base 0 (formatBits fuel u base) = u.
Proof.
  intros Hb. revert u. induction fuel as [|fuel IH]; intros u Hu.
  - simpl in *. lia.
  - cbn [formatBits]. destruct (u <? base) eqn:E.
    + apply Z.ltb_lt in E. cbn [parseBits]. rewrite digitVal_digit by lia. lia.
    + apply Z.ltb_ge in E. rewrite parseBits_app, IH.
      * cbn [parseBits]. rewrite digitVal_digit.
        -- pose proof (Z.div_mod u base ltac:(lia)). lia.
        -- pose proof (Z.mod_pos_bound u base ltac:(lia)). lia.
      * split; [apply Z.div_pos; lia|].
        apply Z.div_lt_upper_bound; [lia|].
        rewrite Nat2Z.inj_succ, Z.pow_succ_r in Hu by lia. lia.
Qed.

Lemma numeral_inj base i j :
  2 <= base <= 36 -> 0 <= i < 2 ^ 63 -> 0 <= j < 2 ^ 63 ->
  numeral base i = numeral base j -> i = j.
Proof.
  intros Hb Hi Hj Heq.
  assert (Hpow : 2 ^ 63 < base ^ 64).
  { apply Z.lt_le_trans with (2 ^ 64); [lia|].
    apply Z.pow_le_mono_l. lia. }
  rewrite <- (parse_format base 64 i), <- (parse_format base 64 j);
    [|lia|simpl Z.of_nat; lia|lia|simpl Z.of_nat; lia].
  unfold numeral in Heq. by rewrite Heq.
Qed.

Lemma FormatInt_numeral base i :
  2 <= base <= 36 -> 0 <= i -> FormatInt i base = Ok (numeral base i).
Proof.
  intros Hb Hi. unfold FormatInt, numeral.
  rewrite bool_decide_eq_false_2 by lia.
  destruct (i <? 0) eqn:E; [apply Z.ltb_lt in E; lia|reflexivity].
Qed.

Lemma wrap64_small z : - 2 ^ 63 <= z < 2 ^ 63 -> wrap64 z = z.
Proof.
  intros Hz. unfold wrap64. rewrite Z.mod_small; lia.
Qed.

Lemma numerals_NoDup base n :
  2 <= base <= 36 -> Z.of_nat n < 2 ^ 63 -> NoDup (numerals base n).
Proof.
  intros Hb Hn. unfold numerals. apply NoDup_fmap_2_strong; [|apply NoDup_seqZ].
  intros i j Hi Hj. apply elem_of_seqZ in Hi, Hj. apply numeral_inj; lia.
Qed.

End NumeralFacts.

Module MinimizeFacts.
Import IDMinimizer Spec NumeralFacts.

Section Collection.
Context {A : Type} `{Inhabited A}.
Variable getId : A -> string.
Variable setId : string -> A -> A.
Hypothesis getId_setId : forall s x, getId (setId s x) = s.
Hypothesis setId_setId : forall s s' x, setId s (setId s' x) = setId s x.
Hypothesis setId_getId : forall x, setId (getId x) x = x.
Variable base : Z.
Hypothesis Hbase : 2 <= base <= 36.

(** The loop of a minimize function from counter [c] on: it does not
    panic, the i-th entity is filed under the numeral of [c + i] and carries
    it, and nothing else is touched. *)
Lemma renumber_loop entries : forall c nm (mem : gmap ptr A),
  1 <= c -> c + Z.of_nat (length entries) <= 2 ^ 63 ->
  exists c' nm' mem',
    forM (renumber setId base) (c, nm, mem) entries = Ok (c', nm', mem')
    /\ (forall k, (forall i, (i < length entries)%nat -> k ≠ numeral base (c + Z.of_nat i)) ->
                  nm' !! k = nm !! k)
    /\ (forall i p, entries.*2 !! i = Some p ->
                    nm' !! numeral base (c + Z.of_nat i) = Some p)
    /\ (forall p, p ∉ entries.*2 -> mem' !! p = mem !! p)
    /\ (forall p, p ∈ entries.*2 -> exists id, mem' !! p = Some (setId id (mem !!! p)))
    /\ (NoDup entries.*2 -> forall i p, entries.*2 !! i = Some p ->
          mem' !! p = Some (setId (numeral base (c + Z.of_nat i)) (mem !!! p))).
Proof.
  induction entries as [|[k0 p0] rest IH]; intros c nm mem Hc Hlen.
  { exists c, nm, mem. cbn. repeat split; try done.
    intros p Hp. by apply elem_of_nil in Hp. }
  cbn [forM]. unfold renumber at 1. cbn [fst snd].
  rewrite FormatInt_numeral by lia. cbn [rbind].
  cbn [length] in Hlen.
  set (nm1 := <[numeral base c := p0]> nm).
  set (mem1 := <[p0 := setId (numeral base c) (mem !!! p0)]> mem).
  destruct (decide (rest = [])) as [->|Hrest].
  { eexists _, nm1, mem1. split; [reflexivity|]. cbn.
    split; [|split; [|split; [|split]]].
    - intros k Hk. unfold nm1. rewrite lookup_insert_ne; [done|].
      intros Heq. apply (Hk 0%nat); [lia|]. by rewrite Z.add_0_r.
    - intros [|i] p Hi; [|done]. injection Hi as <-.
      rewrite Z.add_0_r. unfold nm1. by rewrite lookup_insert_eq.
    - intros p Hp. unfold mem1. rewrite lookup_insert_ne; [done|].
      intros ->. apply Hp. by left.
    - intros p Hp. apply list_elem_of_singleton in Hp as ->.
      eexists. unfold mem1. by rewrite lookup_insert_eq.
    - intros _ [|i] p Hi; [|done]. injection Hi as <-.
      rewrite Z.add_0_r. unfold mem1. by rewrite lookup_insert_eq. }
  assert (Hpos : (1 <= length rest)%nat) by (destruct rest; [done|cbn; lia]).
  rewrite wrap64_small by lia.
  destruct (IH (c + 1) nm1 mem1) as (c' & nm' & mem' & Hrun & Ha & Hb & Hc' & Hd & He);
    [lia|lia|].
  exists c', nm', mem'. split; [exact Hrun|].
  assert (Hinj : forall i, (i < length rest)%nat ->
                   numeral base c ≠ numeral base (c + 1 + Z.of_nat i)).
  { intros i Hi Heq. apply numeral_inj in Heq; lia. }
  split; [|split; [|split; [|split]]].
  - intros k Hk. rewrite Ha.
    + unfold nm1. rewrite lookup_insert_ne; [done|].
      intros Heq. apply (Hk 0%nat); [cbn; lia|]. by rewrite Z.add_0_r.
    + intros i Hi. specialize (Hk (S i)). rewrite Nat2Z.inj_succ in Hk.
      replace (c + 1 + Z.of_nat i) with (c + Z.succ (Z.of_nat i)) by lia.
      apply Hk. cbn. lia.
  - intros [|i] p Hi.
    + injection Hi as <-. rewrite Z.add_0_r. rewrite Ha by exact Hinj.
      unfold nm1. by rewrite lookup_insert_eq.
    + rewrite Nat2Z.inj_succ.
      replace (c + Z.succ (Z.of_nat i)) with (c + 1 + Z.of_nat i) by lia.
      by apply Hb.
  - intros p Hp. rewrite Hc'.
    + unfold mem1. rewrite lookup_insert_ne; [done|].
      intros ->. apply Hp. by left.
    + intros Hin. apply Hp. by right.
  - intros p Hp. destruct (decide (p ∈ rest.*2)) as [Hin|Hnin].
    + destruct (Hd p Hin) as (id & Hid). exists id. rewrite Hid. f_equal.
      unfold mem1. destruct (decide (p = p0)) as [->|Hne].
      * by rewrite lookup_total_insert_eq, setId_setId.
      * by rewrite lookup_total_insert_ne.
    + apply elem_of_cons in Hp as [->|Hp]; [|done].
      eexists. rewrite Hc' by done. unfold mem1. by rewrite lookup_insert_eq.
  - intros Hnd [|i] p Hi.
    + injection Hi as <-. rewrite Z.add_0_r.
      apply NoDup_cons in Hnd as [Hnin _]. rewrite Hc' by done.
      unfold mem1. by rewrite lookup_insert_eq.
    + apply NoDup_cons in Hnd as [Hnin Hnd].
      rewrite Nat2Z.inj_succ.
      replace (c + Z.succ (Z.of_nat i)) with (c + 1 + Z.of_nat i) by lia.
      rewrite (He Hnd i p Hi). f_equal. f_equal.
      unfold mem1. rewrite lookup_total_insert_ne; [done|].
      intros ->. apply Hnin. eapply list_elem_of_lookup_2. exact Hi.
Qed.

Lemma numerals_lookup n i :
  (i < n)%nat -> numerals base n !! i = Some (numeral base (1 + Z.of_nat i)).
Proof.
  intros Hi. unfold numerals. rewrite list_lookup_fmap, lookup_seqZ_lt by lia.
  reflexivity.
Qed.

Lemma numerals_length n : length (numerals base n) = n.
Proof. unfold numerals. rewrite length_fmap, length_seqZ. lia. Qed.

(** One minimize function on the entries its [range] produces. *)
Lemma minimizeIds_spec entries (mem : gmap ptr A) :
  Z.of_nat (length entries) < 2 ^ 63 ->
  exists nm' mem',
    minimizeIds setId base entries mem = Ok (nm', mem')
    /\ nm' = list_to_map (zip (numerals base (length entries)) entries.*2)
    /\ (forall p, p ∉ entries.*2 -> mem' !! p = mem !! p)
    /\ (forall p, p ∈ entries.*2 -> exists id, mem' !! p = Some (setId id (mem !!! p)))
    /\ (NoDup entries.*2 -> forall i p, entries.*2 !! i = Some p ->
          mem' !! p = Some (setId (numeral base (1 + Z.of_nat i)) (mem !!! p))).
Proof.
  intros Hlen. unfold minimizeIds.
  destruct (renumber_loop entries 1 ∅ mem) as (c' & nm' & mem' & Hrun & Ha & Hb & Hc & Hd & He);
    [lia|lia|].
  rewrite Hrun. cbn [rbind fst snd]. exists nm', mem'.
  split; [reflexivity|]. split; [|done].
  assert (Hnd : NoDup (numerals base (length entries)))
    by (apply numerals_NoDup; [done|lia]).
  assert (Hlen2 : length (numerals base (length entries)) = length entries.*2)
    by (by rewrite numerals_length, length_fmap).
  apply map_eq. intros k.
  destruct (list_to_map (zip (numerals base (length entries)) entries.*2) !! k)
    as [p|] eqn:E.
  - apply elem_of_list_to_map in E; [|by rewrite fst_zip by lia].
    apply list_elem_of_lookup in E as (i & Hi).
    apply lookup_zip_with_Some in Hi as (k' & p' & [= <- <-] & Hk & Hp).
    assert (Hin : (i < length entries)%nat).
    { apply lookup_lt_Some in Hp. by rewrite length_fmap in Hp. }
    rewrite numerals_lookup in Hk by done. injection Hk as <-.
    by apply Hb.
  - rewrite Ha, lookup_empty; [done|].
    intros i Hi ->. apply not_elem_of_list_to_map in E. apply E.
    rewrite fst_zip by lia. eapply list_elem_of_lookup_2.
    by apply numerals_lookup.
Qed.

(** One minimize function on a collection enumerated in any order. *)
Lemma minimizeIds_minimized entries (old : gmap string ptr) (mem : gmap ptr A) :
  entries ≡ₚ map_to_list old -> Z.of_nat (size old) < 2 ^ 63 ->
  exists nm' mem',
    minimizeIds setId base entries mem = Ok (nm', mem')
    /\ minimized getId setId base old nm' mem mem'.
Proof.
  intros Hperm Hsize.
  assert (Hlen : length entries = size old).
  { rewrite Hperm. by rewrite length_map_to_list. }
  destruct (minimizeIds_spec entries mem) as (nm' & mem' & Hrun & Hnm & Hc & Hd & He);
    [lia|].
  exists nm', mem'. split; [exact Hrun|].
  assert (Hnd : NoDup (numerals base (length entries)))
    by (apply numerals_NoDup; [done|lia]).
  assert (Hlen2 : length (numerals base (length entries)) = length entries.*2)
    by (by rewrite numerals_length, length_fmap).
  assert (Hlist : map_to_list nm' ≡ₚ zip (numerals base (length entries)) entries.*2).
  { rewrite Hnm. apply map_to_list_to_map. by rewrite fst_zip by lia. }
  split; [|split; [|split]].
  - unfold sameEntities. rewrite Hlist, snd_zip by lia. by rewrite Hperm.
  - rewrite <- Hlen. apply set_eq. intros k.
    rewrite elem_of_dom, elem_of_list_to_set.
    rewrite <- (fst_zip (numerals base (length entries)) entries.*2) by lia.
    rewrite <- Hlist. rewrite list_elem_of_fmap. split.
    + intros [p Hp]. exists (k, p). split; [done|]. by apply elem_of_map_to_list.
    + intros ([k' p] & -> & Hin). exists p. by apply elem_of_map_to_list.
  - intros p. destruct (decide (p ∈ entries.*2)) as [Hin|Hnin].
    + destruct (Hd p Hin) as (id & Hid).
      rewrite (lookup_total_correct _ _ _ Hid). by rewrite getId_setId.
    + assert (Heq : mem' !!! p = mem !!! p).
      { unfold lookup_total, map_lookup_total. by rewrite (Hc p Hnin). }
      by rewrite Heq, setId_getId.
  - intros Hdist. split.
    + exists entries.*2. rewrite length_fmap. split; [by rewrite Hperm|done].
    + assert (Hnd2 : NoDup entries.*2) by (by rewrite Hperm).
      intros k p Hk. apply elem_of_map_to_list in Hk. rewrite Hlist in Hk.
      apply list_elem_of_lookup in Hk as (i & Hi).
      apply lookup_zip_with_Some in Hi as (k' & p' & [= <- <-] & Hk & Hp).
      assert (Hin : (i < length entries)%nat).
      { apply lookup_lt_Some in Hp. by rewrite length_fmap in Hp. }
      rewrite numerals_lookup in Hk by done. injection Hk as <-.
      rewrite (lookup_total_correct _ _ _ (He Hnd2 i p Hp)). apply getId_setId.
Qed.

End Collection.
End MinimizeFacts.

Module MinimizerFacts.
Import IDMinimizer Spec NumeralFacts MinimizeFacts.

(** Run renumbers the six collections, each as [minimized] says, and does
    not touch the fare attributes: it has no function for them. *)
Lemma Run_minimized order mz feed :
  fairOrder order -> 2 <= Base mz <= 36 -> countable64 feed ->
  exists f',
    Run order mz feed = Ok f'
    /\ minimized Trip.Id Trip.setId (Base mz) (Trips feed) (Trips f') (tripAt feed) (tripAt f')
    /\ minimized Stop.Id Stop.setId (Base mz) (Stops feed) (Stops f') (stopAt feed) (stopAt f')
    /\ minimized Route.Id Route.setId (Base mz) (Routes feed) (Routes f') (routeAt feed) (routeAt f')
    /\ minimized Shape.Id Shape.setId (Base mz) (Shapes feed) (Shapes f') (shapeAt feed) (shapeAt f')
    /\ minimized Agency.Id Agency.setId (Base mz) (Agencies feed) (Agencies f')
         (agencyAt feed) (agencyAt f')
    /\ minimized Service.Id Service.setId (Base mz) (Services feed) (Services f')
         (serviceAt feed) (serviceAt f')
    /\ FareAttributes f' = FareAttributes feed
    /\ fareAt f' = fareAt feed.
Proof.
  intros Hfair Hb (H1 & H2 & H3 & H4 & H5 & H6).
  destruct (minimizeIds_minimized Trip.Id Trip.setId
              ltac:(done) ltac:(done) ltac:(by intros []) (Base mz) Hb
              (order MinTrips (Trips feed)) (Trips feed) (tripAt feed)
              (Hfair _ _) H1) as (m1 & h1 & E1 & M1).
  destruct (minimizeIds_minimized Stop.Id Stop.setId
              ltac:(done) ltac:(done) ltac:(by intros []) (Base mz) Hb
              (order MinStops (Stops feed)) (Stops feed) (stopAt feed)
              (Hfair _ _) H2) as (m2 & h2 & E2 & M2).
  destruct (minimizeIds_minimized Route.Id Route.setId
              ltac:(done) ltac:(done) ltac:(by intros []) (Base mz) Hb
              (order MinRoutes (Routes feed)) (Routes feed) (routeAt feed)
              (Hfair _ _) H3) as (m3 & h3 & E3 & M3).
  destruct (minimizeIds_minimized Shape.Id Shape.setId
              ltac:(done) ltac:(done) ltac:(by intros []) (Base mz) Hb
              (order MinShapes (Shapes feed)) (Shapes feed) (shapeAt feed)
              (Hfair _ _) H4) as (m4 & h4 & E4 & M4).
  destruct (minimizeIds_minimized Agency.Id Agency.setId
              ltac:(done) ltac:(done) ltac:(by intros []) (Base mz) Hb
              (order MinAgencies (Agencies feed)) (Agencies feed) (agencyAt feed)
              (Hfair _ _) H5) as (m5 & h5 & E5 & M5).
  destruct (minimizeIds_minimized Service.Id Service.setId
              ltac:(done) ltac:(done) ltac:(by intros []) (Base mz) Hb
              (order MinServices (Services feed)) (Services feed) (serviceAt feed)
              (Hfair _ _) H6) as (m6 & h6 & E6 & M6).
  unfold Run.
  unfold minimizeTripIds. rewrite E1. feed_reduce.
  unfold minimizeStopIds. feed_reduce. rewrite E2. feed_reduce.
  unfold minimizeRouteIds. feed_reduce. rewrite E3. feed_reduce.
  unfold minimizeShapeIds. feed_reduce. rewrite E4. feed_reduce.
  unfold minimizeAgencyIds. feed_reduce. rewrite E5. feed_reduce.
  unfold minimizeServiceIds. feed_reduce. rewrite E6. feed_reduce.
  eexists. split; [reflexivity|]. feed_reduce. done.
Qed.

End MinimizerFacts.

Module MinimizerClaims.
Import IDMinimizer Spec Examples NumeralFacts MinimizeFacts MinimizerFacts.

(** C6, as stated, fails for the fare attributes: Run leaves "adult" filed
    under "adult". *)
Lemma fare_attribute_ids_are_kept :
  exists f',
    Run inMapOrder (mk 10) feedIds = Ok f'
    /\ FareAttributes f' = {[ "adult" := 1%nat ]}
    /\ FareAttribute.Id (fare f' 1) = "adult"
    /\ ~ renumbered FareAttribute.Id 10 (FareAttributes feedIds) (FareAttributes f')
         (fareAt f').
Proof.
  destruct (Run inMapOrder (mk 10) feedIds) as [f'|msg] eqn:E;
    [|vm_compute in E; discriminate].
  exists f'. split; [reflexivity|]. vm_compute in E. injection E as <-.
  split; [vm_compute; reflexivity|]. split; [vm_compute; reflexivity|].
  intros [(handles & Hp & Hz) _].
  vm_compute in Hp. apply Permutation_singleton_r in Hp. subst handles.
  vm_compute in Hz. apply Permutation_singleton_l in Hz.
  discriminate Hz.
Qed.

(** C6, amended. With Base 10 or 36, Run renumbers the six collections
    it has a function for (trips, stops, routes, shapes, agencies,
    services): the entities of each, in some order, are filed under the
    distinct numerals of 1, ..., n in that base, and each carries the
    identifier it is filed under.  The fare attributes keep their
    identifiers. *)
Theorem six_collections_renumbered order mz feed :
  fairOrder order -> Base mz = 10 \/ Base mz = 36 ->
  countable64 feed -> distinctEntities feed ->
  exists f',
    Run order mz feed = Ok f'
    /\ renumbered Trip.Id (Base mz) (Trips feed) (Trips f') (tripAt f')
    /\ renumbered Stop.Id (Base mz) (Stops feed) (Stops f') (stopAt f')
    /\ renumbered Route.Id (Base mz) (Routes feed) (Routes f') (routeAt f')
    /\ renumbered Shape.Id (Base mz) (Shapes feed) (Shapes f') (shapeAt f')
    /\ renumbered Agency.Id (Base mz) (Agencies feed) (Agencies f') (agencyAt f')
    /\ renumbered Service.Id (Base mz) (Services feed) (Services f') (serviceAt f')
    /\ (forall n : nat, Z.of_nat n < 2 ^ 63 -> NoDup (numerals (Base mz) n))
    /\ FareAttributes f' = FareAttributes feed
    /\ fareAt f' = fareAt feed.
Proof.
  intros Hfair Hb Hc (D1 & D2 & D3 & D4 & D5 & D6).
  assert (Hb' : 2 <= Base mz <= 36) by lia.
  destruct (Run_minimized order mz feed Hfair Hb' Hc)
    as (f' & Hrun & M1 & M2 & M3 & M4 & M5 & M6 & HF & Hf).
  exists f'. split; [exact Hrun|].
  destruct M1 as (_ & _ & _ & R1), M2 as (_ & _ & _ & R2), M3 as (_ & _ & _ & R3),
    M4 as (_ & _ & _ & R4), M5 as (_ & _ & _ & R5), M6 as (_ & _ & _ & R6).
  split; [by apply R1|]. split; [by apply R2|]. split; [by apply R3|].
  split; [by apply R4|]. split; [by apply R5|]. split; [by apply R6|].
  split; [|done]. intros n Hn. by apply numerals_NoDup.
Qed.

Lemma six_collections_renumbered_witness :
  exists f',
    Run inMapOrder (mk 10) feedIds = Ok f'
    /\ renumbered Trip.Id 10 (Trips feedIds) (Trips f') (tripAt f').
Proof.
  assert (Hfair : fairOrder inMapOrder) by (intros s m; reflexivity).
  assert (Hc : countable64 feedIds) by (apply (bool_decide_unpack _); vm_compute; exact I).
  assert (Hd : distinctEntities feedIds) by (apply (bool_decide_unpack _); vm_compute; exact I).
  destruct (six_collections_renumbered inMapOrder (mk 10) feedIds Hfair
              (or_introl eq_refl) Hc Hd) as (f' & Hrun & R1 & _).
  exists f'. split; [exact Hrun|exact R1].
Defined.

(** C7. Run changes the Id field of the structs of the six collections and
    nothing else in any struct, so every reference between entities is as
    before; each collection holds the same entity instances as before, and
    the fare attributes and their rules are untouched. *)
Theorem only_identifiers_change order mz feed :
  fairOrder order -> 2 <= Base mz <= 36 -> countable64 feed ->
  exists f',
    Run order mz feed = Ok f'
    /\ (onlyIdChanged Trip.Id Trip.setId (tripAt feed) (tripAt f')
        /\ onlyIdChanged Stop.Id Stop.setId (stopAt feed) (stopAt f')
        /\ onlyIdChanged Route.Id Route.setId (routeAt feed) (routeAt f')
        /\ onlyIdChanged Shape.Id Shape.setId (shapeAt feed) (shapeAt f')
        /\ onlyIdChanged Agency.Id Agency.setId (agencyAt feed) (agencyAt f')
        /\ onlyIdChanged Service.Id Service.setId (serviceAt feed) (serviceAt f')
        /\ fareAt f' = fareAt feed)
    /\ (forall t, Trip.Route (trip f' t) = Trip.Route (trip feed t)
                  /\ Trip.Service (trip f' t) = Trip.Service (trip feed t)
                  /\ Trip.Shape (trip f' t) = Trip.Shape (trip feed t)
                  /\ Trip.StopTimes (trip f' t) = Trip.StopTimes (trip feed t))
    /\ (forall r, Route.Agency (route f' r) = Route.Agency (route feed r))
    /\ (forall fa, FareAttribute.Rules (fare f' fa) = FareAttribute.Rules (fare feed fa))
    /\ (sameEntities (Trips feed) (Trips f')
        /\ sameEntities (Stops feed) (Stops f')
        /\ sameEntities (Routes feed) (Routes f')
        /\ sameEntities (Shapes feed) (Shapes f')
        /\ sameEntities (Agencies feed) (Agencies f')
        /\ sameEntities (Services feed) (Services f')
        /\ FareAttributes f' = FareAttributes feed).
Proof.
  intros Hfair Hb Hc.
  destruct (Run_minimized order mz feed Hfair Hb Hc)
    as (f' & Hrun & M1 & M2 & M3 & M4 & M5 & M6 & HF & Hf).
  exists f'. split; [exact Hrun|].
  destruct M1 as (S1 & _ & I1 & _), M2 as (S2 & _ & I2 & _), M3 as (S3 & _ & I3 & _),
    M4 as (S4 & _ & I4 & _), M5 as (S5 & _ & I5 & _), M6 as (S6 & _ & I6 & _).
  split; [done|]. split; [|split; [|split; [|done]]].
  - intros t. unfold trip. rewrite (I1 t). done.
  - intros r. unfold route. rewrite (I3 r). done.
  - intros fa. unfold fare. by rewrite Hf.
Qed.

Lemma only_identifiers_change_witness :
  exists f',
    Run inMapOrder (mk 36) feedIds = Ok f'
    /\ Trip.Route (trip f' 3) = Trip.Route (trip feedIds 3)
    /\ sameEntities (Trips feedIds) (Trips f').
Proof.
  assert (Hfair : fairOrder inMapOrder) by (intros s m; reflexivity).
  assert (Hc : countable64 feedIds) by (apply (bool_decide_unpack _); vm_compute; exact I).
  destruct (only_identifiers_change inMapOrder (mk 36) feedIds Hfair
              ltac:(cbn; lia) Hc) as (f' & Hrun & _ & Ht & _ & _ & Hs & _).
  exists f'. split; [exact Hrun|]. split; [apply Ht|exact Hs].
Defined.

End MinimizerClaims.

Module MinimizerTwice.
Import IDMinimizer Spec Examples NumeralFacts MinimizeFacts MinimizerFacts.

Lemma sameEntities_size old new : sameEntities old new -> size new = size old.
Proof.
  unfold sameEntities. intros Hp. apply Permutation_length in Hp.
  by rewrite !length_fmap, !length_map_to_list in Hp.
Qed.

(** A second run hands out the same identifiers to the same entities,
    collection by collection; which entity gets which is left open. *)
Lemma second_run_same_identifier_sets order1 order2 mz feed f1 :
  fairOrder order1 -> fairOrder order2 -> 2 <= Base mz <= 36 ->
  countable64 feed ->
  Run order1 mz feed = Ok f1 ->
  exists f2,
    Run order2 mz f1 = Ok f2
    /\ (dom (Trips f2) = dom (Trips f1) /\ dom (Stops f2) = dom (Stops f1)
        /\ dom (Routes f2) = dom (Routes f1) /\ dom (Shapes f2) = dom (Shapes f1)
        /\ dom (Agencies f2) = dom (Agencies f1)
        /\ dom (Services f2) = dom (Services f1)
        /\ FareAttributes f2 = FareAttributes f1)
    /\ (sameEntities (Trips f1) (Trips f2) /\ sameEntities (Stops f1) (Stops f2)
        /\ sameEntities (Routes f1) (Routes f2) /\ sameEntities (Shapes f1) (Shapes f2)
        /\ sameEntities (Agencies f1) (Agencies f2)
        /\ sameEntities (Services f1) (Services f2)).
Proof.
  intros Hf1 Hf2 Hb Hc Hrun1.
  destruct (Run_minimized order1 mz feed Hf1 Hb Hc)
    as (f1' & Hrun & M1 & M2 & M3 & M4 & M5 & M6 & HF & Hf).
  rewrite Hrun1 in Hrun. injection Hrun as <-.
  destruct M1 as (S1 & D1 & _), M2 as (S2 & D2 & _), M3 as (S3 & D3 & _),
    M4 as (S4 & D4 & _), M5 as (S5 & D5 & _), M6 as (S6 & D6 & _).
  apply sameEntities_size in S1, S2, S3, S4, S5, S6.
  assert (Hc1 : countable64 f1).
  { unfold countable64 in *. rewrite S1, S2, S3, S4, S5, S6. exact Hc. }
  destruct (Run_minimized order2 mz f1 Hf2 Hb Hc1)
    as (f2 & Hrun2 & N1 & N2 & N3 & N4 & N5 & N6 & HF2 & _).
  exists f2. split; [exact Hrun2|].
  destruct N1 as (T1 & E1 & _), N2 as (T2 & E2 & _), N3 as (T3 & E3 & _),
    N4 as (T4 & E4 & _), N5 as (T5 & E5 & _), N6 as (T6 & E6 & _).
  split; [|done].
  rewrite E1, E2, E3, E4, E5, E6, D1, D2, D3, D4, D5, D6.
  by rewrite S1, S2, S3, S4, S5, S6.
Qed.

(** C4, as stated, fails for the minimiser: the second run of [feedIds]
    files trip 1 under "3" where the first run filed it under "2". *)
Lemma second_minimizer_run_renames :
  ~ (forall order1 order2 mz feed f1 f2,
       fairOrder order1 -> fairOrder order2 ->
       Run order1 mz feed = Ok f1 -> Run order2 mz f1 = Ok f2 ->
       forall t, Trip.Id (trip f2 t) = Trip.Id (trip f1 t)).
Proof.
  intros H.
  assert (Hfair : fairOrder inMapOrder) by (intros s m; reflexivity).
  destruct (Run inMapOrder (mk 10) feedIds) as [f1|msg] eqn:E1;
    [|vm_compute in E1; discriminate].
  destruct (Run inMapOrder (mk 10) f1) as [f2|msg] eqn:E2.
  - specialize (H inMapOrder inMapOrder (mk 10) feedIds f1 f2 Hfair Hfair E1 E2 1%nat).
    vm_compute in E1. injection E1 as <-.
    vm_compute in E2. injection E2 as <-.
    vm_compute in H. discriminate H.
  - vm_compute in E1. injection E1 as <-. vm_compute in E2. discriminate E2.
Qed.

End MinimizerTwice.

(** ** Loops and enumeration orders *)

Module LoopFacts.

Lemma forM_app {A S} (body : S -> A -> result S) s l1 l2 :
  forM body s (l1 ++ l2) = rbind (forM body s l1) (fun s' => forM body s' l2).
Proof.
  revert s. induction l1 as [|x l1 IH]; intros s; cbn; [done|].
  destruct (body s x); cbn; [apply IH|done].
Qed.

(** An invariant kept by every round that returns holds when the loop
    returns. *)
Lemma forM_invariant {A S} (body : S -> A -> result S) (I : S -> Prop) l :
  forall s s',
    I s -> (forall s x s', x ∈ l -> I s -> body s x = Ok s' -> I s') ->
    forM body s l = Ok s' -> I s'.
Proof.
  induction l as [|x l IH]; intros s s' Hs Hstep; cbn.
  - by intros [= <-].
  - destruct (body s x) as [s1|] eqn:E; cbn; [|discriminate].
    apply IH.
    + eapply Hstep; [by left|exact Hs|exact E].
    + intros s2 y s3 Hy. apply Hstep. by right.
Qed.

(** An invariant that speaks of the rounds made so far. *)
Lemma forM_prefix_invariant {A S} (body : S -> A -> result S)
    (I : list A -> S -> Prop) l s0 s' :
  I [] s0 ->
  (forall visited x rest s s1,
     l = visited ++ x :: rest -> I visited s -> body s x = Ok s1 ->
     I (visited ++ [x]) s1) ->
  forM body s0 l = Ok s' -> I l s'.
Proof.
  intros H0 Hstep.
  assert (Hgen : forall rest visited s,
            l = visited ++ rest -> I visited s -> forM body s rest = Ok s' -> I l s').
  { induction rest as [|x rest IH]; intros visited s Hl Hs; cbn.
    - intros [= <-]. rewrite app_nil_r in Hl. by subst.
    - destruct (body s x) as [s1|] eqn:E; cbn; [|discriminate].
      apply (IH (visited ++ [x])); [by rewrite <- (assoc (++))|].
      by eapply Hstep. }
  by apply (Hgen l []).
Qed.

(** A loop whose rounds change nothing changes nothing. *)
Lemma forM_skip {A S} (body : S -> A -> result S) s l :
  (forall x, x ∈ l -> body s x = Ok s) -> forM body s l = Ok s.
Proof.
  induction l as [|x l IH]; intros H; cbn; [done|].
  rewrite H by (by left). cbn. apply IH. intros y Hy. apply H. by right.
Qed.

(** A loop that cannot panic is a fold. *)
Lemma forM_pure {A S} (f : S -> A -> S) s l :
  forM (fun s x => Ok (f s x)) s l = Ok (foldl f s l).
Proof. revert s. induction l as [|x l IH]; intros s; cbn; [done|apply IH]. Qed.

Lemma fair_elem order s (m : gmap string ptr) k p :
  fairOrder order -> ((k, p) ∈ order s m <-> m !! k = Some p).
Proof. intros Hf. rewrite (Hf s m). apply elem_of_map_to_list. Qed.

Lemma fair_empty order s : fairOrder order -> order s ∅ = [].
Proof.
  intros Hf. apply Permutation_nil_r. rewrite (Hf s ∅). by rewrite map_to_list_empty.
Qed.

Lemma fair_singleton order s k p :
  fairOrder order -> order s {[ k := p ]} = [(k, p)].
Proof.
  intros Hf. apply Permutation_singleton_r. rewrite (Hf s _).
  by rewrite map_to_list_singleton.
Qed.

Lemma fair_length order s (m : gmap string ptr) :
  fairOrder order -> length (order s m) = size m.
Proof. intros Hf. rewrite (Hf s m). apply length_map_to_list. Qed.

Lemma fair_NoDup_keys order s (m : gmap string ptr) :
  fairOrder order -> NoDup (order s m).*1.
Proof. intros Hf. rewrite (Hf s m). apply NoDup_fst_map_to_list. Qed.

End LoopFacts.

(** ** Run: chunking and the trip index *)

Module ChunkFacts.
Import RouteDuplicateRemover LoopFacts.

Lemma concat_replicate_nil {A} k : concat (replicate k ([] : list A)) = [].
Proof. induction k as [|k IH]; [done|exact IH]. Qed.

Lemma insert_middle {A} (l1 l2 : list A) x y :
  <[length l1 := y]> (l1 ++ x :: l2) = l1 ++ y :: l2.
Proof. rewrite insert_app_r_alt by lia. by rewrite Nat.sub_diag. Qed.

(** The chunking loop from a state with [length full] chunks filled, the
    current chunk [curc] and [k] empty chunks behind it: as long as the
    entries fit into the chunks that are left, the index stays in range. *)
Lemma chunk_loop (c : nat) entries : forall full curc k,
  (length curc < c)%nat ->
  (length full * c + length curc + length entries <= (length full + 1 + k) * c)%nat ->
  exists chunks' cur',
    forM (chunkStep (Z.of_nat c)) (full ++ curc :: replicate k [], length full) entries
    = Ok (chunks', cur')
    /\ concat chunks' = concat full ++ curc ++ entries.*2.
Proof.
  induction entries as [|[k0 p0] rest IH]; intros full curc k Hcur Hfit.
  { eexists _, _. split; [reflexivity|].
    rewrite concat_app. cbn. by rewrite concat_replicate_nil. }
  cbn [forM]. unfold chunkStep at 1. cbn [fst snd].
  rewrite (list_lookup_middle full _ curc (length full) eq_refl).
  rewrite insert_middle. cbn [rbind].
  rewrite length_app. cbn [length] in *.
  case_bool_decide as Hfull.
  - destruct k as [|k].
    + assert (rest = []) as -> by (destruct rest; [done|cbn in Hfit; nia]).
      eexists _, _. split; [reflexivity|].
      rewrite concat_app. cbn. by rewrite ?app_nil_r, <- ?(assoc (++)).
    + destruct (IH (full ++ [curc ++ [p0]]) [] k) as (chunks' & cur' & Hrun & Hcat).
      * cbn. lia.
      * rewrite length_app. cbn [length]. nia.
      * rewrite length_app in Hrun. cbn [length] in Hrun.
        rewrite <- (assoc (++)) in Hrun. cbn in Hrun.
        replace (length full + 1)%nat with (S (length full)) in Hrun by lia.
        eexists _, _. split; [exact Hrun|].
        rewrite Hcat, concat_app. cbn. by rewrite ?app_nil_r, <- ?(assoc (++)).
  - destruct (IH full (curc ++ [p0]) k) as (chunks' & cur' & Hrun & Hcat).
    + rewrite length_app. cbn. lia.
    + rewrite length_app. cbn [length]. nia.
    + eexists _, _. split; [exact Hrun|].
      rewrite Hcat. cbn. by rewrite <- ?(assoc (++)).
Qed.

Section WithOrder.
Variable order : Order.
Variable MaxParallelism : Z.
Hypothesis fair : fairOrder order.
Hypothesis workers : 0 < MaxParallelism.

(** Chunking never panics, and the chunks hold the routes in the order of
    enumeration. *)
Lemma buildChunks_ok feed :
  exists chunks,
    buildChunks order MaxParallelism feed = Ok chunks
    /\ concat chunks = (order RunChunks (Routes feed)).*2.
Proof.
  unfold buildChunks. rewrite bool_decide_eq_false_2 by lia.
  set (entries := order RunChunks (Routes feed)).
  assert (Hlen : length entries = size (Routes feed)) by apply fair_length, fair.
  rewrite <- Hlen.
  set (n := Z.of_nat (length entries)).
  set (c := Z.quot (n + MaxParallelism - 1) MaxParallelism).
  assert (Hc : 0 <= c /\ n <= MaxParallelism * c).
  { unfold c. rewrite Z.quot_div_nonneg by lia.
    pose proof (Z.div_mod (n + MaxParallelism - 1) MaxParallelism ltac:(lia)).
    pose proof (Z.mod_pos_bound (n + MaxParallelism - 1) MaxParallelism ltac:(lia)).
    split; [apply Z.div_pos; lia|lia]. }
  destruct (decide (entries = [])) as [->|Hne].
  { cbn. eexists. split; [reflexivity|]. apply concat_replicate_nil. }
  assert (Hn : 0 < n) by (unfold n; destruct entries; [done|cbn; lia]).
  destruct (Z.to_nat MaxParallelism) as [|k] eqn:Ek; [lia|].
  destruct (chunk_loop (Z.to_nat c) entries [] [] k) as (chunks & cur & Hrun & Hcat).
  - cbn. nia.
  - cbn [length]. unfold n in *. nia.
  - rewrite Z2Nat.id in Hrun by lia. cbn in Hrun. cbn [replicate].
    rewrite Hrun. cbn. eexists. split; [reflexivity|]. by rewrite Hcat.
Qed.

(** The index lists under each route the trips on it, in the order of
    enumeration. *)
Lemma tripsIndex_spec feed r :
  tripsIndex order feed !!! r
  = (List.filter (fun e => bool_decide (Trip.Route (trip feed (snd e)) = r))
                 (order RunTrips (Trips feed))).*2.
Proof.
  unfold tripsIndex.
  assert (Hgen : forall entries (acc : gmap ptr (list ptr)),
    foldl (indexTrip feed) acc entries !!! r
    = acc !!! r ++ (List.filter (fun e => bool_decide (Trip.Route (trip feed (snd e)) = r))
                      entries).*2).
  { induction entries as [|e entries IH]; intros acc; cbn [foldl List.filter].
    - by rewrite app_nil_r.
    - rewrite IH. unfold indexTrip. case_bool_decide as Hr.
      + rewrite Hr, lookup_total_insert_eq. cbn. by rewrite <- (assoc (++)).
      + by rewrite lookup_total_insert_ne. }
  rewrite Hgen. by rewrite lookup_total_empty.
Qed.

Lemma tripsIndex_elem feed r t :
  t ∈ tripsIndex order feed !!! r
  <-> exists k, Trips feed !! k = Some t /\ Trip.Route (trip feed t) = r.
Proof.
  rewrite tripsIndex_spec, list_elem_of_fmap. split.
  - intros ([k t'] & -> & Hin). apply list_elem_of_In, filter_In in Hin as [Hin Hr].
    apply bool_decide_eq_true in Hr. exists k. split; [|done].
    by apply list_elem_of_In, (fair_elem order) in Hin.
  - intros (k & Hk & Hr). exists (k, t). split; [done|].
    apply list_elem_of_In, filter_In. split.
    + by apply list_elem_of_In, (fair_elem order).
    + by apply bool_decide_eq_true.
Qed.

End WithOrder.
End ChunkFacts.

(** ** combineRoutes: removing the rules of a superseded route *)

Module FareRemovalFacts.
Import RouteDuplicateRemover Spec LoopFacts.

Lemma swapRemove_length l j l' : swapRemove l j = Ok l' -> length l = S (length l').
Proof.
  unfold swapRemove. destruct (l !! (length l - 1)%nat) as [last|] eqn:E; [|discriminate].
  case_bool_decide; [|discriminate]. intros [= <-].
  rewrite length_take, length_insert. lia.
Qed.

Lemma swapRemove_range l j l' : swapRemove l j = Ok l' -> (j < length l)%nat.
Proof.
  unfold swapRemove. destruct (l !! (length l - 1)%nat); [|discriminate].
  case_bool_decide; [done|discriminate].
Qed.

(** An index at or beyond the length makes the removal loop panic: the
    list only gets shorter. *)
Lemma swap_loop_panics toDel : forall l j,
  j ∈ toDel -> (length l <= j)%nat -> forall l', forM swapRemove l toDel ≠ Ok l'.
Proof.
  induction toDel as [|j0 toDel IH]; intros l j Hj Hlen l'; [by apply elem_of_nil in Hj|].
  cbn. destruct (swapRemove l j0) as [l1|] eqn:E; cbn; [|discriminate].
  apply elem_of_cons in Hj as [->|Hj].
  - apply swapRemove_range in E. lia.
  - apply swapRemove_length in E. eapply IH; [exact Hj|lia].
Qed.

Lemma swapRemove_last pre x : swapRemove (pre ++ [x]) (length pre) = Ok pre.
Proof.
  unfold swapRemove. rewrite length_app. cbn [length].
  replace (length pre + 1 - 1)%nat with (length pre) by lia.
  rewrite (list_lookup_middle pre [] x (length pre) eq_refl).
  rewrite bool_decide_eq_true_2 by lia. f_equal.
  rewrite take_insert_ge by lia. apply take_app_length.
Qed.

Lemma swapRemove_middle pre x suf y :
  swapRemove (pre ++ x :: suf ++ [y]) (length pre) = Ok (pre ++ y :: suf).
Proof.
  unfold swapRemove.
  assert (Hlen : length (pre ++ x :: suf ++ [y]) = S (length (pre ++ x :: suf))).
  { rewrite !length_app. cbn. rewrite length_app. cbn. lia. }
  rewrite Hlen. replace (S (length (pre ++ x :: suf)) - 1)%nat
    with (length (pre ++ x :: suf)) by lia.
  assert (Hre : pre ++ x :: suf ++ [y] = (pre ++ x :: suf) ++ [y])
    by (by rewrite <- (assoc (++))).
  rewrite Hre at 1.
  rewrite (list_lookup_middle (pre ++ x :: suf) [] y _ eq_refl).
  rewrite bool_decide_eq_true_2 by (rewrite length_app; cbn; lia). f_equal.
  rewrite ChunkFacts.insert_middle.
  assert (Hre2 : pre ++ y :: suf ++ [y] = (pre ++ y :: suf) ++ [y])
    by (by rewrite <- (assoc (++))).
  rewrite Hre2. apply take_app_length'. rewrite !length_app. cbn. lia.
Qed.

Lemma toDelFrom_app r j l1 l2 :
  toDelFrom r j (l1 ++ l2) = toDelFrom r j l1 ++ toDelFrom r (j + length l1) l2.
Proof.
  revert j. induction l1 as [|x l1 IH]; intros j; cbn.
  - by rewrite Nat.add_0_r.
  - rewrite IH. replace (S j + length l1)%nat with (j + S (length l1))%nat by lia.
    by case_bool_decide.
Qed.

Lemma rulesOffRoute_app r l1 l2 :
  rulesOffRoute r (l1 ++ l2) = rulesOffRoute r l1 ++ rulesOffRoute r l2.
Proof. apply List.filter_app. Qed.

Lemma rulesOffRoute_cons_on r x l :
  FareAttributeRule.Route x = r -> rulesOffRoute r (x :: l) = rulesOffRoute r l.
Proof. intros H. unfold rulesOffRoute. cbn. by rewrite bool_decide_eq_true_2. Qed.

Lemma rulesOffRoute_cons_off r x l :
  FareAttributeRule.Route x ≠ r -> rulesOffRoute r (x :: l) = x :: rulesOffRoute r l.
Proof. intros H. unfold rulesOffRoute. cbn. by rewrite bool_decide_eq_false_2. Qed.

Lemma rulesOffRoute_all r l :
  Forall (fun fr => FareAttributeRule.Route fr ≠ r) l -> rulesOffRoute r l = l.
Proof.
  induction 1 as [|x l Hx Hl IH]; [done|].
  by rewrite rulesOffRoute_cons_off, IH.
Qed.

(** When the removal loop returns, it has removed the rules on [r] and
    kept the others, up to their order. *)
Lemma swap_loop_ok r n : forall suf pre l',
  length suf = n ->
  Forall (fun fr => FareAttributeRule.Route fr ≠ r) pre ->
  forM swapRemove (pre ++ suf) (toDelFrom r (length pre) suf) = Ok l' ->
  l' ≡ₚ pre ++ rulesOffRoute r suf.
Proof.
  induction n as [n IH] using lt_wf_ind. intros suf pre l' Hn Hpre.
  destruct suf as [|x suf1].
  { cbn. intros [= <-]. by rewrite app_nil_r. }
  cbn [toDelFrom]. cbn [length] in Hn.
  case_bool_decide as Hx;
    [rewrite (rulesOffRoute_cons_on _ _ _ Hx)|rewrite (rulesOffRoute_cons_off _ _ _ Hx)].
  - destruct suf1 as [|y0 suf0 _] using rev_ind.
    + cbn [forM toDelFrom]. rewrite swapRemove_last. cbn. intros [= <-].
      by rewrite app_nil_r.
    + cbn [forM]. rewrite swapRemove_middle. cbn [rbind].
      rewrite toDelFrom_app. cbn [toDelFrom].
      rewrite length_app in Hn. cbn [length] in Hn.
      case_bool_decide as Hy.
      * intros Hrun. exfalso.
        eapply (swap_loop_panics _ _ (S (length pre) + length suf0)%nat);
          [| |exact Hrun].
        -- apply elem_of_app. right. by left.
        -- rewrite length_app. cbn. lia.
      * rewrite app_nil_r. intros Hrun.
        assert (Hre : pre ++ y0 :: suf0 = (pre ++ [y0]) ++ suf0)
          by (by rewrite <- (assoc (++))).
        rewrite Hre in Hrun.
        replace (S (length pre)) with (length (pre ++ [y0])) in Hrun
          by (rewrite length_app; cbn; lia).
        apply (IH (length suf0)) in Hrun; [|lia|done|].
        -- rewrite Hrun, rulesOffRoute_app, (rulesOffRoute_cons_off _ _ _ Hy).
           rewrite <- !(assoc (++)). f_equiv. cbn.
           by rewrite Permutation_cons_append.
        -- apply Forall_app. split; [done|]. by apply Forall_singleton.
  - intros Hrun.
    assert (Hre : pre ++ x :: suf1 = (pre ++ [x]) ++ suf1)
      by (by rewrite <- (assoc (++))).
    rewrite Hre in Hrun.
    replace (S (length pre)) with (length (pre ++ [x])) in Hrun
      by (rewrite length_app; cbn; lia).
    apply (IH (length suf1)) in Hrun; [|lia|done|].
    + rewrite Hrun. by rewrite <- (assoc (++)).
    + apply Forall_app. split; [done|]. by apply Forall_singleton.
Qed.

Lemma removal_ok r rules rules' :
  forM swapRemove rules (toDelFrom r 0 rules) = Ok rules' ->
  rules' ≡ₚ rulesOffRoute r rules.
Proof. intros H. by apply (swap_loop_ok r (length rules) rules [] rules'). Qed.

(** Nothing on [r]: nothing to remove, the rules stay as they are. *)
Lemma toDelFrom_none r j l :
  Forall (fun fr => FareAttributeRule.Route fr ≠ r) l -> toDelFrom r j l = [].
Proof.
  intros H. revert j. induction H as [|x l Hx Hl IH]; intros j; cbn; [done|].
  rewrite bool_decide_eq_false_2 by done. apply IH.
Qed.

End FareRemovalFacts.

(** ** combineRoutes: reference route, trips, routes *)

Module CombineFacts.
Import RouteDuplicateRemover Spec LoopFacts FareRemovalFacts.

(** The fare loop leaves routes and trips alone. *)
Lemma combineFare_frame r feed e feed' :
  combineFare r feed e = Ok feed' ->
  Routes feed' = Routes feed /\ routeAt feed' = routeAt feed
  /\ Trips feed' = Trips feed /\ tripAt feed' = tripAt feed.
Proof.
  unfold combineFare. destruct (FareAttributes feed !! e.1); [|by intros [= <-]].
  destruct (forM swapRemove _ _) as [rules'|]; cbn [rbind]; [|discriminate].
  destruct (_ && _); intros [= <-]; by feed_fields.
Qed.

Lemma fareLoop_frame r entries : forall feed feed',
  forM (combineFare r) feed entries = Ok feed' ->
  Routes feed' = Routes feed /\ routeAt feed' = routeAt feed
  /\ Trips feed' = Trips feed /\ tripAt feed' = tripAt feed.
Proof.
  intros feed feed'. apply (forM_invariant (combineFare r)
    (fun s => Routes s = Routes feed /\ routeAt s = routeAt feed
              /\ Trips s = Trips feed /\ tripAt s = tripAt feed)); [done|].
  intros s x s' _ (H1 & H2 & H3 & H4) Hs.
  apply combineFare_frame in Hs as (-> & -> & -> & ->). done.
Qed.

(** The reference route is in the group and no Id of the group is
    shorter than its Id. *)
Lemma pickRef_spec feed routes ref :
  pickRef feed routes = Ok ref ->
  ref ∈ routes
  /\ forall r, r ∈ routes ->
       (String.length (Route.Id (route feed ref))
        <= String.length (Route.Id (route feed r)))%nat.
Proof.
  unfold pickRef. destruct routes as [|r0 rest]; [discriminate|]. intros [= <-].
  assert (Hgen : forall l acc,
    (foldl (shorter feed) acc l = acc \/ foldl (shorter feed) acc l ∈ l)
    /\ (String.length (Route.Id (route feed (foldl (shorter feed) acc l)))
        <= String.length (Route.Id (route feed acc)))%nat
    /\ forall r, r ∈ l ->
         (String.length (Route.Id (route feed (foldl (shorter feed) acc l)))
          <= String.length (Route.Id (route feed r)))%nat).
  { induction l as [|x l IH]; intros acc; cbn [foldl].
    - split; [by left|]. split; [done|]. intros r Hr. by apply elem_of_nil in Hr.
    - destruct (IH (shorter feed acc x)) as (Hin & Hle & Hall).
      assert (Hs : (String.length (Route.Id (route feed (shorter feed acc x)))
                    <= String.length (Route.Id (route feed acc)))%nat
                   /\ (String.length (Route.Id (route feed (shorter feed acc x)))
                       <= String.length (Route.Id (route feed x)))%nat
                   /\ (shorter feed acc x = acc \/ shorter feed acc x = x)).
      { unfold shorter. case_bool_decide; split; try lia; split; try lia; auto. }
      destruct Hs as (Hs1 & Hs2 & Hs3).
      split; [|split; [lia|]].
      + destruct Hin as [->|Hin]; [|right; by right].
        destruct Hs3 as [->| ->]; [by left|right; by left].
      + intros r Hr. apply elem_of_cons in Hr as [->|Hr]; [lia|by apply Hall]. }
  destruct (Hgen (r0 :: rest) r0) as (Hin & _ & Hall).
  split; [|exact Hall]. destruct Hin as [Heq|Hin]; [|exact Hin].
  apply elem_of_cons. left. exact Heq.
Qed.

Lemma trip_setTripAt feed t0 x t :
  trip (setTripAt (<[t0 := x]> (tripAt feed)) feed) t
  = if decide (t = t0) then x else trip feed t.
Proof.
  unfold trip. cbn. destruct (decide (t = t0)) as [->|Hne].
  - apply (lookup_total_insert_eq (tripAt feed)).
  - by apply (lookup_total_insert_ne (tripAt feed)).
Qed.

(** The repointing loop over [trips[r]]: exactly the listed trips that are
    on [r] move to [ref]. *)
Lemma repoint_loop r ref l : r ≠ ref -> forall feed,
  let f := foldl (repoint r ref) feed l in
  Routes f = Routes feed /\ routeAt f = routeAt feed /\ Trips f = Trips feed
  /\ FareAttributes f = FareAttributes feed /\ fareAt f = fareAt feed
  /\ forall t, trip f t
       = if decide (t ∈ l /\ Trip.Route (trip feed t) = r)
         then Trip.setRoute ref (trip feed t) else trip feed t.
Proof.
  intros Hne. induction l as [|t0 l IH]; intros feed; cbn [foldl].
  { do 5 (split; [done|]). intros t. rewrite decide_False; [done|].
    intros [Hin _]. by apply elem_of_nil in Hin. }
  destruct (IH (repoint r ref feed t0)) as (H1 & H2 & H3 & H4 & H5 & H6).
  assert (Hstep : Routes (repoint r ref feed t0) = Routes feed
                  /\ routeAt (repoint r ref feed t0) = routeAt feed
                  /\ Trips (repoint r ref feed t0) = Trips feed
                  /\ FareAttributes (repoint r ref feed t0) = FareAttributes feed
                  /\ fareAt (repoint r ref feed t0) = fareAt feed).
  { unfold repoint. case_bool_decide; by feed_fields. }
  destruct Hstep as (S1 & S2 & S3 & S4 & S5).
  rewrite H1, H2, H3, H4, H5. do 5 (split; [done|]).
  intros t. rewrite H6. unfold repoint.
  case_bool_decide as Ht0.
  - rewrite !trip_setTripAt.
    destruct (decide (t = t0)) as [->|Hnt].
    + cbn. rewrite decide_False by (intros [_ Hr]; congruence).
      rewrite decide_True; [done|]. split; [by left|done].
    + destruct (decide (t ∈ l /\ Trip.Route (trip feed t) = r)) as [[Hin Hr]|Hn].
      * rewrite decide_True; [done|]. split; [by right|done].
      * rewrite decide_False; [done|]. intros [Hin Hr]. apply Hn.
        apply elem_of_cons in Hin as [->|Hin]; done.
  - destruct (decide (t ∈ l /\ Trip.Route (trip feed t) = r)) as [[Hin Hr]|Hn].
    + rewrite decide_True; [done|]. split; [by right|done].
    + rewrite decide_False; [done|]. intros [Hin Hr]. apply Hn.
      apply elem_of_cons in Hin as [->|Hin]; [congruence|done].
Qed.

Section WithOrder.
Variable order : Order.

Lemma route_frame feed feed' r : routeAt feed' = routeAt feed -> route feed' r = route feed r.
Proof. unfold route. by intros ->. Qed.

(** One superseded route: its listed trips move to [ref], its Id leaves
    the Routes collection. *)
Lemma combineOne_spec ref trips feed r feed' :
  r ≠ ref -> combineOne order ref trips feed r = Ok feed' ->
  routeAt feed' = routeAt feed /\ Trips feed' = Trips feed
  /\ Routes feed' = delete (Route.Id (route feed r)) (Routes feed)
  /\ forall t, trip feed' t
       = if decide (t ∈ trips !!! r /\ Trip.Route (trip feed t) = r)
         then Trip.setRoute ref (trip feed t) else trip feed t.
Proof.
  intros Hne. unfold combineOne. rewrite bool_decide_eq_false_2 by done.
  destruct (repoint_loop r ref (trips !!! r) Hne feed) as (R1 & R2 & R3 & R4 & R5 & R6).
  set (feed1 := foldl (repoint r ref) feed (trips !!! r)) in *.
  destruct (forM (combineFare r) feed1 _) as [feed2|] eqn:E; cbn [rbind]; [|discriminate].
  apply fareLoop_frame in E as (F1 & F2 & F3 & F4). intros [= <-]. feed_fields.
  rewrite (route_frame feed feed2) by congruence.
  split; [congruence|]. split; [congruence|]. split; [congruence|].
  intros t. rewrite <- R6. unfold trip. cbn. by rewrite F4.
Qed.

Lemma combineOne_ref ref trips feed : combineOne order ref trips feed ref = Ok feed.
Proof. unfold combineOne. by rewrite bool_decide_eq_true_2. Qed.

(** The loop of combineRoutes over the group. *)
Lemma combineLoop_spec ref trips routes : forall feed feed',
  forM (combineOne order ref trips) feed routes = Ok feed' ->
  routeAt feed' = routeAt feed /\ Trips feed' = Trips feed
  /\ (forall k, (exists r, r ∈ routes /\ r ≠ ref /\ Route.Id (route feed r) = k) ->
                Routes feed' !! k = None)
  /\ (forall k, (forall r, r ∈ routes -> r ≠ ref -> Route.Id (route feed r) ≠ k) ->
                Routes feed' !! k = Routes feed !! k)
  /\ (forall t, Trip.Route (trip feed t) ∈ routes -> Trip.Route (trip feed t) ≠ ref ->
                t ∈ trips !!! Trip.Route (trip feed t) ->
                trip feed' t = Trip.setRoute ref (trip feed t))
  /\ (forall t, ~ (Trip.Route (trip feed t) ∈ routes /\ Trip.Route (trip feed t) ≠ ref
                   /\ t ∈ trips !!! Trip.Route (trip feed t)) ->
                trip feed' t = trip feed t).
Proof.
  induction routes as [|r routes IH]; intros feed feed'; cbn [forM].
  { intros [= <-]. do 2 (split; [done|]). split.
    - intros k (r & Hr & _). by apply elem_of_nil in Hr.
    - split; [done|]. split; [|done]. intros t Hr. by apply elem_of_nil in Hr. }
  destruct (combineOne order ref trips feed r) as [feed1|] eqn:E; cbn [rbind];
    [|discriminate].
  intros Hrest. apply IH in Hrest as (I1 & I2 & I3 & I4 & I5 & I6).
  destruct (decide (r = ref)) as [->|Hne].
  - rewrite combineOne_ref in E. injection E as <-.
    split; [done|]. split; [done|]. split; [|split; [|split]].
    + intros k (r & Hr & Hnr & Hk). apply I3. exists r.
      apply elem_of_cons in Hr as [->|Hr]; [done|]. done.
    + intros k Hk. apply I4. intros r Hr. apply Hk. by right.
    + intros t Hin Hnr Ht. apply I5; [|done|done].
      apply elem_of_cons in Hin as [Heq|Hin]; [congruence|done].
    + intros t Hn. apply I6. intros (Hin & Hnr & Ht). apply Hn.
      split; [by right|done].
  - apply combineOne_spec in E as (C1 & C2 & C3 & C4); [|done].
    assert (Hroute : forall x, route feed1 x = route feed x)
      by (intros x; by apply route_frame).
    split; [congruence|]. split; [congruence|]. split; [|split; [|split]].
    + intros k (x & Hx & Hnx & Hk).
      destruct (decide (Exists (fun x => x ≠ ref /\ Route.Id (route feed1 x) = k) routes))
        as [Hex|Hnex].
      * apply I3. apply Exists_exists in Hex as (y & Hy & Hny & Hyk). by exists y.
      * rewrite I4.
        -- rewrite C3. apply elem_of_cons in Hx as [->|Hx].
           ++ rewrite <- Hk. apply lookup_delete_eq.
           ++ exfalso. apply Hnex, Exists_exists. exists x. by rewrite Hroute.
        -- intros y Hy Hny Hyk. apply Hnex, Exists_exists. by exists y.
    + intros k Hk. rewrite I4.
      * rewrite C3. apply lookup_delete_ne. apply Hk; [by left|done].
      * intros y Hy Hny. rewrite Hroute. apply Hk; [by right|done].
    + intros t Hin Hnr Ht. specialize (C4 t).
      destruct (decide (t ∈ trips !!! r /\ Trip.Route (trip feed t) = r)) as [[Ht1 Hr1]|Hn].
      * rewrite I6; [done|]. rewrite C4. cbn. tauto.
      * specialize (I5 t). rewrite C4 in I5. apply I5; [|done|done].
        apply elem_of_cons in Hin as [Heq|Hin]; [|done].
        exfalso. apply Hn. by rewrite <- Heq.
    + intros t Hn. specialize (C4 t).
      destruct (decide (t ∈ trips !!! r /\ Trip.Route (trip feed t) = r)) as [[Ht1 Hr1]|Hn1].
      * exfalso. apply Hn. rewrite Hr1. split; [by left|done].
      * rewrite I6; [done|]. rewrite C4. intros (Hin & Hnr & Ht). apply Hn.
        split; [by right|done].
Qed.

End WithOrder.
End CombineFacts.

(** ** The R1/R22 scenario under every enumeration order *)

Module ScenarioFacts.
Import RouteDuplicateRemover Spec Examples LoopFacts ChunkFacts CombineFacts
       MergeCondition.

Section WithOrder.
Variable order : Order.
Variable MaxParallelism : Z.
Hypothesis fair : fairOrder order.
Hypothesis workers : 0 < MaxParallelism.

Lemma fair_pair s (m : gmap string ptr) a b :
  map_to_list m = [a; b] -> order s m = [a; b] \/ order s m = [b; a].
Proof.
  intros Hm. apply Permutation_length_2_inv. rewrite (fair s m). by rewrite Hm.
Qed.

Lemma scenario_equivalent a b :
  a ≠ b -> (a = 1 \/ a = 2)%nat -> (b = 1 \/ b = 2)%nat ->
  equivalentTo order feedR1R22 a b = true.
Proof.
  intros Hne Ha Hb. apply equivalentTo_spec; [done|].
  split; [done|]. split.
  - destruct Ha as [-> | ->], Hb as [-> | ->]; vm_compute; tauto.
  - intros k fa Hk. exfalso. revert Hk.
    change (FareAttributes feedR1R22) with (∅ : gmap string ptr).
    by rewrite lookup_empty.
Qed.

Lemma scenario_not_self a : equivalentTo order feedR1R22 a a = false.
Proof. unfold equivalentTo. by rewrite bool_decide_eq_false_2 by (intros H; by apply H). Qed.

Lemma scenario_candidates chunks :
  concat chunks = (order RunChunks (Routes feedR1R22)).*2 ->
  getEquivalentRoutes order 1 feedR1R22 chunks = [2%nat]
  /\ getEquivalentRoutes order 2 feedR1R22 chunks = [1%nat].
Proof.
  intros Hcat. rewrite !getEquivalentRoutes_filter, Hcat.
  pose proof (scenario_equivalent 1 2 ltac:(lia) ltac:(lia) ltac:(lia)) as E12.
  pose proof (scenario_equivalent 2 1 ltac:(lia) ltac:(lia) ltac:(lia)) as E21.
  pose proof (scenario_not_self 1) as E11. pose proof (scenario_not_self 2) as E22.
  destruct (fair_pair RunChunks (Routes feedR1R22) ("R1", 1%nat) ("R22", 2%nat)
              ltac:(vm_compute; reflexivity)) as [-> | ->];
    cbn [fmap list_fmap snd List.filter]; by rewrite ?E12, ?E21, ?E11, ?E22.
Qed.

Lemma scenario_trips :
  tripsIndex order feedR1R22 !!! 2%nat = [2%nat].
Proof.
  rewrite tripsIndex_spec by done.
  destruct (fair_pair RunTrips (Trips feedR1R22) ("T1", 1%nat) ("T2", 2%nat)
              ltac:(vm_compute; reflexivity)) as [-> | ->];
    vm_compute; reflexivity.
Qed.

Lemma scenario_supersede feed :
  feed = feedR1R22 \/ feed = feedR1R22_merged ->
  combineOne order 1 (tripsIndex order feedR1R22) feed 2 = Ok feedR1R22_merged.
Proof.
  intros Hfeed. unfold combineOne. rewrite bool_decide_eq_false_2 by lia.
  rewrite scenario_trips.
  assert (Hre : foldl (repoint 2 1) feed [2%nat]
                = setTripAt (<[2%nat := tripOn "T2" 1%nat]> (tripAt feedR1R22)) feed)
    by (destruct Hfeed as [-> | ->]; vm_compute; reflexivity).
  rewrite Hre.
  assert (Hfa : FareAttributes
                  (setTripAt (<[2%nat := tripOn "T2" 1%nat]> (tripAt feedR1R22)) feed)
                = ∅) by (destruct Hfeed as [-> | ->]; reflexivity).
  rewrite Hfa, (fair_empty order) by done. cbn [forM rbind]. f_equal.
  destruct Hfeed as [-> | ->]; vm_compute; reflexivity.
Qed.

Lemma scenario_merge routes :
  routes = [2; 1]%nat \/ routes = [1; 2]%nat ->
  combineRoutes order feedR1R22 routes (tripsIndex order feedR1R22)
  = Ok feedR1R22_merged.
Proof.
  intros Hr. unfold combineRoutes.
  assert (Href : pickRef feedR1R22 routes = Ok 1%nat)
    by (destruct Hr as [-> | ->]; vm_compute; reflexivity).
  rewrite Href. cbn [rbind].
  destruct Hr as [-> | ->]; cbn [forM].
  - rewrite scenario_supersede by (by left). cbn [rbind]. by rewrite combineOne_ref.
  - rewrite combineOne_ref. cbn [rbind]. by rewrite scenario_supersede by (by left).
Qed.


End WithOrder.
End ScenarioFacts.

Module MergeResult.
Import RouteDuplicateRemover Spec Examples LoopFacts ChunkFacts CombineFacts
       ScenarioFacts.



End MergeResult.

Module RangeAndDelete.
Import RouteDuplicateRemover Spec Examples LoopFacts ChunkFacts CombineFacts
       ScenarioFacts.

(** C9, as stated, fails: the first round of Run's loop over feed.Routes
    on [feedR1R22] deletes R22 from feed.Routes while the loop is under
    way. *)
Lemma route_deleted_inside_range :
  ~ (forall order MaxParallelism feed chunks visited e rest st st',
       fairOrder order ->
       buildChunks order MaxParallelism feed = Ok chunks ->
       order RunRoutes (Routes feed) = visited ++ e :: rest ->
       forM (runStep order chunks (tripsIndex order feed)) (feed, ∅) visited = Ok st ->
       runStep order chunks (tripsIndex order feed) st e = Ok st' ->
       Routes (fst st') = Routes (fst st)).
Proof.
  intros H.
  assert (Hfair : fairOrder inMapOrder) by (intros s m; reflexivity).
  specialize (H inMapOrder 4 feedR1R22 [[1%nat]; [2%nat]; []; []] []
                ("R1", 1%nat) [("R22", 2%nat)] (feedR1R22, ∅)
                (feedR1R22_merged, {[1%nat; 2%nat]}) Hfair).
  assert (Hne : Routes feedR1R22_merged ≠ Routes feedR1R22).
  { intros Heq. assert (Hl : Routes feedR1R22_merged !! "R22" = Routes feedR1R22 !! "R22")
      by (by rewrite Heq). vm_compute in Hl. discriminate Hl. }
  apply Hne, H.
  - vm_compute. reflexivity.
  - vm_compute. reflexivity.
  - reflexivity.
  - assert (Hrun : exists p, runStep inMapOrder [[1%nat]; [2%nat]; []; []]
                     (tripsIndex inMapOrder feedR1R22) (feedR1R22, ∅) ("R1", 1%nat)
                   = Ok (feedR1R22_merged, p) /\ p = {[1%nat; 2%nat]}).
    { unfold runStep. cbn [fst snd].
      change (Routes feedR1R22 !! "R1") with (Some 1%nat).
      rewrite bool_decide_eq_false_2 by set_solver.
      destruct (scenario_candidates inMapOrder Hfair [[1%nat]; [2%nat]; []; []])
        as [C1 _]; [vm_compute; reflexivity|].
      rewrite C1. cbn [length app]. rewrite bool_decide_eq_true_2 by lia.
      rewrite (scenario_merge inMapOrder Hfair) by (by left). cbn [rbind].
      eexists. split; [reflexivity|]. set_solver. }
    destruct Hrun as (p & -> & ->). reflexivity.
Qed.

(** C9, amended. The deletions from feed.Routes are made by combineRoutes,
    called from the body of Run's loop over feed.Routes, while that loop is
    under way.  A round of the loop adds no entry and changes none; every
    key it removes is the Id of a route of the group it merges other than
    the reference route; and an entry removed before the loop reaches it is
    not visited. *)
Theorem round_only_removes_superseded order chunks trips st e st' :
  runStep order chunks trips st e = Ok st' ->
  (forall k p, Routes (fst st') !! k = Some p -> Routes (fst st) !! k = Some p)
  /\ (forall k, Routes (fst st') !! k ≠ Routes (fst st) !! k ->
        exists ref r,
          pickRef (fst st) (getEquivalentRoutes order (snd e) (fst st) chunks ++ [snd e])
          = Ok ref
          /\ r ∈ getEquivalentRoutes order (snd e) (fst st) chunks ++ [snd e]
          /\ r ≠ ref /\ Route.Id (route (fst st) r) = k)
  /\ (Routes (fst st) !! fst e = None -> st' = st).
Proof.
  destruct st as [feed proced], e as [k0 r0]. unfold runStep. cbn [fst snd].
  destruct (Routes feed !! k0) as [p0|] eqn:Ek; [|intros [= <-]; done].
  case_bool_decide; [intros [= <-]; done|].
  case_bool_decide; [|intros [= <-]; done].
  set (group := getEquivalentRoutes order r0 feed chunks ++ [r0]).
  unfold combineRoutes.
  destruct (pickRef feed group) as [ref|] eqn:Eref; cbn [rbind]; [|discriminate].
  destruct (forM (combineOne order ref trips) feed group) as [feed'|] eqn:Eloop;
    cbn [rbind]; [|discriminate].
  intros [= <-]. cbn [fst snd].
  apply combineLoop_spec in Eloop as (L1 & L2 & L3 & L4 & _ & _).
  assert (Hcases : forall k,
    Routes feed' !! k = Routes feed !! k
    \/ (Routes feed' !! k = None
        /\ exists r, r ∈ group /\ r ≠ ref /\ Route.Id (route feed r) = k)).
  { intros k.
    destruct (decide (Exists (fun r => r ≠ ref /\ Route.Id (route feed r) = k) group))
      as [Hex|Hnex].
    - apply Exists_exists in Hex as (r & Hr & Hne & Hk). right.
      split; [apply L3|]; by exists r.
    - left. apply L4. intros r Hr Hne Hk. apply Hnex, Exists_exists. by exists r. }
  split; [|split; [|done]].
  - intros k p Hk. destruct (Hcases k) as [<-|[Hn _]]; [done|congruence].
  - intros k Hk. destruct (Hcases k) as [Heq|[_ (r & Hr & Hne & Hid)]]; [done|].
    by exists ref, r.
Qed.

Lemma round_only_removes_superseded_witness :
  runStep inMapOrder [[1%nat]; [2%nat]; []; []] (tripsIndex inMapOrder feedR1R22)
          (feedR1R22, ∅) ("R1", 1%nat)
  = Ok (feedR1R22_merged, {[1%nat; 2%nat]})
  /\ forall k p, Routes feedR1R22_merged !! k = Some p -> Routes feedR1R22 !! k = Some p.
Proof.
  assert (Hrun : runStep inMapOrder [[1%nat]; [2%nat]; []; []]
                   (tripsIndex inMapOrder feedR1R22) (feedR1R22, ∅) ("R1", 1%nat)
                 = Ok (feedR1R22_merged, {[1%nat; 2%nat]}))
    by (vm_compute; reflexivity).
  split; [exact Hrun|].
  exact (proj1 (round_only_removes_superseded _ _ _ _ _ _ Hrun)).
Defined.

End RangeAndDelete.

(** ** Duplicates are stable under the removal of superseded routes *)

Module PruneFacts.
Import RouteDuplicateRemover Spec LoopFacts FareRulesFacts MergeCondition.

Lemma filter_perm {A} (f : A -> bool) l l' :
  l ≡ₚ l' -> List.filter f l ≡ₚ List.filter f l'.
Proof.
  induction 1 as [|x l l' _ IH|x y l|l1 l2 l3 _ IH1 _ IH2]; cbn.
  - done.
  - destruct (f x); by rewrite IH.
  - destruct (f x), (f y); try done. apply Permutation_swap.
  - by rewrite IH1.
Qed.

Lemma filter_filter_comm {A} (f g : A -> bool) l :
  List.filter f (List.filter g l) = List.filter g (List.filter f l).
Proof.
  induction l as [|x l IH]; cbn; [done|].
  destruct (f x) eqn:Ef, (g x) eqn:Eg; cbn; rewrite ?Ef, ?Eg, IH; done.
Qed.

(** A route outside [D] keeps its rules when those of [D] go. *)
Lemma sideOf_rulesOffRoutes D x l :
  x ∉ D -> sideOf x (rulesOffRoutes D l) = sideOf x l.
Proof.
  intros Hx. unfold sideOf, rulesOffRoutes.
  induction l as [|fr l IH]; cbn; [done|].
  case_bool_decide as Hd; cbn.
  - by rewrite IH.
  - rewrite IH. rewrite bool_decide_eq_false_2; [done|].
    intros Heq. apply Hx. by rewrite <- Heq.
Qed.

Lemma rulesOf_pruned D x attr attr0 :
  x ∉ D ->
  FareAttribute.Rules attr ≡ₚ rulesOffRoutes D (FareAttribute.Rules attr0) ->
  zones <$> rulesOf attr x ≡ₚ zones <$> rulesOf attr0 x.
Proof.
  intros Hx Hp. unfold rulesOf.
  rewrite <- (sideOf_rulesOffRoutes D x (FareAttribute.Rules attr0)) by done.
  unfold sideOf. by rewrite (filter_perm _ _ _ Hp).
Qed.

Lemma pairable_pruned D x y attr attr0 :
  x ∉ D -> y ∉ D ->
  FareAttribute.Rules attr ≡ₚ rulesOffRoutes D (FareAttribute.Rules attr0) ->
  (pairable attr x y <-> pairable attr0 x y).
Proof.
  intros Hx Hy Hp. unfold pairable.
  by rewrite (rulesOf_pruned D x attr attr0), (rulesOf_pruned D y attr attr0).
Qed.

Lemma untouched_pairable attr a b : ~ touched attr a b -> pairable attr a b.
Proof.
  intros Hn. unfold pairable, rulesOf.
  assert (Hnil : forall x, (x = a \/ x = b) -> sideOf x (FareAttribute.Rules attr) = []).
  { intros x Hx. unfold sideOf.
    assert (Hall : Forall (fun fr => FareAttributeRule.Route fr ≠ x)
                          (FareAttribute.Rules attr)).
    { apply Forall_forall. intros fr Hin Heq. apply Hn. exists fr.
      split; [done|]. destruct Hx as [-> | ->]; auto. }
    induction Hall as [|fr l Hfr _ IH]; cbn; [done|].
    by rewrite bool_decide_eq_false_2. }
  by rewrite (Hnil a), (Hnil b) by auto.
Qed.

Lemma nil_pairable attr a b : FareAttribute.Rules attr = [] -> pairable attr a b.
Proof.
  intros Hnil. apply untouched_pairable. intros (fr & Hin & _).
  rewrite Hnil in Hin. by apply elem_of_nil in Hin.
Qed.

(** Fare compatibility in the pruned feed is fare equality in the feed
    Run started from, for routes that have not been superseded. *)
Lemma fareCompatible_pruned feed0 D f x y :
  faresPruned feed0 D f -> x ∉ D -> y ∉ D ->
  (fareCompatible f x y <-> sameFares feed0 x y).
Proof.
  intros (F1 & F2 & F3 & F4) Hx Hy. unfold fareCompatible, sameFares. split.
  - intros H k p Hk.
    apply (pairable_pruned D x y (fare f p) (fare feed0 p) Hx Hy (F3 k p Hk)).
    destruct (FareAttributes f !! k) as [p'|] eqn:Ef.
    + assert (p' = p) as ->.
      { eapply lookup_weaken in Ef; [|exact F1]. congruence. }
      destruct (decide (Exists (fun fr => FareAttributeRule.Route fr = x
                                          \/ FareAttributeRule.Route fr = y)
                               (FareAttribute.Rules (fare f p)))) as [Hex|Hnex].
      * apply (H k p Ef). apply Exists_exists in Hex as (fr & Hin & Hfr). by exists fr.
      * apply untouched_pairable. intros (fr & Hin & Hfr).
        apply Hnex, Exists_exists. by exists fr.
    + apply nil_pairable. by apply (F4 k p).
  - intros H k p Hk _.
    assert (Hk0 : FareAttributes feed0 !! k = Some p) by (eapply lookup_weaken; eauto).
    apply (pairable_pruned D x y (fare f p) (fare feed0 p) Hx Hy (F3 k p Hk0)).
    by apply (H k).
Qed.

Lemma fieldsIdentical_sym a b : fieldsIdentical a b -> fieldsIdentical b a.
Proof.
  unfold fieldsIdentical, urlIdentical. intros (H1 & H2 & H3 & H4 & H5 & H6 & H7 & H8).
  repeat split; try done.
  destruct (Route.Url a), (Route.Url b); done.
Qed.

Lemma fieldsIdentical_trans a b c :
  fieldsIdentical a b -> fieldsIdentical b c -> fieldsIdentical a c.
Proof.
  unfold fieldsIdentical, urlIdentical.
  intros (H1 & H2 & H3 & H4 & H5 & H6 & H7 & H8) (G1 & G2 & G3 & G4 & G5 & G6 & G7 & G8).
  repeat split; try congruence.
  destruct (Route.Url a), (Route.Url b), (Route.Url c); try done. congruence.
Qed.

Lemma duplicates_sym feed0 x y : duplicates feed0 x y -> duplicates feed0 y x.
Proof.
  intros [Hf Hs]. split; [by apply fieldsIdentical_sym|].
  intros k p Hk. unfold pairable. symmetry. by apply (Hs k p).
Qed.

Lemma duplicates_trans feed0 x y z :
  duplicates feed0 x y -> duplicates feed0 y z -> duplicates feed0 x z.
Proof.
  intros [Hf1 Hs1] [Hf2 Hs2]. split; [by eapply fieldsIdentical_trans|].
  intros k p Hk. unfold pairable. etrans; [by apply (Hs1 k p)|by apply (Hs2 k p)].
Qed.

(** What getEquivalentRoutes tests, for routes not superseded so far. *)
Lemma equivalentTo_pruned order feed0 D f rt r :
  fairOrder order -> routesPruned feed0 D f -> faresPruned feed0 D f ->
  rt ∉ D -> r ∉ D ->
  (equivalentTo order f rt r = true <-> r ≠ rt /\ duplicates feed0 rt r).
Proof.
  intros Hfair [Hra _] Hfp Hrt Hr. rewrite equivalentTo_spec by done.
  unfold route. rewrite Hra. fold (route feed0 r). fold (route feed0 rt).
  rewrite (fareCompatible_pruned feed0 D f rt r) by done.
  unfold duplicates. split.
  - intros (H1 & H2 & H3). split; [done|]. split; [by apply fieldsIdentical_sym|done].
  - intros (H1 & H2 & H3). split; [done|]. split; [by apply fieldsIdentical_sym|done].
Qed.

End PruneFacts.

(** ** combineRoutes: the fare loop for one superseded route *)

Module FarePassFacts.
Import RouteDuplicateRemover Spec LoopFacts FareRemovalFacts CombineFacts.

Lemma fare_setFareAt feed p x q :
  fare (setFareAt (<[p := x]> (fareAt feed)) feed) q
  = if decide (q = p) then x else fare feed q.
Proof.
  unfold fare. cbn. destruct (decide (q = p)) as [->|Hne].
  - apply (lookup_total_insert_eq (fareAt feed)).
  - by apply (lookup_total_insert_ne (fareAt feed)).
Qed.

(** One round of the fare loop on an entry still in the collection. *)
Lemma combineFare_present r feed k p feed' :
  is_Some (FareAttributes feed !! k) ->
  combineFare r feed (k, p) = Ok feed' ->
  exists rules',
    rules' ≡ₚ rulesOffRoute r (FareAttribute.Rules (fare feed p))
    /\ (forall q, fare feed' q
          = if decide (q = p) then FareAttribute.setRules rules' (fare feed p)
            else fare feed q)
    /\ ((rules' = [] /\ FareAttribute.Rules (fare feed p) ≠ []
         /\ FareAttributes feed'
            = delete (FareAttribute.Id (fare feed p)) (FareAttributes feed))
        \/ ((rules' ≠ [] \/ FareAttribute.Rules (fare feed p) = [])
            /\ FareAttributes feed' = FareAttributes feed)).
Proof.
  intros [p' Hk]. unfold combineFare. cbn [fst snd]. rewrite Hk.
  destruct (forM swapRemove _ _) as [rules'|] eqn:E; cbn [rbind]; [|discriminate].
  apply removal_ok in E. intros Hres. exists rules'. split; [exact E|].
  destruct (bool_decide (length rules' = 0%nat)) eqn:B1;
    [apply bool_decide_eq_true in B1|apply bool_decide_eq_false in B1];
  (destruct (bool_decide (length (FareAttribute.Rules (fare feed p)) = 0%nat)) eqn:B2;
    [apply bool_decide_eq_true in B2|apply bool_decide_eq_false in B2]);
  cbn [andb negb] in Hres; injection Hres as <-.
  all: split; [intros q; apply fare_setFareAt|].
  - right. split; [right; by apply nil_length_inv|done].
  - left. split; [by apply nil_length_inv|]. split.
    + intros Hnil. by rewrite Hnil in B2.
    + cbn [FareAttributes setFareAttributes setFareAt]. f_equal.
      rewrite fare_setFareAt, decide_True by done. done.
  - right. split; [right; by apply nil_length_inv|done].
  - right. split; [left; intros Hnil; by rewrite Hnil in B1|done].
Qed.

(** The whole fare loop for route [r], from a feed whose fare attributes
    are filed under their Ids: every attribute of the collection loses
    its rules on [r] and keeps the others; one emptied by that is deleted. *)
Lemma fareLoop_spec r fA entries fB :
  (forall k p, FareAttributes fA !! k = Some p -> FareAttribute.Id (fare fA p) = k) ->
  entries ≡ₚ map_to_list (FareAttributes fA) ->
  forM (combineFare r) fA entries = Ok fB ->
  FareAttributes fB ⊆ FareAttributes fA
  /\ (forall p, FareAttribute.Id (fare fB p) = FareAttribute.Id (fare fA p))
  /\ (forall k p, FareAttributes fA !! k = Some p ->
        FareAttribute.Rules (fare fB p)
        ≡ₚ rulesOffRoute r (FareAttribute.Rules (fare fA p)))
  /\ (forall p, (forall k, FareAttributes fA !! k ≠ Some p) -> fare fB p = fare fA p)
  /\ (forall k p, FareAttributes fA !! k = Some p -> FareAttributes fB !! k = None ->
        FareAttribute.Rules (fare fB p) = []).
Proof.
  intros Hid Hperm Hrun.
  assert (Hnd : NoDup entries.*1).
  { rewrite Hperm. apply NoDup_fst_map_to_list. }
  assert (Hin : forall k p, (k, p) ∈ entries <-> FareAttributes fA !! k = Some p).
  { intros k p. rewrite Hperm. apply elem_of_map_to_list. }
  pose (I := fun (visited : list (string * nat)) (f : Feed) =>
    FareAttributes f ⊆ FareAttributes fA
    /\ (forall p, FareAttribute.Id (fare f p) = FareAttribute.Id (fare fA p))
    /\ (forall k p, (k, p) ∈ visited ->
          FareAttribute.Rules (fare f p)
          ≡ₚ rulesOffRoute r (FareAttribute.Rules (fare fA p)))
    /\ (forall p, p ∉ visited.*2 -> fare f p = fare fA p)
    /\ (forall k p, FareAttributes fA !! k = Some p -> FareAttributes f !! k = None ->
          (k, p) ∈ visited /\ FareAttribute.Rules (fare f p) = [])).
  assert (Hfin : I entries fB).
  { apply (forM_prefix_invariant (combineFare r) I entries fA fB); [|clear Hrun|exact Hrun].
    - unfold I. split; [done|]. split; [done|]. split.
      + intros k p Hv. by apply elem_of_nil in Hv.
      + split; [done|]. intros k p Hk Hn. congruence.
    - intros visited [k p] rest f f1 Hl (I1 & I2 & I3 & I4 & I5) Hbody.
      assert (Hkp : FareAttributes fA !! k = Some p).
      { apply Hin. rewrite Hl. apply elem_of_app. right. by left. }
      rewrite Hl, fmap_app, fmap_cons in Hnd. cbn [fst] in Hnd.
      apply NoDup_app in Hnd as (Hnd1 & Hnd2 & Hnd3).
      assert (Hkfresh : k ∉ visited.*1).
      { intros Hkv. apply (Hnd2 k Hkv). by left. }
      assert (Hpfresh : p ∉ visited.*2).
      { intros Hpv. apply list_elem_of_fmap in Hpv as ([k' p'] & Hp' & Hv).
        cbn in Hp'. subst p'. apply Hkfresh.
        assert (Hk' : FareAttributes fA !! k' = Some p).
        { apply Hin. rewrite Hl. apply elem_of_app. by left. }
        rewrite <- (Hid k p Hkp), (Hid k' p Hk').
        apply list_elem_of_fmap. by exists (k', p). }
      assert (Hpres : is_Some (FareAttributes f !! k)).
      { destruct (FareAttributes f !! k) eqn:Ef; [by eexists|].
        destruct (I5 k p Hkp Ef) as [Hv _]. exfalso. apply Hkfresh.
        apply list_elem_of_fmap. by exists (k, p). }
      destruct (combineFare_present r f k p f1 Hpres Hbody)
        as (rules' & Hrules & Hfare & Hmap).
      assert (Hfp : fare f p = fare fA p) by (by apply I4).
      assert (Hidp : FareAttribute.Id (fare f p) = k) by (rewrite Hfp; by apply Hid).
      assert (Hsub : FareAttributes f1 ⊆ FareAttributes f).
      { destruct Hmap as [(_ & _ & ->)|[_ ->]]; [apply delete_subseteq|done]. }
      unfold I. split; [by etrans|]. split; [|split; [|split]].
      + intros q. rewrite Hfare. destruct (decide (q = p)) as [->|Hq]; [|apply I2].
        cbn. apply I2.
      + intros k' p' Hv. apply elem_of_app in Hv as [Hv|Hv].
        * rewrite Hfare, decide_False; [by apply (I3 k')|].
          intros ->. apply Hpfresh. apply list_elem_of_fmap. by exists (k', p).
        * apply list_elem_of_singleton in Hv. injection Hv as -> ->.
          rewrite Hfare, decide_True by done. cbn. by rewrite <- Hfp.
      + intros q Hq. rewrite fmap_app in Hq. cbn in Hq.
        rewrite Hfare, decide_False.
        * apply I4. intros Hv. apply Hq, elem_of_app. by left.
        * intros ->. apply Hq, elem_of_app. right. by left.
      + intros k' p' Hk' Hn.
        destruct (FareAttributes f !! k') as [q|] eqn:Ef.
        * destruct Hmap as [(Hnil & _ & Hdel)|[_ Hsame]]; [|congruence].
          rewrite Hdel, Hidp in Hn.
          destruct (decide (k = k')) as [<-|Hkk];
            [|rewrite lookup_delete_ne in Hn by done; congruence].
          assert (p' = p) as -> by congruence.
          split; [apply elem_of_app; right; by left|].
          rewrite Hfare, decide_True by done. done.
        * destruct (I5 k' p' Hk' Ef) as [Hv Hr]. split; [apply elem_of_app; by left|].
          rewrite Hfare, decide_False; [done|].
          intros ->. apply Hpfresh. apply list_elem_of_fmap. by exists (k', p). }
  destruct Hfin as (I1 & I2 & I3 & I4 & I5).
  split; [done|]. split; [done|]. split; [|split].
  - intros k p Hk. apply (I3 k). by apply Hin.
  - intros p Hp. apply I4. intros Hv.
    apply list_elem_of_fmap in Hv as ([k p'] & Hp' & Hv). cbn in Hp'. subst p'.
    apply (Hp k). by apply Hin.
  - intros k p Hk Hn. by apply (I5 k p).
Qed.

End FarePassFacts.

(** ** A merge prunes the feed *)

Module MergePassFacts.
Import RouteDuplicateRemover Spec LoopFacts FareRemovalFacts CombineFacts
       PruneFacts FarePassFacts.

Lemma rulesOffRoute_rulesOffRoutes D r l :
  rulesOffRoute r (rulesOffRoutes D l) = rulesOffRoutes (D ∪ {[r]}) l.
Proof.
  unfold rulesOffRoute, rulesOffRoutes.
  induction l as [|fr l IH]; cbn; [done|].
  destruct (decide (FareAttributeRule.Route fr ∈ D)) as [Hd|Hd].
  - rewrite !bool_decide_eq_false_2 by set_solver. exact IH.
  - rewrite (bool_decide_eq_true_2 (FareAttributeRule.Route fr ∉ D)) by done. cbn.
    destruct (decide (FareAttributeRule.Route fr = r)) as [Hr|Hr].
    + rewrite bool_decide_eq_true_2 by done. cbn.
      rewrite bool_decide_eq_false_2 by set_solver. exact IH.
    + rewrite bool_decide_eq_false_2 by done. cbn.
      rewrite bool_decide_eq_true_2 by set_solver. by rewrite IH.
Qed.

Lemma fare_frame f f' p : fareAt f' = fareAt f -> fare f' p = fare f p.
Proof. unfold fare. by intros ->. Qed.

Section WithOrder.
Variable order : Order.
Hypothesis fair : fairOrder order.

(** Superseding [r] removes its rules from the fare attributes. *)
Lemma combineOne_faresPruned feed0 D ref trips f r f' :
  faresPruned feed0 D f -> r ≠ ref ->
  combineOne order ref trips f r = Ok f' ->
  faresPruned feed0 (D ∪ {[r]}) f'.
Proof.
  intros (F1 & F2 & F3 & F4) Hne. unfold combineOne.
  rewrite bool_decide_eq_false_2 by done.
  destruct (repoint_loop r ref (trips !!! r) Hne f) as (_ & _ & _ & R4 & R5 & _).
  set (f1 := foldl (repoint r ref) f (trips !!! r)) in *.
  destruct (forM (combineFare r) f1 _) as [f2|] eqn:E; cbn [rbind]; [|discriminate].
  intros [= <-].
  assert (Hf1 : forall p, fare f1 p = fare f p) by (intros p; by apply fare_frame).
  apply fareLoop_spec in E as (S1 & S2 & S3 & S4 & S5).
  2:{ intros k p Hk. rewrite Hf1. apply F2.
      rewrite R4 in Hk. eapply lookup_weaken; eauto. }
  2:{ apply fair. }
  assert (Huntouched : forall k p, FareAttributes feed0 !! k = Some p ->
            FareAttributes f !! k = None -> fare f2 p = fare f p).
  { intros k p Hk Hn. rewrite <- Hf1. apply S4. intros k' Hk'. rewrite R4 in Hk'.
    assert (Hk0 : FareAttributes feed0 !! k' = Some p) by (eapply lookup_weaken; eauto).
    assert (k' = k) as -> by (by rewrite <- (F2 k' p Hk0), (F2 k p Hk)).
    congruence. }
  unfold faresPruned.
  change (FareAttributes (setRoutes _ f2)) with (FareAttributes f2).
  assert (Hfare : forall p M, fare (setRoutes M f2) p = fare f2 p) by done.
  split; [|split; [|split]].
  - etrans; [exact S1|]. by rewrite R4.
  - intros k p Hk. rewrite Hfare, S2, Hf1. by apply F2.
  - intros k p Hk. rewrite Hfare, <- rulesOffRoute_rulesOffRoutes.
    destruct (FareAttributes f !! k) as [p'|] eqn:Ef.
    + assert (p' = p) as -> by (eapply lookup_weaken in Ef; [|exact F1]; congruence).
      rewrite (S3 k p) by (by rewrite R4). rewrite Hf1.
      apply filter_perm. by apply (F3 k).
    + rewrite (Huntouched k p Hk Ef), (F4 k p Hk Ef).
      pose proof (F3 k p Hk) as Hp. rewrite (F4 k p Hk Ef) in Hp.
      unfold rulesOffRoute. by rewrite <- (filter_perm _ _ _ Hp).
  - intros k p Hk Hn. rewrite Hfare.
    destruct (FareAttributes f !! k) as [p'|] eqn:Ef.
    + assert (p' = p) as -> by (eapply lookup_weaken in Ef; [|exact F1]; congruence).
      apply (S5 k p); [by rewrite R4|done].
    + rewrite (Huntouched k p Hk Ef). by apply (F4 k p).
Qed.

Lemma combineLoop_faresPruned feed0 ref trips routes : forall D f f',
  faresPruned feed0 D f ->
  forM (combineOne order ref trips) f routes = Ok f' ->
  faresPruned feed0 (D ∪ (list_to_set routes ∖ {[ref]})) f'.
Proof.
  induction routes as [|r routes IH]; intros D f f' Hf; cbn [forM].
  { intros [= <-]. replace (D ∪ (list_to_set [] ∖ {[ref]})) with D by set_solver. done. }
  destruct (combineOne order ref trips f r) as [f1|] eqn:E; cbn [rbind]; [|discriminate].
  intros Hrest. destruct (decide (r = ref)) as [->|Hne].
  - rewrite combineOne_ref in E. injection E as <-.
    apply (IH D) in Hrest; [|done].
    replace (D ∪ (list_to_set (ref :: routes) ∖ {[ref]}))
      with (D ∪ (list_to_set routes ∖ {[ref]})) by set_solver.
    done.
  - apply (combineOne_faresPruned feed0 D) in E; [|done|done].
    apply (IH (D ∪ {[r]})) in Hrest; [|done].
    replace (D ∪ (list_to_set (r :: routes) ∖ {[ref]}))
      with (D ∪ {[r]} ∪ (list_to_set routes ∖ {[ref]})) by set_solver.
    done.
Qed.

(** A merge of a group of routes of the initial feed removes the group
    but for its reference route, and prunes the fares accordingly. *)
Lemma combineRoutes_pruned feed0 D f routes trips f' :
  routesById feed0 ->
  routesPruned feed0 D f -> faresPruned feed0 D f ->
  (forall r, r ∈ routes -> exists k, Routes feed0 !! k = Some r) ->
  combineRoutes order f routes trips = Ok f' ->
  exists ref,
    ref ∈ routes
    /\ routesPruned feed0 (D ∪ (list_to_set routes ∖ {[ref]})) f'
    /\ faresPruned feed0 (D ∪ (list_to_set routes ∖ {[ref]})) f'.
Proof.
  intros Hbyid [Hra Hrt] Hfp Hlisted. unfold combineRoutes.
  destruct (pickRef f routes) as [ref|] eqn:Eref; cbn [rbind]; [|discriminate].
  intros Hloop. exists ref. apply pickRef_spec in Eref as [Hin _].
  split; [exact Hin|]. split; [|by eapply combineLoop_faresPruned].
  apply combineLoop_spec in Hloop as (L1 & _ & L3 & L4 & _ & _).
  assert (Hroute : forall x, route f x = route feed0 x) by (intros x; by apply route_frame).
  split; [congruence|]. intros k p. split.
  - intros Hk.
    destruct (decide (Exists (fun r => r ≠ ref /\ Route.Id (route f r) = k) routes))
      as [Hex|Hnex].
    + apply Exists_exists in Hex as (r & Hr & Hne & Hid).
      rewrite L3 in Hk by (by exists r). discriminate.
    + rewrite L4 in Hk.
      2:{ intros r Hr Hne Hid. apply Hnex, Exists_exists. by exists r. }
      apply Hrt in Hk as [Hk0 HpD]. split; [done|].
      intros Hp. apply elem_of_union in Hp as [Hp|Hp]; [done|].
      apply elem_of_difference in Hp as [Hp Hpref].
      apply elem_of_list_to_set in Hp. apply Hnex, Exists_exists. exists p.
      split; [done|]. split; [set_solver|]. rewrite Hroute. by apply Hbyid.
  - intros [Hk0 Hp]. rewrite L4.
    + apply Hrt. split; [done|]. set_solver.
    + intros r Hr Hne Hid. apply Hp. apply elem_of_union. right.
      destruct (Hlisted r Hr) as (kr & Hkr).
      assert (kr = k) as -> by (rewrite <- (Hbyid kr r Hkr), <- Hroute; done).
      assert (p = r) as -> by congruence.
      apply elem_of_difference. split; [by apply elem_of_list_to_set|set_solver].
Qed.

End WithOrder.
End MergePassFacts.

(** ** A second run of the route duplicate remover *)

Module SecondRunFacts.
Import RouteDuplicateRemover Spec LoopFacts ChunkFacts CombineFacts
       MergeCondition PruneFacts MergePassFacts.

Lemma rulesOffRoutes_empty l : rulesOffRoutes ∅ l = l.
Proof.
  unfold rulesOffRoutes. induction l as [|fr l IH]; cbn; [done|].
  rewrite bool_decide_eq_true_2 by set_solver. by rewrite IH.
Qed.

Lemma pruned_start feed0 :
  faresById feed0 -> routesPruned feed0 ∅ feed0 /\ faresPruned feed0 ∅ feed0.
Proof.
  intros Hf. split.
  - split; [done|]. intros k p. split; [intros H; split; [done|set_solver]|tauto].
  - split; [done|]. split; [exact Hf|]. split.
    + intros k p _. by rewrite rulesOffRoutes_empty.
    + intros k p Hk Hn. congruence.
Qed.

Lemma filter_nil_false {A} (f : A -> bool) l :
  (forall x, x ∈ l -> f x = false) -> List.filter f l = [].
Proof.
  induction l as [|x l IH]; intros H; cbn; [done|].
  rewrite (H x) by (by left). apply IH. intros y Hy. apply H. by right.
Qed.

Section FirstRun.
Variable order : Order.
Variable MaxParallelism : Z.
Hypothesis fair : fairOrder order.
Hypothesis workers : 0 < MaxParallelism.
Variable feed0 : Feed.
Hypothesis byId : routesById feed0.
Hypothesis faresId : faresById feed0.

Lemma pruned_alive D f k p :
  routesPruned feed0 D f -> Routes f !! k = Some p ->
  Routes feed0 !! k = Some p /\ p ∉ D.
Proof. intros [_ H] Hk. by apply H. Qed.

(** A route still in the collection is found by the candidate search of a
    round exactly when it duplicates the visited route in the initial
    feed. *)
Lemma candidate_iff D f chunks r y ky kr :
  concat chunks = (order RunChunks (Routes feed0)).*2 ->
  routesPruned feed0 D f -> faresPruned feed0 D f ->
  Routes f !! kr = Some r -> Routes f !! ky = Some y ->
  (y ∈ getEquivalentRoutes order r f chunks <-> y ≠ r /\ duplicates feed0 r y).
Proof.
  intros Hcat Hrp Hfp Hr Hy.
  destruct (pruned_alive D f kr r Hrp Hr) as [Hr0 HrD].
  destruct (pruned_alive D f ky y Hrp Hy) as [Hy0 HyD].
  rewrite getEquivalentRoutes_filter, list_elem_of_In, filter_In, <- list_elem_of_In.
  rewrite (equivalentTo_pruned order feed0 D f r y) by done.
  split; [tauto|]. intros H. split; [|done].
  rewrite Hcat. apply list_elem_of_fmap. exists (ky, y). split; [done|].
  by apply (fair_elem order).
Qed.

(** What the first run leaves: the initial feed pruned of the superseded
    routes, and no two routes of the collection that duplicate each other
    in the initial feed. *)
Lemma first_run_leaves_no_duplicates feed1 :
  Run order MaxParallelism feed0 = Ok feed1 ->
  exists D,
    routesPruned feed0 D feed1 /\ faresPruned feed0 D feed1
    /\ forall kx x ky y,
         Routes feed1 !! kx = Some x -> Routes feed1 !! ky = Some y -> x ≠ y ->
         ~ duplicates feed0 x y.
Proof.
  unfold Run.
  destruct (buildChunks_ok order MaxParallelism fair workers feed0)
    as (chunks & -> & Hcat). cbn [rbind].
  set (trips := tripsIndex order feed0).
  destruct (forM (runStep order chunks trips) (feed0, ∅) _) as [st|] eqn:Erun;
    cbn [rbind]; [|discriminate].
  intros [= <-].
  pose (I := fun (visited : list (string * nat)) (st : Feed * gset nat) =>
    exists D,
      routesPruned feed0 D (fst st) /\ faresPruned feed0 D (fst st)
      /\ forall kx x ky y,
           Routes (fst st) !! kx = Some x -> Routes (fst st) !! ky = Some y -> x ≠ y ->
           x ∈ visited.*2 \/ x ∈ snd st ->
           ~ duplicates feed0 x y).
  assert (Hfin : I (order RunRoutes (Routes feed0)) st).
  { apply (forM_prefix_invariant (runStep order chunks trips) I _ (feed0, ∅) st);
      [|clear Erun|exact Erun].
    { exists ∅. destruct (pruned_start feed0 faresId) as [H1 H2].
      split; [done|]. split; [done|]. cbn. intros kx x ky y _ _ _ [Hv|Hp].
      - by apply elem_of_nil in Hv.
      - set_solver. }
    intros visited [k r] rest [f proced] st1 Hl (D & Hrp & Hfp & Hset) Hstep.
    cbn [fst snd] in *.
    assert (Hkr0 : Routes feed0 !! k = Some r).
    { apply (fair_elem order RunRoutes); [done|]. rewrite Hl.
      apply elem_of_app. right. by left. }
    unfold runStep in Hstep. cbn [fst snd] in Hstep.
    destruct (Routes f !! k) as [p0|] eqn:Ek.
    2:{ injection Hstep as <-. exists D. split; [done|]. split; [done|].
        cbn [fst snd]. intros kx x ky y Hx Hy Hne [Hv|Hp]; [|by eapply Hset; eauto].
        rewrite fmap_app in Hv. apply elem_of_app in Hv as [Hv|Hv];
          [by eapply Hset; eauto|].
        apply list_elem_of_singleton in Hv. cbn in Hv. subst x. exfalso.
        destruct (pruned_alive D f kx r Hrp Hx) as [Hx0 _].
        assert (kx = k) as -> by (by rewrite <- (byId kx r Hx0), (byId k r Hkr0)).
        congruence. }
    assert (p0 = r) as ->.
    { destruct (pruned_alive D f k p0 Hrp Ek) as [H0 _]. congruence. }
    case_bool_decide as Hproced.
    { injection Hstep as <-. exists D. split; [done|]. split; [done|].
      cbn [fst snd]. intros kx x ky y Hx Hy Hne [Hv|Hp]; [|by eapply Hset; eauto].
      rewrite fmap_app in Hv. apply elem_of_app in Hv as [Hv|Hv];
        [by eapply Hset; eauto|].
      apply list_elem_of_singleton in Hv. cbn in Hv. subst x.
      eapply Hset; eauto. }
    case_bool_decide as Hlen.
    2:{ injection Hstep as <-. exists D. split; [done|]. split; [done|].
        cbn [fst snd]. intros kx x ky y Hx Hy Hne [Hv|Hp]; [|by eapply Hset; eauto].
        rewrite fmap_app in Hv. apply elem_of_app in Hv as [Hv|Hv];
          [by eapply Hset; eauto|].
        apply list_elem_of_singleton in Hv. cbn in Hv. subst x.
        intros Hdup. apply Hlen.
        assert (Hin : y ∈ getEquivalentRoutes order r f chunks).
        { apply (candidate_iff D f chunks r y ky k); try done.
          all: split; [congruence|done]. }
        destruct (getEquivalentRoutes order r f chunks); [by apply elem_of_nil in Hin|].
        cbn. lia. }
    set (eq := getEquivalentRoutes order r f chunks) in *.
    destruct (combineRoutes order f (eq ++ [r]) trips) as [f'|] eqn:Ecomb;
      cbn [rbind] in Hstep; [|discriminate].
    injection Hstep as <-. cbn [fst snd].
    assert (Hlisted : forall x, x ∈ eq ++ [r] -> exists kx, Routes feed0 !! kx = Some x).
    { intros x Hx. apply elem_of_app in Hx as [Hx|Hx].
      - unfold eq in Hx. rewrite getEquivalentRoutes_filter in Hx.
        apply list_elem_of_In, filter_In in Hx as [Hx _].
        apply list_elem_of_In in Hx. rewrite Hcat in Hx.
        apply list_elem_of_fmap in Hx as ([kx x'] & -> & Hx). exists kx.
        by apply (fair_elem order) in Hx.
      - apply list_elem_of_singleton in Hx as ->. by exists k. }
    destruct (combineRoutes_pruned order fair feed0 D f (eq ++ [r]) trips f'
                byId Hrp Hfp Hlisted Ecomb) as (ref & Href & Hrp' & Hfp').
    set (D' := D ∪ (list_to_set (eq ++ [r]) ∖ {[ref]})) in *.
    exists D'. split; [done|]. split; [done|].
    cbn [fst snd]. intros kx x ky y Hx Hy Hne Hwhere.
    destruct (pruned_alive D' f' kx x Hrp' Hx) as [Hx0 HxD].
    destruct (pruned_alive D' f' ky y Hrp' Hy) as [Hy0 HyD].
    assert (Hxf : Routes f !! kx = Some x).
    { apply Hrp. split; [done|]. intros Hd. apply HxD, elem_of_union. by left. }
    assert (Hyf : Routes f !! ky = Some y).
    { apply Hrp. split; [done|]. intros Hd. apply HyD, elem_of_union. by left. }
    assert (Hold : x ∈ visited.*2 \/ x ∈ proced -> ~ duplicates feed0 x y)
      by (intros Hw; eapply Hset; eauto).
    assert (Hnew : x ∈ eq ++ [r] -> ~ duplicates feed0 x y).
    { intros Hxg Hdup.
      assert (x = ref) as ->.
      { apply dec_stable. intros Hn. apply HxD, elem_of_union. right.
        apply elem_of_difference. split; [by apply elem_of_list_to_set|].
        intros Hs. by apply elem_of_singleton in Hs. }
      assert (Hry : duplicates feed0 r y).
      { apply elem_of_app in Href as [Href|Href].
        - apply (candidate_iff D f chunks r ref kx k) in Href as [_ Hd]; try done.
          by eapply duplicates_trans.
        - apply list_elem_of_singleton in Href. by subst. }
      apply HyD. apply elem_of_union. right. apply elem_of_difference.
      split; [|intros Hs; apply elem_of_singleton in Hs; congruence].
      apply elem_of_list_to_set, elem_of_app.
      destruct (decide (y = r)) as [->|Hyr]; [right; by left|]. left.
      apply (candidate_iff D f chunks r y ky k); try done. }
    destruct Hwhere as [Hv|Hp].
    - rewrite fmap_app in Hv. apply elem_of_app in Hv as [Hv|Hv]; [by apply Hold; left|].
      apply list_elem_of_singleton in Hv. cbn in Hv. subst x.
      apply Hnew. apply elem_of_app. right. by left.
    - apply elem_of_union in Hp as [Hp|Hp].
      + apply elem_of_union in Hp as [Hp|Hp]; [by apply Hold; right|].
        apply Hnew, elem_of_app. left. by apply elem_of_list_to_set in Hp.
      + apply Hnew, elem_of_app. right. apply elem_of_singleton in Hp. subst x. by left. }
  destruct Hfin as (D & Hrp & Hfp & Hset). exists D. split; [done|]. split; [done|].
  intros kx x ky y Hx Hy Hne. eapply Hset; eauto. left.
  destruct (pruned_alive D (fst st) kx x Hrp Hx) as [Hx0 _].
  apply list_elem_of_fmap. exists (kx, x). split; [done|]. by apply (fair_elem order).
Qed.

End FirstRun.

(** A run on a feed without duplicates in the collection merges nothing. *)
Lemma run_without_duplicates order MaxParallelism feed0 D feed1 :
  fairOrder order -> 0 < MaxParallelism ->
  routesPruned feed0 D feed1 -> faresPruned feed0 D feed1 ->
  (forall kx x ky y,
     Routes feed1 !! kx = Some x -> Routes feed1 !! ky = Some y -> x ≠ y ->
     ~ duplicates feed0 x y) ->
  Run order MaxParallelism feed1 = Ok feed1.
Proof.
  intros fair workers Hrp Hfp Hnodup. unfold Run.
  destruct (buildChunks_ok order MaxParallelism fair workers feed1)
    as (chunks & -> & Hcat). cbn [rbind].
  rewrite forM_skip; [done|].
  intros [k r] Hin. apply (fair_elem order) in Hin; [|done].
  unfold runStep. cbn [fst snd]. rewrite Hin.
  rewrite bool_decide_eq_false_2 by set_solver.
  rewrite getEquivalentRoutes_filter, filter_nil_false; [done|].
  intros y Hy. rewrite Hcat in Hy.
  apply list_elem_of_fmap in Hy as ([ky y'] & -> & Hy). cbn [snd].
  apply (fair_elem order) in Hy; [|done].
  destruct (proj1 (proj2 Hrp k r) Hin) as [Hr0 HrD].
  destruct (proj1 (proj2 Hrp ky y') Hy) as [Hy0 HyD].
  apply not_true_is_false. intros Heq.
  apply (equivalentTo_pruned order feed0 D feed1 r y') in Heq as [Hne Hdup]; try done.
  apply (Hnodup k r ky y'); try done.
  all: congruence.
Qed.

End SecondRunFacts.

Module SecondRun.
Import Spec Examples SecondRunFacts MinimizerTwice.

(** C4, amended.  A second run of the route duplicate remover on the feed
    a completed first run left, started from a feed whose routes and fare
    attributes are filed under their own Ids, returns that feed unchanged:
    no route is removed, nothing is rewritten.  A second run of the
    identifier minimiser leaves every collection with the same set of
    identifiers and the same entity instances as the first and the fare
    attributes as they are; which entity carries which identifier is not
    kept, the order of enumeration of a map being open. *)
Theorem second_run_changes_no_collection :
  (forall order1 order2 workers1 workers2 feed feed1,
     fairOrder order1 -> fairOrder order2 -> 0 < workers1 -> 0 < workers2 ->
     routesById feed -> faresById feed ->
     RouteDuplicateRemover.Run order1 workers1 feed = Ok feed1 ->
     RouteDuplicateRemover.Run order2 workers2 feed1 = Ok feed1)
  /\ (forall order1 order2 mz feed f1,
        fairOrder order1 -> fairOrder order2 -> 2 <= IDMinimizer.Base mz <= 36 ->
        countable64 feed ->
        IDMinimizer.Run order1 mz feed = Ok f1 ->
        exists f2,
          IDMinimizer.Run order2 mz f1 = Ok f2
          /\ (dom (Trips f2) = dom (Trips f1) /\ dom (Stops f2) = dom (Stops f1)
              /\ dom (Routes f2) = dom (Routes f1) /\ dom (Shapes f2) = dom (Shapes f1)
              /\ dom (Agencies f2) = dom (Agencies f1)
              /\ dom (Services f2) = dom (Services f1)
              /\ FareAttributes f2 = FareAttributes f1)
          /\ (sameEntities (Trips f1) (Trips f2) /\ sameEntities (Stops f1) (Stops f2)
              /\ sameEntities (Routes f1) (Routes f2)
              /\ sameEntities (Shapes f1) (Shapes f2)
              /\ sameEntities (Agencies f1) (Agencies f2)
              /\ sameEntities (Services f1) (Services f2))).
Proof.
  split.
  - intros order1 order2 w1 w2 feed feed1 Hf1 Hf2 Hw1 Hw2 Hr Hf Hrun.
    destruct (first_run_leaves_no_duplicates order1 w1 Hf1 Hw1 feed Hr Hf feed1 Hrun)
      as (D & Hrp & Hfp & Hnodup).
    by apply (run_without_duplicates order2 w2 feed D feed1).
  - intros order1 order2 mz feed f1 Hf1 Hf2 Hb Hc Hrun.
    by apply (second_run_same_identifier_sets order1 order2 mz feed f1).
Qed.

(** The two halves at work: [feedThree] run twice through the route
    duplicate remover, [feedIds] twice through the minimiser. *)
Lemma second_run_changes_no_collection_witness :
  (exists feed1,
     RouteDuplicateRemover.Run inMapOrder 4 feedThree = Ok feed1
     /\ RouteDuplicateRemover.Run reversedOrder 2 feed1 = Ok feed1)
  /\ (exists f1 f2,
        IDMinimizer.Run inMapOrder (IDMinimizer.mk 10) feedIds = Ok f1
        /\ IDMinimizer.Run reversedOrder (IDMinimizer.mk 10) f1 = Ok f2
        /\ dom (Trips f2) = dom (Trips f1)).
Proof.
  assert (Ha : fairOrder inMapOrder) by (intros s m; reflexivity).
  assert (Hb : fairOrder reversedOrder).
  { intros s m. unfold reversedOrder. apply reverse_Permutation. }
  assert (HR : routesById feedThree).
  { intros k p Hk. apply elem_of_map_to_list in Hk. vm_compute in Hk.
    repeat (apply elem_of_cons in Hk as [Hk|Hk]; [injection Hk as -> ->; reflexivity|]).
    by apply elem_of_nil in Hk. }
  assert (HF : faresById feedThree).
  { intros k p Hk. apply elem_of_map_to_list in Hk. vm_compute in Hk.
    repeat (apply elem_of_cons in Hk as [Hk|Hk]; [injection Hk as -> ->; reflexivity|]).
    by apply elem_of_nil in Hk. }
  assert (HC : countable64 feedIds)
    by (apply (bool_decide_unpack _); vm_compute; exact I).
  destruct second_run_changes_no_collection as [Hroutes Hids].
  split.
  - destruct (RouteDuplicateRemover.Run inMapOrder 4 feedThree) as [feed1|msg] eqn:E;
      [|vm_compute in E; discriminate E].
    exists feed1. split; [reflexivity|].
    exact (Hroutes inMapOrder reversedOrder 4 2 feedThree feed1 Ha Hb
             eq_refl eq_refl HR HF E).
  - destruct (IDMinimizer.Run inMapOrder (IDMinimizer.mk 10) feedIds) as [f1|msg] eqn:E;
      [|vm_compute in E; discriminate E].
    assert (Hbase : 2 <= IDMinimizer.Base (IDMinimizer.mk 10) <= 36) by (cbn; lia).
    destruct (Hids inMapOrder reversedOrder (IDMinimizer.mk 10) feedIds f1 Ha Hb
                Hbase HC E) as (f2 & Hrun2 & (Hd & _) & _).
    exists f1, f2. split; [reflexivity|]. split; [exact Hrun2|exact Hd].
Defined.

End SecondRun.

(** ** The rule removal on two rules of the superseded route *)

Module RuleRemoval.
Import RouteDuplicateRemover Spec Examples LoopFacts ChunkFacts CombineFacts
       MergeCondition ScenarioFacts.

Section WithOrder.
Variable order : Order.
Variable MaxParallelism : Z.
Hypothesis fair : fairOrder order.
Hypothesis workers : 0 < MaxParallelism.

Lemma fair_single s (m : gmap string nat) a :
  map_to_list m = [a] -> order s m = [a].
Proof.
  intros Hm. apply Permutation_singleton_r. rewrite (fair s m). by rewrite Hm.
Qed.

Lemma zones_equivalent a b :
  a ≠ b -> (a = 1 \/ a = 2)%nat -> (b = 1 \/ b = 2)%nat ->
  equivalentTo order feedTwoZones a b = true.
Proof.
  intros Hne Ha Hb. apply equivalentTo_spec; [done|].
  split; [done|]. split.
  - destruct Ha as [-> | ->], Hb as [-> | ->]; vm_compute; tauto.
  - intros k fa Hk _. apply elem_of_map_to_list in Hk. vm_compute in Hk.
    apply list_elem_of_singleton in Hk. injection Hk as -> ->.
    unfold pairable.
    destruct Ha as [-> | ->], Hb as [-> | ->]; vm_compute; reflexivity.
Qed.

Lemma zones_candidates chunks :
  concat chunks = (order RunChunks (Routes feedTwoZones)).*2 ->
  getEquivalentRoutes order 1 feedTwoZones chunks = [2%nat]
  /\ getEquivalentRoutes order 2 feedTwoZones chunks = [1%nat].
Proof.
  intros Hcat. rewrite !getEquivalentRoutes_filter, Hcat.
  pose proof (zones_equivalent 1 2 ltac:(lia) ltac:(lia) ltac:(lia)) as E12.
  pose proof (zones_equivalent 2 1 ltac:(lia) ltac:(lia) ltac:(lia)) as E21.
  assert (E11 : equivalentTo order feedTwoZones 1 1 = false).
  { unfold equivalentTo. by rewrite bool_decide_eq_false_2 by (intros H; by apply H). }
  assert (E22 : equivalentTo order feedTwoZones 2 2 = false).
  { unfold equivalentTo. by rewrite bool_decide_eq_false_2 by (intros H; by apply H). }
  destruct (fair_pair order fair RunChunks (Routes feedTwoZones)
              ("R1", 1%nat) ("R22", 2%nat) ltac:(vm_compute; reflexivity))
    as [-> | ->];
    cbn [fmap list_fmap snd List.filter]; by rewrite ?E12, ?E21, ?E11, ?E22.
Qed.

Lemma zones_trips : tripsIndex order feedTwoZones !!! 2%nat = [2%nat].
Proof.
  rewrite tripsIndex_spec by done.
  destruct (fair_pair order fair RunTrips (Trips feedTwoZones)
              ("T1", 1%nat) ("T2", 2%nat) ltac:(vm_compute; reflexivity))
    as [-> | ->]; vm_compute; reflexivity.
Qed.

Lemma zones_supersede :
  combineOne order 1 (tripsIndex order feedTwoZones) feedTwoZones 2
  = Panic "runtime error: index out of range".
Proof.
  unfold combineOne. rewrite bool_decide_eq_false_2 by lia.
  rewrite zones_trips.
  set (feed1 := foldl (repoint 2 1) feedTwoZones [2%nat]).
  rewrite (fair_single CombineFares (FareAttributes feed1) ("F", 1%nat))
    by (vm_compute; reflexivity).
  cbn [forM].
  assert (Hp : combineFare 2 feed1 ("F", 1%nat)
               = Panic "runtime error: index out of range")
    by (vm_compute; reflexivity).
  by rewrite Hp.
Qed.

Lemma zones_merge routes :
  routes = [2; 1]%nat \/ routes = [1; 2]%nat ->
  combineRoutes order feedTwoZones routes (tripsIndex order feedTwoZones)
  = Panic "runtime error: index out of range".
Proof.
  intros Hr. unfold combineRoutes.
  assert (Href : pickRef feedTwoZones routes = Ok 1%nat)
    by (destruct Hr as [-> | ->]; vm_compute; reflexivity).
  rewrite Href. cbn [rbind].
  destruct Hr as [-> | ->]; cbn [forM].
  - by rewrite zones_supersede.
  - rewrite combineOne_ref. cbn [rbind]. by rewrite zones_supersede.
Qed.

Lemma zones_Run :
  Run order MaxParallelism feedTwoZones = Panic "runtime error: index out of range".
Proof.
  unfold Run.
  destruct (buildChunks_ok order MaxParallelism fair workers feedTwoZones)
    as (chunks & -> & Hcat). cbn [rbind].
  destruct (zones_candidates chunks Hcat) as [C1 C2].
  destruct (fair_pair order fair RunRoutes (Routes feedTwoZones)
              ("R1", 1%nat) ("R22", 2%nat) ltac:(vm_compute; reflexivity))
    as [-> | ->]; cbn [forM].
  - unfold runStep at 1. cbn [fst snd].
    change (Routes feedTwoZones !! "R1") with (Some 1%nat).
    rewrite bool_decide_eq_false_2 by set_solver.
    rewrite C1. cbn [length app]. rewrite bool_decide_eq_true_2 by lia.
    by rewrite zones_merge by (by left).
  - unfold runStep at 1. cbn [fst snd].
    change (Routes feedTwoZones !! "R22") with (Some 2%nat).
    rewrite bool_decide_eq_false_2 by set_solver.
    rewrite C2. cbn [length app]. rewrite bool_decide_eq_true_2 by lia.
    by rewrite zones_merge by (by right).
Qed.

End WithOrder.

(** C5. In [feedTwoZones] the routes R1 and R22 are duplicates and R22 is
    superseded; fare F holds two rules on R22, at indices 1 and 3.  The
    indices are collected before the first removal: removing index 1 moves
    the last rule there and shortens the list to three, so index 3 is out
    of range.  Whatever the enumeration orders and the number of workers,
    Run panics instead of removing the rules. *)
Theorem rule_removal_panics_on_two_rules order MaxParallelism :
  fairOrder order -> 0 < MaxParallelism ->
  toDelFrom 2 0 (FareAttribute.Rules (fare feedTwoZones 1)) = [1; 3]%nat
  /\ swapRemove (FareAttribute.Rules (fare feedTwoZones 1)) 1
     = Ok [rule "z1" 1%nat; rule "z2" 2%nat; rule "z2" 1%nat]
  /\ swapRemove [rule "z1" 1%nat; rule "z2" 2%nat; rule "z2" 1%nat] 3
     = Panic "runtime error: index out of range"
  /\ Run order MaxParallelism feedTwoZones = Panic "runtime error: index out of range".
Proof.
  intros fair workers.
  split; [vm_compute; reflexivity|]. split; [vm_compute; reflexivity|].
  split; [vm_compute; reflexivity|]. by apply zones_Run.
Qed.

Lemma rule_removal_panics_on_two_rules_witness :
  fairOrder inMapOrder
  /\ Run inMapOrder 4 feedTwoZones = Panic "runtime error: index out of range".
Proof.
  assert (Hfair : fairOrder inMapOrder) by (intros s m; reflexivity).
  split; [exact Hfair|].
  exact (proj2 (proj2 (proj2
           (rule_removal_panics_on_two_rules inMapOrder 4 Hfair eq_refl)))).
Defined.

End RuleRemoval.

(** * Further properties of the route comparison *)

Module WitnessTools.
Import Examples.

Lemma inMapOrder_fair : fairOrder inMapOrder.
Proof. intros s m. reflexivity. Qed.

Lemma reversedOrder_fair : fairOrder reversedOrder.
Proof. intros s m. unfold reversedOrder. apply reverse_Permutation. Qed.

End WitnessTools.

Module ComparisonProperties.
Import RouteDuplicateRemover Spec Examples MoreExamples FareRulesFacts MergeCondition
       PruneFacts WitnessTools.

Lemma urlIdentical_refl u : urlIdentical u u.
Proof. by destruct u. Qed.

Lemma fieldsIdentical_refl x : fieldsIdentical x x.
Proof. unfold fieldsIdentical. repeat split. apply urlIdentical_refl. Qed.

(** Compared with itself a route never leaves a rule waiting: each rule on
    it is put on the A side and taken off again in the same round. *)
Lemma fareRulesStep_self a r : fareRulesStep a a ([], []) r = ([], []).
Proof.
  unfold fareRulesStep. cbn [fst snd cutFirst].
  case_bool_decide as Hr; [|done]. cbn [fst snd app cutFirst].
  assert (sameZones r r = true) as ->; [|done].
  by apply sameZones_spec.
Qed.

Lemma fareRulesEqual_self attr a : fareRulesEqual attr a a = true.
Proof.
  unfold fareRulesEqual.
  assert (foldl (fareRulesStep a a) ([], []) (FareAttribute.Rules attr) = ([], [])) as ->;
    [|done].
  induction (FareAttribute.Rules attr) as [|r l IH]; [done|].
  cbn [foldl]. by rewrite fareRulesStep_self.
Qed.

Lemma pairable_sym attr a b : pairable attr a b -> pairable attr b a.
Proof. unfold pairable. by intros ->. Qed.

Lemma fareRulesEqual_sym attr a b : fareRulesEqual attr a b = fareRulesEqual attr b a.
Proof.
  destruct (decide (a = b)) as [->|Hab]; [done|].
  apply eq_true_iff_eq. rewrite !fareRulesEqual_spec by done.
  split; apply pairable_sym.
Qed.

Lemma touches_sym a b fr : touches a b fr = touches b a fr.
Proof. unfold touches. apply orb_comm. Qed.

Lemma fareAttrOk_sym attr a b : fareAttrOk attr a b = fareAttrOk attr b a.
Proof.
  unfold fareAttrOk.
  assert (existsb (touches a b) (FareAttribute.Rules attr)
          = existsb (touches b a) (FareAttribute.Rules attr)) as ->.
  { induction (FareAttribute.Rules attr) as [|fr l IH]; [done|].
    cbn. by rewrite IH, touches_sym. }
  by rewrite fareRulesEqual_sym.
Qed.

Lemma checkFareEquality_sym order feed a b :
  checkFareEquality order feed a b = checkFareEquality order feed b a.
Proof.
  unfold checkFareEquality.
  induction (order FareEquality (FareAttributes feed)) as [|e l IH]; [done|].
  cbn. by rewrite IH, fareAttrOk_sym.
Qed.

Lemma forallb_perm {A} (f : A -> bool) l l' : l ≡ₚ l' -> forallb f l = forallb f l'.
Proof.
  induction 1 as [|x l l' _ IH|x y l|l l' l'' _ IH1 _ IH2]; cbn.
  - done.
  - by rewrite IH.
  - by destruct (f x), (f y).
  - congruence.
Qed.

(** Fare compatibility asks the pairing of every listed attribute: an
    attribute that touches neither route pairs off trivially. *)
Lemma fareCompatible_all feed a b :
  fareCompatible feed a b
  <-> forall k fa, FareAttributes feed !! k = Some fa -> pairable (fare feed fa) a b.
Proof.
  split; intros H k fa Hk.
  - destruct (decide (Exists (fun fr => FareAttributeRule.Route fr = a
                                        \/ FareAttributeRule.Route fr = b)
                             (FareAttribute.Rules (fare feed fa)))) as [Ht|Ht].
    + apply (H k fa Hk). apply Exists_exists in Ht as (fr & Hin & Hr). by exists fr.
    + apply untouched_pairable. intros (fr & Hin & Hr). apply Ht, Exists_exists.
      by exists fr.
  - intros _. by apply (H k fa).
Qed.

Lemma routeEquals_sym x y : routeEquals x y = routeEquals y x.
Proof.
  apply eq_true_iff_eq. rewrite !routeEquals_spec. split; apply fieldsIdentical_sym.
Qed.

(** X1. routeEquals is an equivalence on route structs: a route equals
    itself (also when its Url is nil), the order of the two arguments does
    not matter, and equality carries over a middle route. *)
Theorem routeEquals_is_equivalence :
  (forall x, routeEquals x x = true)
  /\ (forall x y, routeEquals x y = routeEquals y x)
  /\ (forall x y z, routeEquals x y = true -> routeEquals y z = true ->
                    routeEquals x z = true).
Proof.
  split; [|split].
  - intros x. apply routeEquals_spec, fieldsIdentical_refl.
  - apply routeEquals_sym.
  - intros x y z Hxy Hyz. apply routeEquals_spec.
    apply routeEquals_spec in Hxy, Hyz. by apply (fieldsIdentical_trans x y z).
Qed.

(** X2. The fare comparison and the test of the scan do not depend on which
    of the two routes is given first, and a route compared with itself
    passes the fare comparison; the scan leaves the route itself out all
    the same. *)
Theorem comparison_is_symmetric order feed a b :
  (forall attr, fareRulesEqual attr a b = fareRulesEqual attr b a)
  /\ (forall attr, fareRulesEqual attr a a = true)
  /\ checkFareEquality order feed a b = checkFareEquality order feed b a
  /\ checkFareEquality order feed a a = true
  /\ equivalentTo order feed a b = equivalentTo order feed b a
  /\ equivalentTo order feed a a = false.
Proof.
  split; [intros; apply fareRulesEqual_sym|].
  split; [intros; apply fareRulesEqual_self|].
  split; [apply checkFareEquality_sym|].
  split.
  { unfold checkFareEquality. apply forallb_forall. intros e _.
    unfold fareAttrOk. rewrite fareRulesEqual_self. by destruct (existsb _ _). }
  split.
  - unfold equivalentTo.
    rewrite (checkFareEquality_sym order feed a b).
    rewrite (routeEquals_sym (route feed b) (route feed a)).
    f_equal. f_equal. apply bool_decide_ext. split; intros H ->; by apply H.
  - unfold equivalentTo. by rewrite bool_decide_eq_false_2 by (intros H; by apply H).
Qed.

(** X3. Whatever order the fare attributes are enumerated in, the fare
    comparison gives the same answer; and the test of the scan carries
    over a middle route: if [b] passes for [a] and [c] passes for [b], then
    [c], when it is another route than [a], passes for [a]. *)
Theorem comparison_ignores_enumeration order order' feed a b c :
  fairOrder order -> fairOrder order' ->
  checkFareEquality order feed a b = checkFareEquality order' feed a b
  /\ (equivalentTo order feed a b = true -> equivalentTo order feed b c = true ->
      a ≠ c -> equivalentTo order' feed a c = true).
Proof.
  intros Hf Hf'. split.
  - unfold checkFareEquality. apply forallb_perm.
    by rewrite (Hf FareEquality), (Hf' FareEquality).
  - intros Hab Hbc Hac.
    apply (equivalentTo_spec order feed a b Hf) in Hab as (Hn1 & Hfl1 & Hc1).
    apply (equivalentTo_spec order feed b c Hf) in Hbc as (Hn2 & Hfl2 & Hc2).
    apply (equivalentTo_spec order' feed a c Hf'). split; [done|]. split.
    + apply (fieldsIdentical_trans _ (route feed b)); done.
    + apply fareCompatible_all. intros k fa Hk.
      pose proof (proj1 (fareCompatible_all feed a b) Hc1 k fa Hk) as H1.
      pose proof (proj1 (fareCompatible_all feed b c) Hc2 k fa Hk) as H2.
      unfold pairable in *. by rewrite H1.
Qed.

Lemma comparison_ignores_enumeration_witness :
  checkFareEquality inMapOrder feedTriple 1 2 = checkFareEquality reversedOrder feedTriple 1 2
  /\ equivalentTo reversedOrder feedTriple 1 3 = true.
Proof.
  destruct (comparison_ignores_enumeration inMapOrder reversedOrder feedTriple 1 2 3
              inMapOrder_fair reversedOrder_fair) as [Hsame Htrans].
  split; [exact Hsame|].
  apply Htrans; [vm_compute; reflexivity|vm_compute; reflexivity|lia].
Defined.

(** X4. The fare comparison does not depend on the order in which the
    attribute holds its rules, an order the removal of rules changes: two
    attributes with the same rules in any order compare alike. *)
Theorem fare_comparison_ignores_rule_order attr attr' a b :
  FareAttribute.Rules attr ≡ₚ FareAttribute.Rules attr' ->
  fareRulesEqual attr a b = fareRulesEqual attr' a b.
Proof.
  intros Hperm. destruct (decide (a = b)) as [->|Hab].
  { by rewrite !fareRulesEqual_self. }
  apply eq_true_iff_eq. rewrite !fareRulesEqual_spec by done.
  unfold pairable, rulesOf, sideOf.
  assert (Hside : forall x,
    zones <$> List.filter (fun r => bool_decide (FareAttributeRule.Route r = x))
                (FareAttribute.Rules attr)
    ≡ₚ zones <$> List.filter (fun r => bool_decide (FareAttributeRule.Route r = x))
                   (FareAttribute.Rules attr')).
  { intros x. apply fmap_Permutation, filter_perm, Hperm. }
  by rewrite (Hside a), (Hside b).
Qed.

Lemma fare_comparison_ignores_rule_order_witness :
  fareRulesEqual (FareAttribute.mk "F" "2.50" [rule "z1" 1%nat; rule "z2" 2%nat]) 1 2
  = fareRulesEqual (FareAttribute.mk "F" "2.50" [rule "z2" 2%nat; rule "z1" 1%nat]) 1 2.
Proof.
  apply (fare_comparison_ignores_rule_order
           (FareAttribute.mk "F" "2.50" [rule "z1" 1%nat; rule "z2" 2%nat])
           (FareAttribute.mk "F" "2.50" [rule "z2" 2%nat; rule "z1" 1%nat]) 1%nat 2%nat).
  apply perm_swap.
Defined.

End ComparisonProperties.

(** * Further properties of Run: chunks, index, reference route *)

Module RunProperties.
Import RouteDuplicateRemover Spec Examples MoreExamples LoopFacts ChunkFacts CombineFacts
       MergeCondition PruneFacts WitnessTools.

Lemma forM_ext {A S} (f g : S -> A -> result S) l :
  (forall s x, f s x = g s x) -> forall s, forM f s l = forM g s l.
Proof.
  intros Hfg. induction l as [|x l IH]; intros s; [done|].
  cbn [forM]. rewrite Hfg. destruct (g s x) as [s'|msg]; cbn; [apply IH|done].
Qed.

Lemma runStep_chunks order c1 c2 trips st e :
  concat c1 = concat c2 ->
  runStep order c1 trips st e = runStep order c2 trips st e.
Proof. intros H. unfold runStep. by rewrite !getEquivalentRoutes_filter, H. Qed.

(** The chunking loop keeps the number of chunks and fills none beyond
    the chunk size. *)
Lemma chunk_loop_shape (c : nat) entries : forall full curc k,
  (length curc < c)%nat ->
  (length full * c + length curc + length entries <= (length full + 1 + k) * c)%nat ->
  Forall (fun ch => (length ch <= c)%nat) full ->
  forall chunks' cur',
    forM (chunkStep (Z.of_nat c)) (full ++ curc :: replicate k [], length full) entries
    = Ok (chunks', cur') ->
    length chunks' = (length full + 1 + k)%nat
    /\ Forall (fun ch => (length ch <= c)%nat) chunks'.
Proof.
  induction entries as [|[k0 p0] rest IH]; intros full curc k Hcur Hfit Hfull chunks' cur'.
  { cbn [forM]. intros [= <- <-]. split.
    - rewrite length_app. cbn [length]. rewrite length_replicate. lia.
    - apply Forall_app. split; [done|]. constructor; [lia|].
      apply Forall_replicate. cbn. lia. }
  cbn [forM]. unfold chunkStep at 1. cbn [fst snd].
  rewrite (list_lookup_middle full _ curc (length full) eq_refl).
  rewrite insert_middle. cbn [rbind].
  rewrite length_app. cbn [length] in *.
  case_bool_decide as Hc.
  - destruct k as [|k].
    + assert (rest = []) as -> by (destruct rest; [done|cbn in Hfit; nia]).
      cbn [forM replicate]. intros [= <- <-]. split.
      * rewrite length_app. cbn. lia.
      * apply Forall_app. split; [done|]. constructor; [|done].
        rewrite length_app. cbn. lia.
    + intros Hrun.
      destruct (IH (full ++ [curc ++ [p0]]) [] k) with (chunks' := chunks') (cur' := cur')
        as [Hlen Hall].
      * cbn. lia.
      * rewrite length_app. cbn [length]. nia.
      * apply Forall_app. split; [done|]. constructor; [|done].
        rewrite length_app. cbn. lia.
      * rewrite length_app. cbn [length].
        rewrite <- (assoc (++)). cbn.
        replace (length full + 1)%nat with (S (length full)) by lia. exact Hrun.
      * split; [|done]. rewrite Hlen, length_app. cbn. lia.
  - intros Hrun.
    destruct (IH full (curc ++ [p0]) k) with (chunks' := chunks') (cur' := cur')
      as [Hlen Hall]; try done.
    + rewrite length_app. cbn. lia.
    + rewrite length_app. cbn [length]. nia.
Qed.

(** The reference route is the first route of the list that no other
    route undercuts in Id length. *)
Lemma pickRef_loop feed l : forall pre c suf,
  Forall (fun r => (String.length (Route.Id (route feed c))
                    < String.length (Route.Id (route feed r)))%nat) pre ->
  Forall (fun r => (String.length (Route.Id (route feed c))
                    <= String.length (Route.Id (route feed r)))%nat) suf ->
  exists pre' suf',
    pre ++ c :: suf ++ l = pre' ++ foldl (shorter feed) c l :: suf'
    /\ Forall (fun r => (String.length (Route.Id (route feed (foldl (shorter feed) c l)))
                         < String.length (Route.Id (route feed r)))%nat) pre'
    /\ Forall (fun r => (String.length (Route.Id (route feed (foldl (shorter feed) c l)))
                         <= String.length (Route.Id (route feed r)))%nat) suf'.
Proof.
  induction l as [|x l IH]; intros pre c suf Hpre Hsuf.
  { exists pre, suf. by rewrite app_nil_r. }
  cbn [foldl]. unfold shorter at 2 4 6. case_bool_decide as Hx.
  - destruct (IH (pre ++ c :: suf) x []) as (pre' & suf' & Heq & H1 & H2).
    + apply Forall_app. split; [|constructor].
      * eapply Forall_impl; [exact Hpre|]. cbn. intros; lia.
      * done.
      * eapply Forall_impl; [exact Hsuf|]. cbn. intros; lia.
    + done.
    + exists pre', suf'. split; [|done]. rewrite <- Heq.
      by rewrite <- !(assoc (++)).
  - destruct (IH pre c (suf ++ [x])) as (pre' & suf' & Heq & H1 & H2).
    + done.
    + apply Forall_app. split; [done|]. constructor; [lia|done].
    + exists pre', suf'. split; [|done]. rewrite <- Heq.
      by rewrite <- !(assoc (++)).
Qed.

(** X5. The number of workers does not show in the result of Run: with
    the same enumeration orders, any two positive values of
    MaxParallelism give the same outcome, feed or panic. *)
Theorem workers_do_not_change_the_result order workers1 workers2 feed :
  fairOrder order -> 0 < workers1 -> 0 < workers2 ->
  Run order workers1 feed = Run order workers2 feed.
Proof.
  intros Hfair H1 H2. unfold Run.
  destruct (buildChunks_ok order workers1 Hfair H1 feed) as (c1 & -> & Hc1).
  destruct (buildChunks_ok order workers2 Hfair H2 feed) as (c2 & -> & Hc2).
  cbn [rbind].
  rewrite (forM_ext (runStep order c1 (tripsIndex order feed))
                    (runStep order c2 (tripsIndex order feed))); [done|].
  intros s x. apply runStep_chunks. by rewrite Hc1, Hc2.
Qed.

Lemma workers_do_not_change_the_result_witness :
  Run inMapOrder 1 feedTriple = Run inMapOrder 7 feedTriple.
Proof.
  apply (workers_do_not_change_the_result inMapOrder 1 7 feedTriple inMapOrder_fair);
    reflexivity.
Defined.

(** X6. With a positive number of workers the chunking loop of Run never
    runs out of chunks: it returns MaxParallelism chunks, none longer than
    the chunk size, which together hold every route of the collection
    once. *)
Theorem chunks_partition_the_routes order MaxParallelism feed :
  fairOrder order -> 0 < MaxParallelism ->
  exists chunks,
    buildChunks order MaxParallelism feed = Ok chunks
    /\ length chunks = Z.to_nat MaxParallelism
    /\ concat chunks ≡ₚ (map_to_list (Routes feed)).*2
    /\ Forall (fun ch =>
         Z.of_nat (length ch)
         <= Z.quot (Z.of_nat (size (Routes feed)) + MaxParallelism - 1) MaxParallelism)
              chunks.
Proof.
  intros Hfair Hw.
  destruct (buildChunks_ok order MaxParallelism Hfair Hw feed) as (chunks & Hrun & Hcat).
  exists chunks. split; [exact Hrun|].
  assert (Hperm : concat chunks ≡ₚ (map_to_list (Routes feed)).*2).
  { rewrite Hcat. by rewrite (Hfair RunChunks (Routes feed)). }
  cut (length chunks = Z.to_nat MaxParallelism
       /\ Forall (fun ch =>
            Z.of_nat (length ch)
            <= Z.quot (Z.of_nat (size (Routes feed)) + MaxParallelism - 1) MaxParallelism)
                 chunks); [tauto|].
  revert Hrun. unfold buildChunks. rewrite bool_decide_eq_false_2 by lia.
  set (entries := order RunChunks (Routes feed)).
  assert (Hlen : length entries = size (Routes feed)) by apply fair_length, Hfair.
  rewrite <- Hlen.
  set (n := Z.of_nat (length entries)).
  set (c := Z.quot (n + MaxParallelism - 1) MaxParallelism).
  assert (Hc : 0 <= c /\ n <= MaxParallelism * c).
  { unfold c. rewrite Z.quot_div_nonneg by lia.
    pose proof (Z.div_mod (n + MaxParallelism - 1) MaxParallelism ltac:(lia)).
    pose proof (Z.mod_pos_bound (n + MaxParallelism - 1) MaxParallelism ltac:(lia)).
    split; [apply Z.div_pos; lia|lia]. }
  destruct (decide (entries = [])) as [->|Hne].
  { cbn [forM rbind fst]. intros [= <-]. split.
    - apply length_replicate.
    - apply Forall_replicate. cbn. lia. }
  assert (Hn : 0 < n) by (unfold n; destruct entries; [done|cbn; lia]).
  destruct (Z.to_nat MaxParallelism) as [|k] eqn:Ek; [lia|].
  cbn [replicate].
  destruct (forM (chunkStep c) ([] :: replicate k [], 0%nat) entries) as [[ch cur]|msg] eqn:E;
    [|discriminate].
  cbn [rbind fst]. intros [= <-].
  destruct (chunk_loop_shape (Z.to_nat c) entries [] [] k) with (chunks' := ch) (cur' := cur)
    as [Hl Hall].
  - cbn. nia.
  - cbn [length]. unfold n in *. nia.
  - constructor.
  - rewrite Z2Nat.id by lia. exact E.
  - split; [cbn in Hl; lia|].
    eapply Forall_impl; [exact Hall|]. cbn. intros x Hx. lia.
Qed.

Lemma chunks_partition_the_routes_witness :
  exists chunks,
    buildChunks inMapOrder 2 feedTriple = Ok chunks
    /\ length chunks = 2%nat
    /\ Forall (fun ch => Z.of_nat (length ch) <= 2) chunks.
Proof.
  destruct (chunks_partition_the_routes inMapOrder 2 feedTriple inMapOrder_fair eq_refl)
    as (chunks & Hrun & Hlen & _ & Hall).
  exists chunks. split; [exact Hrun|]. split; [exact Hlen|exact Hall].
Defined.

(** X7. The index Run builds over the trips lists under each route the
    trips of the collection that are on it and no others, under a route
    without trips nothing, and no trip twice when no trip is filed twice. *)
Theorem trip_index_groups_by_route order feed :
  fairOrder order ->
  (forall r t, t ∈ tripsIndex order feed !!! r
               <-> exists k, Trips feed !! k = Some t /\ Trip.Route (trip feed t) = r)
  /\ (forall r, (forall k t, Trips feed !! k = Some t -> Trip.Route (trip feed t) ≠ r) ->
                tripsIndex order feed !!! r = [])
  /\ (distinctHandles (Trips feed) -> forall r, NoDup (tripsIndex order feed !!! r)).
Proof.
  intros Hfair. split; [|split].
  - intros r t. by apply tripsIndex_elem.
  - intros r Hnone. destruct (tripsIndex order feed !!! r) as [|t l] eqn:E; [done|].
    assert (Hin : t ∈ tripsIndex order feed !!! r) by (rewrite E; left).
    apply (tripsIndex_elem order Hfair) in Hin as (k & Hk & Hr).
    by destruct (Hnone k t Hk).
  - intros Hdist r. rewrite tripsIndex_spec.
    assert (Hnd : NoDup (order RunTrips (Trips feed)).*2).
    { unfold distinctHandles in Hdist. by rewrite (Hfair RunTrips (Trips feed)). }
    revert Hnd. generalize (order RunTrips (Trips feed)).
    induction l as [|e l IH]; cbn [List.filter fmap list_fmap]; [constructor|].
    intros Hnd. apply NoDup_cons in Hnd as [Hnotin Hnd].
    destruct (bool_decide _); [|by apply IH].
    cbn. apply NoDup_cons. split; [|by apply IH].
    intros Hin. apply Hnotin.
    apply list_elem_of_fmap in Hin as (e' & -> & Hin).
    apply list_elem_of_fmap. exists e'. split; [done|].
    apply list_elem_of_In. apply list_elem_of_In, filter_In in Hin. tauto.
Qed.

Lemma trip_index_groups_by_route_witness :
  3%nat ∈ tripsIndex reversedOrder feedTriple !!! 3%nat.
Proof.
  apply (proj1 (trip_index_groups_by_route reversedOrder feedTriple reversedOrder_fair)).
  exists "T3". split; reflexivity.
Defined.

(** X8. combineRoutes takes as reference the first route of the list that
    has an Id of the least length: the routes before it have longer Ids,
    the routes behind it Ids that are not shorter. *)
Theorem reference_is_first_of_least_length feed routes ref :
  pickRef feed routes = Ok ref ->
  exists pre suf,
    routes = pre ++ ref :: suf
    /\ Forall (fun r => (String.length (Route.Id (route feed ref))
                         < String.length (Route.Id (route feed r)))%nat) pre
    /\ Forall (fun r => (String.length (Route.Id (route feed ref))
                         <= String.length (Route.Id (route feed r)))%nat) suf.
Proof.
  unfold pickRef. destruct routes as [|r0 rest]; [discriminate|].
  intros [= <-]. cbn [foldl].
  assert (shorter feed r0 r0 = r0) as ->.
  { unfold shorter. by destruct (bool_decide _). }
  destruct (pickRef_loop feed rest [] r0 []) as (pre & suf & Heq & H1 & H2);
    [constructor|constructor|].
  exists pre, suf. split; [exact Heq|done].
Qed.

Lemma reference_is_first_of_least_length_witness :
  exists pre suf,
    [3; 2; 1; 2]%nat = pre ++ 1%nat :: suf
    /\ Forall (fun r => (String.length (Route.Id (route feedTriple 1))
                         < String.length (Route.Id (route feedTriple r)))%nat) pre
    /\ Forall (fun r => (String.length (Route.Id (route feedTriple 1))
                         <= String.length (Route.Id (route feedTriple r)))%nat) suf.
Proof.
  apply (reference_is_first_of_least_length feedTriple [3; 2; 1; 2]%nat 1%nat).
  reflexivity.
Defined.

End RunProperties.

(** * Further properties of Run: rule removal, what a run leaves alone *)

Module RemovalProperties.
Import RouteDuplicateRemover Spec LoopFacts FareRemovalFacts.

Lemma swapRemove_ok_iff l j : isOk (swapRemove l j) <-> (j < length l)%nat.
Proof.
  split.
  - destruct (swapRemove l j) as [l'|] eqn:E; [|done]. intros _.
    by apply swapRemove_range in E.
  - intros Hj. unfold swapRemove.
    destruct (lookup_lt_is_Some_2 l (length l - 1)%nat ltac:(lia)) as [x ->].
    by rewrite bool_decide_eq_true_2.
Qed.

(** The removal loop completes exactly when each index, at the time it is
    used, is inside the list, which every earlier removal made one
    shorter. *)
Lemma swap_loop_iff toDel : forall l,
  isOk (forM swapRemove l toDel)
  <-> forall i j, toDel !! i = Some j -> (j + i < length l)%nat.
Proof.
  induction toDel as [|j0 rest IH]; intros l.
  { split; [intros _ i j; by rewrite lookup_nil|done]. }
  cbn [forM]. split.
  - destruct (swapRemove l j0) as [l1|] eqn:E; cbn [rbind]; [|done].
    intros Hok. pose proof (swapRemove_range _ _ _ E) as Hr.
    pose proof (swapRemove_length _ _ _ E) as Hl.
    intros [|i] j; cbn.
    + intros [= <-]. lia.
    + intros Hj. apply (proj1 (IH l1) Hok) in Hj. lia.
  - intros Hall.
    pose proof (proj2 (swapRemove_ok_iff l j0)) as Hfirst.
    destruct (swapRemove l j0) as [l1|] eqn:E; cbn [rbind].
    + apply IH. intros i j Hj. pose proof (swapRemove_length _ _ _ E).
      specialize (Hall (S i) j Hj). lia.
    + apply Hfirst. specialize (Hall 0%nat j0 eq_refl). lia.
Qed.

Lemma toDelFrom_lower r l : forall s i j,
  toDelFrom r s l !! i = Some j -> (s <= j < s + length l)%nat.
Proof.
  induction l as [|fr l IH]; intros s i j; cbn [toDelFrom length].
  { by rewrite lookup_nil. }
  case_bool_decide.
  - destruct i as [|i]; cbn.
    + intros [= <-]. lia.
    + intros Hj. apply IH in Hj. lia.
  - intros Hj. apply IH in Hj. lia.
Qed.

Lemma toDelFrom_mono r l : forall s i i' j j',
  toDelFrom r s l !! i = Some j -> toDelFrom r s l !! i' = Some j' ->
  (i <= i')%nat -> (j <= j')%nat.
Proof.
  induction l as [|fr l IH]; intros s i i' j j'; cbn [toDelFrom].
  { by rewrite lookup_nil. }
  case_bool_decide.
  - destruct i as [|i], i' as [|i']; cbn.
    + intros [= <-] [= <-]. lia.
    + intros [= <-] Hj'. apply toDelFrom_lower in Hj'. lia.
    + lia.
    + intros Hj Hj' Hi. apply (IH (S s) i i'); [done|done|lia].
  - apply IH.
Qed.

(** X9. The loop of combineRoutes that removes the rules on a superseded
    route, by the indices collected beforehand, completes exactly when the
    last rule on the route has behind it at least as many rules as there
    are further rules on the route; otherwise it panics.  So a route with
    at most one rule in the attribute is always removed, and a route with
    two or more rules, one of them the last rule of the attribute, never. *)
Theorem rule_removal_completes_iff r rules :
  (isOk (forM swapRemove rules (toDelFrom r 0 rules))
   <-> forall j, last (toDelFrom r 0 rules) = Some j ->
         (j + length (toDelFrom r 0 rules) <= length rules)%nat)
  /\ ((length (toDelFrom r 0 rules) <= 1)%nat ->
      isOk (forM swapRemove rules (toDelFrom r 0 rules)))
  /\ ((2 <= length (toDelFrom r 0 rules))%nat ->
      last (toDelFrom r 0 rules) = Some (length rules - 1)%nat ->
      ~ isOk (forM swapRemove rules (toDelFrom r 0 rules))).
Proof.
  assert (Hiff : isOk (forM swapRemove rules (toDelFrom r 0 rules))
   <-> forall j, last (toDelFrom r 0 rules) = Some j ->
         (j + length (toDelFrom r 0 rules) <= length rules)%nat).
  { rewrite swap_loop_iff. split.
    - intros Hall j Hlast. rewrite last_lookup in Hlast.
      pose proof (lookup_lt_Some _ _ _ Hlast).
      specialize (Hall _ _ Hlast). lia.
    - intros Hlast i j Hj.
      pose proof (lookup_lt_Some _ _ _ Hj) as Hi.
      destruct (lookup_lt_is_Some_2 (toDelFrom r 0 rules)
                  (pred (length (toDelFrom r 0 rules))) ltac:(lia)) as [jl Hjl].
      pose proof (toDelFrom_mono r rules 0 i _ j jl Hj Hjl ltac:(lia)).
      rewrite <- last_lookup in Hjl. specialize (Hlast jl Hjl). lia. }
  split; [exact Hiff|]. split.
  - intros Hone. apply Hiff. intros j Hlast. rewrite last_lookup in Hlast.
    apply toDelFrom_lower in Hlast. lia.
  - intros Htwo Hlast Hok. apply (proj1 Hiff Hok) in Hlast.
    assert (length rules ≠ 0)%nat; [|lia].
    intros Hz. destruct rules; [cbn in Htwo; lia|done].
Qed.

End RemovalProperties.

Module FrameProperties.
Import RouteDuplicateRemover Spec Frame Examples MoreExamples LoopFacts ChunkFacts
       FareRemovalFacts CombineFacts FarePassFacts MergeCondition PruneFacts
       SecondRunFacts WitnessTools.

Lemma filter_sublist {A} (f : A -> bool) l : List.filter f l `sublist_of` l.
Proof.
  induction l as [|x l IH]; cbn; [constructor|].
  destruct (f x); by constructor.
Qed.

Lemma touchesOnly_refl f : touchesOnlyRoutesAndFares f f.
Proof.
  unfold touchesOnlyRoutesAndFares, onlyRouteChanged, onlyRulesChanged.
  repeat split; try done.
  - intros t. by destruct (tripAt f !!! t).
  - by destruct (fareAt f !!! p).
Qed.

Lemma touchesOnly_trans f g h :
  touchesOnlyRoutesAndFares f g -> touchesOnlyRoutesAndFares g h ->
  touchesOnlyRoutesAndFares f h.
Proof.
  unfold touchesOnlyRoutesAndFares, onlyRouteChanged, onlyRulesChanged.
  intros (A1 & A2 & A3 & A4 & A5 & A6 & A7 & A8 & A9 & A10 & A11 & A12 & A13 & A14)
         (B1 & B2 & B3 & B4 & B5 & B6 & B7 & B8 & B9 & B10 & B11 & B12 & B13 & B14).
  repeat split; try congruence.
  - by transitivity (Routes g).
  - by transitivity (FareAttributes g).
  - intros t. rewrite (B13 t) at 1. rewrite (A13 t). done.
  - rewrite (proj1 (B14 p)) at 1. rewrite (proj1 (A14 p)). done.
  - transitivity (FareAttribute.Rules (fareAt g !!! p)); [apply B14|apply A14].
Qed.

Lemma repoint_touches r ref feed t : touchesOnlyRoutesAndFares feed (repoint r ref feed t).
Proof.
  unfold repoint. case_bool_decide; [|apply touchesOnly_refl].
  pose proof (touchesOnly_refl feed) as Hrefl.
  unfold touchesOnlyRoutesAndFares, onlyRouteChanged in *. feed_fields.
  repeat split; try tauto.
  - intros t'. destruct (decide (t' = t)) as [->|Hne].
    + rewrite (lookup_total_insert_eq (tripAt feed)). unfold trip.
      by destruct (tripAt feed !!! t).
    + rewrite (lookup_total_insert_ne (tripAt feed)) by done.
      by destruct (tripAt feed !!! t').
  - by destruct (fareAt feed !!! p).
  - done.
Qed.

Lemma combineFare_touches r feed e feed' :
  combineFare r feed e = Ok feed' -> touchesOnlyRoutesAndFares feed feed'.
Proof.
  unfold combineFare. destruct (FareAttributes feed !! fst e) as [p'|] eqn:Hk.
  2:{ intros [= <-]. apply touchesOnly_refl. }
  destruct (forM swapRemove _ _) as [rules'|] eqn:E; cbn [rbind]; [|discriminate].
  apply removal_ok in E.
  assert (Hsub : rules' ⊆+ FareAttribute.Rules (fare feed (snd e))).
  { rewrite E. apply sublist_submseteq, filter_sublist. }
  pose proof (touchesOnly_refl feed) as Hrefl.
  assert (Hrules : onlyRulesChanged (fareAt feed)
            (<[snd e := FareAttribute.setRules rules' (fare feed (snd e))]> (fareAt feed))).
  { intros p. destruct (decide (p = snd e)) as [->|Hne].
    - rewrite (lookup_total_insert_eq (fareAt feed)). done.
    - rewrite (lookup_total_insert_ne (fareAt feed)) by done.
      split; [by destruct (fareAt feed !!! p)|done]. }
  destruct (_ && _); intros [= <-];
    unfold touchesOnlyRoutesAndFares in *; feed_fields; repeat split; try tauto.
  - apply delete_subseteq.
  - apply Hrules.
  - apply Hrules.
  - apply Hrules.
  - apply Hrules.
Qed.

Section WithOrder.
Variable order : Order.

Lemma combineOne_touches ref trips feed r feed' :
  combineOne order ref trips feed r = Ok feed' -> touchesOnlyRoutesAndFares feed feed'.
Proof.
  unfold combineOne. case_bool_decide.
  { intros [= <-]. apply touchesOnly_refl. }
  set (feed1 := foldl (repoint r ref) feed (trips !!! r)).
  assert (H1 : touchesOnlyRoutesAndFares feed feed1).
  { unfold feed1. generalize (trips !!! r). intros l.
    induction l as [|t l IH] using rev_ind; [apply touchesOnly_refl|].
    rewrite foldl_app. cbn [foldl].
    eapply touchesOnly_trans; [exact IH|apply repoint_touches]. }
  destruct (forM (combineFare r) feed1 _) as [feed2|] eqn:E; cbn [rbind]; [|discriminate].
  assert (H2 : touchesOnlyRoutesAndFares feed feed2).
  { revert E. apply forM_invariant; [exact H1|].
    intros s x s' _ Hs Hx. eapply touchesOnly_trans; [exact Hs|].
    by apply (combineFare_touches r s x). }
  intros [= <-]. eapply touchesOnly_trans; [exact H2|].
  pose proof (touchesOnly_refl feed2) as Hrefl.
  unfold touchesOnlyRoutesAndFares in *. feed_fields. split_and!; try tauto.
  apply delete_subseteq.
Qed.

Lemma combineRoutes_touches feed routes trips feed' :
  combineRoutes order feed routes trips = Ok feed' -> touchesOnlyRoutesAndFares feed feed'.
Proof.
  unfold combineRoutes. destruct (pickRef feed routes) as [ref|]; cbn [rbind]; [|discriminate].
  apply forM_invariant; [apply touchesOnly_refl|].
  intros s x s' _ Hs Hx. eapply touchesOnly_trans; [exact Hs|].
  by apply (combineOne_touches ref trips s x).
Qed.

Lemma runStep_touches chunks trips st e st' :
  runStep order chunks trips st e = Ok st' ->
  touchesOnlyRoutesAndFares (fst st) (fst st').
Proof.
  unfold runStep. destruct (Routes (fst st) !! fst e).
  2:{ intros [= <-]. apply touchesOnly_refl. }
  case_bool_decide. { intros [= <-]. apply touchesOnly_refl. }
  case_bool_decide. 2:{ intros [= <-]. apply touchesOnly_refl. }
  destruct (combineRoutes _ _ _ _) as [feed'|] eqn:E; cbn [rbind]; [|discriminate].
  intros [= <-]. cbn [fst]. by apply combineRoutes_touches in E.
Qed.

End WithOrder.

(** X10. A run of the route duplicate remover that completes has left the
    agencies, stops, services, shapes, the Trips collection and every
    route struct as they were; it has only taken entries out of Routes and
    FareAttributes, set the Route field of trips, and taken rules out of
    fare attributes, adding none. *)
Theorem run_touches_only_routes_and_fares order MaxParallelism feed feed' :
  Run order MaxParallelism feed = Ok feed' ->
  touchesOnlyRoutesAndFares feed feed'.
Proof.
  unfold Run. destruct (buildChunks order MaxParallelism feed) as [chunks|];
    cbn [rbind]; [|discriminate].
  destruct (forM _ _ _) as [st|] eqn:E; cbn [rbind]; [|discriminate].
  intros [= <-]. revert E.
  apply (forM_invariant _ (fun st => touchesOnlyRoutesAndFares feed (fst st)));
    [apply touchesOnly_refl|].
  intros s x s' _ Hs Hx. eapply touchesOnly_trans; [exact Hs|].
  by apply (runStep_touches order chunks (tripsIndex order feed) s x).
Qed.

Lemma run_touches_only_routes_and_fares_witness :
  touchesOnlyRoutesAndFares feedR1R22 feedR1R22_merged.
Proof.
  apply (run_touches_only_routes_and_fares inMapOrder 4 feedR1R22 feedR1R22_merged).
  vm_compute. reflexivity.
Defined.

(** X11. A feed in which no two listed routes agree in all compared fields
    and in their fares comes back from Run as it went in: an empty Routes
    collection and a single route are cases of this. *)
Theorem run_keeps_a_feed_without_duplicates order MaxParallelism feed :
  fairOrder order -> 0 < MaxParallelism ->
  (forall kx x ky y, Routes feed !! kx = Some x -> Routes feed !! ky = Some y ->
     x ≠ y ->
     ~ (fieldsIdentical (route feed x) (route feed y) /\ fareCompatible feed x y)) ->
  Run order MaxParallelism feed = Ok feed.
Proof.
  intros Hfair Hw Hnodup. unfold Run.
  destruct (buildChunks_ok order MaxParallelism Hfair Hw feed) as (chunks & -> & Hcat).
  cbn [rbind]. rewrite forM_skip; [done|].
  intros [k r] Hin. apply (fair_elem order RunRoutes _ k r Hfair) in Hin.
  unfold runStep. cbn [fst snd]. rewrite Hin.
  rewrite bool_decide_eq_false_2 by set_solver.
  rewrite getEquivalentRoutes_filter, Hcat.
  rewrite filter_nil_false; [done|].
  intros y Hy. apply list_elem_of_fmap in Hy as ([ky y'] & -> & Hy). cbn [snd].
  apply (fair_elem order RunChunks _ ky y' Hfair) in Hy.
  destruct (equivalentTo order feed r y') eqn:E; [|done]. exfalso.
  apply (equivalentTo_spec order feed r y' Hfair) in E as (Hne & Hfl & Hfc).
  apply (Hnodup k r ky y' Hin Hy); [done|]. split; [|done].
  by apply fieldsIdentical_sym.
Qed.

Lemma run_keeps_a_feed_without_duplicates_witness :
  Run reversedOrder 3 feedDistinct = Ok feedDistinct.
Proof.
  apply (run_keeps_a_feed_without_duplicates reversedOrder 3 feedDistinct
           reversedOrder_fair eq_refl).
  intros kx x ky y Hx Hy Hne [Hf _].
  apply elem_of_map_to_list in Hx, Hy. vm_compute in Hx, Hy.
  destruct Hf as (_ & Hshort & _). revert Hshort.
  repeat (apply elem_of_cons in Hx as [Hx|Hx];
          [injection Hx as -> ->|]); try by apply elem_of_nil in Hx.
  all: repeat (apply elem_of_cons in Hy as [Hy|Hy];
          [injection Hy as -> ->|]); try by apply elem_of_nil in Hy.
  all: try done.
Defined.

(** X12. When Run completes on a feed whose routes and fare attributes are
    filed under their own Ids, it has left no pair to merge: among the
    routes still listed, none passes the test of the scan for another. *)
Theorem run_leaves_no_equivalent_routes order MaxParallelism feed feed1 :
  fairOrder order -> 0 < MaxParallelism ->
  routesById feed -> faresById feed ->
  Run order MaxParallelism feed = Ok feed1 ->
  forall order' kx x ky y,
    fairOrder order' ->
    Routes feed1 !! kx = Some x -> Routes feed1 !! ky = Some y ->
    equivalentTo order' feed1 x y = false.
Proof.
  intros Hfair Hw HR HF Hrun order' kx x ky y Hfair' Hx Hy.
  destruct (first_run_leaves_no_duplicates order MaxParallelism Hfair Hw feed HR HF
              feed1 Hrun) as (D & Hrp & Hfp & Hnone).
  destruct (equivalentTo order' feed1 x y) eqn:E; [|done]. exfalso.
  destruct (pruned_alive feed D feed1 kx x Hrp Hx) as [_ HxD].
  destruct (pruned_alive feed D feed1 ky y Hrp Hy) as [_ HyD].
  apply (equivalentTo_pruned order' feed D feed1 x y Hfair' Hrp Hfp HxD HyD) in E
    as [Hne Hdup].
  apply (Hnone kx x ky y Hx Hy); [done|exact Hdup].
Qed.

Lemma run_leaves_no_equivalent_routes_witness :
  exists feed1,
    Run inMapOrder 2 feedTriple = Ok feed1
    /\ forall kx x ky y,
         Routes feed1 !! kx = Some x -> Routes feed1 !! ky = Some y ->
         equivalentTo reversedOrder feed1 x y = false.
Proof.
  assert (HR : routesById feedTriple).
  { intros k p Hk. apply elem_of_map_to_list in Hk. vm_compute in Hk.
    repeat (apply elem_of_cons in Hk as [Hk|Hk]; [injection Hk as -> ->; reflexivity|]).
    by apply elem_of_nil in Hk. }
  assert (HF : faresById feedTriple).
  { intros k p Hk. apply elem_of_map_to_list in Hk. vm_compute in Hk.
    repeat (apply elem_of_cons in Hk as [Hk|Hk]; [injection Hk as -> ->; reflexivity|]).
    by apply elem_of_nil in Hk. }
  destruct (Run inMapOrder 2 feedTriple) as [feed1|msg] eqn:E;
    [|vm_compute in E; discriminate E].
  exists feed1. split; [reflexivity|].
  intros kx x ky y.
  exact (run_leaves_no_equivalent_routes inMapOrder 2 feedTriple feed1 inMapOrder_fair
           eq_refl HR HF E reversedOrder kx x ky y reversedOrder_fair).
Defined.

(** X13. The fare rules never dangle: when every rule of every listed fare
    attribute is on a listed route before a run, on a feed whose routes
    and fare attributes are filed under their own Ids, the same holds
    after the run. *)
Theorem fare_rules_keep_resolving order MaxParallelism feed feed1 :
  fairOrder order -> 0 < MaxParallelism ->
  routesById feed -> faresById feed ->
  fareRulesResolve feed ->
  Run order MaxParallelism feed = Ok feed1 ->
  fareRulesResolve feed1.
Proof.
  intros Hfair Hw HR HF Hres Hrun k fa fr Hk Hfr.
  destruct (first_run_leaves_no_duplicates order MaxParallelism Hfair Hw feed HR HF
              feed1 Hrun) as (D & Hrp & Hfp & _).
  destruct Hfp as (Hsub & _ & Hrules & _).
  assert (Hk0 : FareAttributes feed !! k = Some fa)
    by (eapply lookup_weaken; [exact Hk|exact Hsub]).
  rewrite (Hrules k fa Hk0) in Hfr.
  unfold rulesOffRoutes in Hfr.
  apply list_elem_of_In, filter_In in Hfr as [Hfr HnD].
  apply bool_decide_eq_true in HnD. apply list_elem_of_In in Hfr.
  specialize (Hres k fa fr Hk0 Hfr). unfold routeListed in *.
  apply list_elem_of_fmap in Hres as ([kr p] & Hp & Hin). cbn [snd] in Hp. subst p.
  apply elem_of_map_to_list in Hin.
  apply list_elem_of_fmap. exists (kr, FareAttributeRule.Route fr). split; [done|].
  apply elem_of_map_to_list. apply (proj2 Hrp). by split.
Qed.

Lemma fare_rules_keep_resolving_witness :
  exists feed1, Run inMapOrder 2 feedTriple = Ok feed1 /\ fareRulesResolve feed1.
Proof.
  assert (HR : routesById feedTriple).
  { intros k p Hk. apply elem_of_map_to_list in Hk. vm_compute in Hk.
    repeat (apply elem_of_cons in Hk as [Hk|Hk]; [injection Hk as -> ->; reflexivity|]).
    by apply elem_of_nil in Hk. }
  assert (HF : faresById feedTriple).
  { intros k p Hk. apply elem_of_map_to_list in Hk. vm_compute in Hk.
    repeat (apply elem_of_cons in Hk as [Hk|Hk]; [injection Hk as -> ->; reflexivity|]).
    by apply elem_of_nil in Hk. }
  assert (HS : fareRulesResolve feedTriple).
  { intros k fa fr Hk Hfr. apply elem_of_map_to_list in Hk. vm_compute in Hk.
    apply elem_of_cons in Hk as [Hk|Hk]; [|by apply elem_of_nil in Hk].
    injection Hk as -> ->. unfold routeListed.
    change (FareAttribute.Rules (fare feedTriple 1))
      with [rule "z1" 1%nat; rule "z1" 2%nat; rule "z1" 3%nat] in Hfr.
    repeat (apply elem_of_cons in Hfr as [->|Hfr]; [vm_compute; set_solver|]).
    by apply elem_of_nil in Hfr. }
  destruct (Run inMapOrder 2 feedTriple) as [feed1|msg] eqn:E;
    [|vm_compute in E; discriminate E].
  exists feed1. split; [reflexivity|].
  exact (fare_rules_keep_resolving inMapOrder 2 feedTriple feed1 inMapOrder_fair
           eq_refl HR HF HS E).
Defined.

End FrameProperties.

(** * Further properties of the identifier minimiser *)

Module MinimizerProperties.
Import IDMinimizer Spec Numerals Examples LoopFacts NumeralFacts MinimizeFacts
       MinimizerFacts WitnessTools.

Lemma length_append s1 s2 :
  String.length (s1 +:+ s2) = (String.length s1 + String.length s2)%nat.
Proof. induction s1 as [|c s1 IH]; simpl; [done|by f_equal]. Qed.

Lemma allDigits_app base s1 s2 :
  allDigits base s1 -> allDigits base s2 -> allDigits base (s1 +:+ s2).
Proof.
  induction s1 as [|c s1 IH]; [done|]. change (String c s1 +:+ s2) with (String c (s1 +:+ s2)).
  cbn [allDigits]. intros [Hc H1] H2. split; auto.
Qed.

Lemma formatBits_length base fuel : forall u (k : nat),
  2 <= base -> 0 <= u < base ^ Z.of_nat k -> (1 <= k)%nat ->
  (String.length (formatBits fuel u base) <= k)%nat.
Proof.
  induction fuel as [|fuel IH]; intros u k Hb Hu Hk; cbn [formatBits].
  { cbn. lia. }
  destruct (u <? base) eqn:E; [cbn; lia|].
  apply Z.ltb_ge in E. rewrite length_append. cbn [String.length].
  destruct k as [|[|k]]; [lia| |].
  - cbn in Hu. lia.
  - assert (String.length (formatBits fuel (u / base) base) <= S k)%nat; [|lia].
    apply IH; [done| |lia]. split; [apply Z.div_pos; lia|].
    apply Z.div_lt_upper_bound; [lia|].
    rewrite (Nat2Z.inj_succ (S k)), Z.pow_succ_r in Hu by lia. lia.
Qed.

Lemma formatBits_digits base fuel : forall u,
  2 <= base <= 36 -> 0 <= u -> allDigits base (formatBits fuel u base).
Proof.
  induction fuel as [|fuel IH]; intros u Hb Hu; cbn [formatBits]; [done|].
  destruct (u <? base) eqn:E.
  - apply Z.ltb_lt in E. cbn [allDigits]. rewrite digitVal_digit by lia. split; [lia|done].
  - apply Z.ltb_ge in E. apply allDigits_app.
    + apply IH; [done|]. apply Z.div_pos; lia.
    + cbn [allDigits]. pose proof (Z.mod_pos_bound u base ltac:(lia)).
      rewrite digitVal_digit by lia. split; [lia|done].
Qed.

Lemma formatBits_nonempty base fuel u : formatBits (S fuel) u base ≠ "".
Proof.
  cbn [formatBits]. destruct (u <? base); [done|].
  destruct (formatBits fuel (u / base) base); done.
Qed.

Lemma numerals_short base k n id :
  2 <= base <= 36 -> (1 <= k)%nat -> Z.of_nat n < base ^ Z.of_nat k ->
  id ∈ numerals base n -> shortId base k id.
Proof.
  intros Hb Hk Hn Hid. unfold numerals in Hid.
  apply list_elem_of_fmap in Hid as (i & -> & Hi). apply elem_of_seqZ in Hi.
  unfold shortId, numeral. split; [apply formatBits_nonempty|]. split.
  - apply formatBits_length; lia.
  - apply formatBits_digits; lia.
Qed.

Lemma minimized_short {A} `{Inhabited A} (getId : A -> string) setId base k old new mem mem' :
  2 <= base <= 36 -> (1 <= k)%nat ->
  minimized getId setId base old new mem mem' -> shortIds base k old new.
Proof.
  intros Hb Hk (_ & Hdom & _) Hsize id Hid.
  rewrite Hdom in Hid. apply elem_of_list_to_set in Hid.
  by apply (numerals_short base k (size old)).
Qed.

(** X14. The identifiers the minimiser files a collection under are as
    short as the base allows: for a collection of fewer than Base ^ k
    entities each new identifier is a non-empty string of at most k
    characters, all of them among the first Base of the digits 0-9a-z. *)
Theorem new_identifiers_are_short order mz feed (k : nat) :
  fairOrder order -> 2 <= Base mz <= 36 -> countable64 feed -> (1 <= k)%nat ->
  exists f',
    Run order mz feed = Ok f'
    /\ shortIds (Base mz) k (Trips feed) (Trips f')
    /\ shortIds (Base mz) k (Stops feed) (Stops f')
    /\ shortIds (Base mz) k (Routes feed) (Routes f')
    /\ shortIds (Base mz) k (Shapes feed) (Shapes f')
    /\ shortIds (Base mz) k (Agencies feed) (Agencies f')
    /\ shortIds (Base mz) k (Services feed) (Services f').
Proof.
  intros Hfair Hb Hc Hk.
  destruct (Run_minimized order mz feed Hfair Hb Hc)
    as (f' & Hrun & M1 & M2 & M3 & M4 & M5 & M6 & _).
  exists f'. split; [exact Hrun|].
  split_and!; eapply minimized_short; eauto.
Qed.

Lemma new_identifiers_are_short_witness :
  exists f',
    Run inMapOrder (mk 10) feedIds = Ok f'
    /\ forall id, id ∈ dom (Trips f') -> shortId 10 1 id.
Proof.
  assert (HC : countable64 feedIds)
    by (apply (bool_decide_unpack _); vm_compute; exact I).
  assert (Hbase : 2 <= Base (mk 10) <= 36) by (cbn; lia).
  destruct (new_identifiers_are_short inMapOrder (mk 10) feedIds 1 inMapOrder_fair
              Hbase HC (le_n 1)) as (f' & Hrun & Htrips & _).
  exists f'. split; [exact Hrun|]. apply Htrips. vm_compute. reflexivity.
Defined.

Section Collection.
Context {A : Type} `{Inhabited A}.
Variable setId : string -> A -> A.

Lemma minimizeIds_illegal_base base entries (mem : gmap ptr A) :
  ~ 2 <= base <= 36 -> entries ≠ [] ->
  minimizeIds setId base entries mem = Panic "strconv: illegal AppendInt/FormatInt base".
Proof.
  intros Hb Hne. destruct entries as [|e rest]; [done|].
  unfold minimizeIds. cbn [forM]. unfold renumber at 1. cbn [fst snd].
  unfold FormatInt. rewrite bool_decide_eq_true_2 by lia. done.
Qed.

Lemma minimizeIds_nothing base (mem : gmap ptr A) :
  minimizeIds setId base [] mem = Ok (∅, mem).
Proof. done. Qed.

End Collection.

Lemma fair_nil order s (m : gmap string ptr) :
  fairOrder order -> (order s m = [] <-> m = ∅).
Proof.
  intros Hfair. split.
  - intros Hnil. apply map_size_empty_iff.
    by rewrite <- (fair_length order s m Hfair), Hnil.
  - intros ->. by apply fair_empty.
Qed.

(** X15. A base outside 2..36 (the zero value of IDMinimizer has Base 0)
    makes Run panic in the first identifier it formats: Run returns, with
    the feed as it was, only when all six collections are empty. *)
Theorem illegal_base_panics_unless_nothing_to_do order mz feed :
  fairOrder order -> ~ 2 <= Base mz <= 36 ->
  (nothingToRenumber feed -> Run order mz feed = Ok feed)
  /\ (~ nothingToRenumber feed ->
      Run order mz feed = Panic "strconv: illegal AppendInt/FormatInt base").
Proof.
  intros Hfair Hb.
  assert (Hstep : forall site (coll : gmap string ptr) {B} `{Inhabited B}
                    (setId : string -> B -> B) (mem : gmap ptr B),
    (coll = ∅ -> minimizeIds setId (Base mz) (order site coll) mem = Ok (∅, mem))
    /\ (coll ≠ ∅ -> minimizeIds setId (Base mz) (order site coll) mem
                    = Panic "strconv: illegal AppendInt/FormatInt base")).
  { intros site coll B HB setId mem. split.
    - intros ->. by rewrite (fair_empty order site Hfair).
    - intros Hne. apply minimizeIds_illegal_base; [done|].
      intros Hnil. by apply (fair_nil order site coll Hfair) in Hnil. }
  unfold nothingToRenumber.
  destruct feed as [ag ro tr st se sh fa agA roA trA stA seA shA faA].
  unfold Run, minimizeTripIds, minimizeStopIds, minimizeRouteIds, minimizeShapeIds,
    minimizeAgencyIds, minimizeServiceIds. feed_reduce.
  destruct (decide (tr = ∅)) as [->|H1].
  2:{ split; [intros (? & _); done|]. intros _.
      by rewrite (proj2 (Hstep MinTrips tr _ _ Trip.setId trA) H1). }
  rewrite (proj1 (Hstep MinTrips ∅ _ _ Trip.setId trA) eq_refl). feed_reduce.
  destruct (decide (st = ∅)) as [->|H2].
  2:{ split; [intros (_ & ? & _); done|]. intros _.
      by rewrite (proj2 (Hstep MinStops st _ _ Stop.setId stA) H2). }
  rewrite (proj1 (Hstep MinStops ∅ _ _ Stop.setId stA) eq_refl). feed_reduce.
  destruct (decide (ro = ∅)) as [->|H3].
  2:{ split; [intros (_ & _ & ? & _); done|]. intros _.
      by rewrite (proj2 (Hstep MinRoutes ro _ _ Route.setId roA) H3). }
  rewrite (proj1 (Hstep MinRoutes ∅ _ _ Route.setId roA) eq_refl). feed_reduce.
  destruct (decide (sh = ∅)) as [->|H4].
  2:{ split; [intros (_ & _ & _ & ? & _); done|]. intros _.
      by rewrite (proj2 (Hstep MinShapes sh _ _ Shape.setId shA) H4). }
  rewrite (proj1 (Hstep MinShapes ∅ _ _ Shape.setId shA) eq_refl). feed_reduce.
  destruct (decide (ag = ∅)) as [->|H5].
  2:{ split; [intros (_ & _ & _ & _ & ? & _); done|]. intros _.
      by rewrite (proj2 (Hstep MinAgencies ag _ _ Agency.setId agA) H5). }
  rewrite (proj1 (Hstep MinAgencies ∅ _ _ Agency.setId agA) eq_refl). feed_reduce.
  destruct (decide (se = ∅)) as [->|H6].
  2:{ split; [intros (_ & _ & _ & _ & _ & ?); done|]. intros _.
      by rewrite (proj2 (Hstep MinServices se _ _ Service.setId seA) H6). }
  rewrite (proj1 (Hstep MinServices ∅ _ _ Service.setId seA) eq_refl). feed_reduce.
  split; [done|]. intros Hn. destruct Hn. done.
Qed.

Lemma illegal_base_panics_unless_nothing_to_do_witness :
  Run inMapOrder (mk 0) feedIds = Panic "strconv: illegal AppendInt/FormatInt base".
Proof.
  assert (Hbase : ~ 2 <= Base (mk 0) <= 36) by (cbn; lia).
  apply (proj2 (illegal_base_panics_unless_nothing_to_do inMapOrder (mk 0) feedIds
                  inMapOrder_fair Hbase)).
  intros (_ & _ & Hr & _). discriminate Hr.
Defined.

(** References read through the handles survive a renumbering of the
    trips and of the routes that leaves the fare attributes alone. *)
Lemma references_survive_renumbering base feed f' :
  minimized Trip.Id Trip.setId base (Trips feed) (Trips f') (tripAt feed) (tripAt f') ->
  minimized Route.Id Route.setId base (Routes feed) (Routes f') (routeAt feed) (routeAt f') ->
  FareAttributes f' = FareAttributes feed -> fareAt f' = fareAt feed ->
  referencesResolve feed -> referencesResolve f'.
Proof.
  intros (Hsame1 & _ & Hid1 & _) (Hsame3 & _) HFA HfA [Htrips Hfares].
  assert (Hlisted : forall r, routeListed feed r -> routeListed f' r).
  { intros r. unfold routeListed, sameEntities in *. by rewrite Hsame3. }
  split.
  - intros k t Hk. cbn beta.
    assert (Hin : t ∈ (map_to_list (Trips feed)).*2).
    { unfold sameEntities in Hsame1. rewrite <- Hsame1.
      apply list_elem_of_fmap. exists (k, t). split; [done|].
      by apply elem_of_map_to_list. }
    apply list_elem_of_fmap in Hin as ([k0 t0] & -> & Hin). cbn [snd] in *.
    apply elem_of_map_to_list in Hin.
    specialize (Htrips k0 t0 Hin). cbn beta in Htrips.
    apply Hlisted. unfold trip in *. rewrite (Hid1 t0).
    by destruct (tripAt feed !!! t0).
  - rewrite HFA. intros k fa Hk. specialize (Hfares k fa Hk). cbn beta in *.
    unfold fare in *. rewrite HfA.
    eapply Forall_impl; [exact Hfares|]. intros fr. apply Hlisted.
Qed.

(** X16. The minimiser breaks no reference: when every trip's route and
    every fare rule's route is in the Routes collection before Run, it is
    so afterwards. *)
Theorem minimiser_keeps_references_resolving order mz feed :
  fairOrder order -> 2 <= Base mz <= 36 -> countable64 feed ->
  referencesResolve feed ->
  exists f', Run order mz feed = Ok f' /\ referencesResolve f'.
Proof.
  intros Hfair Hb Hc Hres.
  destruct (Run_minimized order mz feed Hfair Hb Hc)
    as (f' & Hrun & M1 & _ & M3 & _ & _ & _ & HFA & HfA).
  exists f'. split; [exact Hrun|].
  by apply (references_survive_renumbering (Base mz) feed f').
Qed.

Lemma minimiser_keeps_references_resolving_witness :
  exists f', Run reversedOrder (mk 36) feedIds = Ok f' /\ referencesResolve f'.
Proof.
  assert (HC : countable64 feedIds)
    by (apply (bool_decide_unpack _); vm_compute; exact I).
  assert (Hbase : 2 <= Base (mk 36) <= 36) by (cbn; lia).
  assert (HR : referencesResolve feedIds)
    by (apply (bool_decide_unpack _); vm_compute; exact I).
  exact (minimiser_keeps_references_resolving reversedOrder (mk 36) feedIds
           reversedOrder_fair Hbase HC HR).
Defined.

End MinimizerProperties.

(** * Further properties of the driver *)

Module DriverProperties.
Import Main Driver Examples MoreExamples.

Lemma arg_empty s : String.length s = 0%nat <-> s = "".
Proof. destruct s; cbn; split; intros; congruence. Qed.

Lemma optional_sublist {A} (b : bool) (x : A) : (if b then [x] else []) `sublist_of` [x].
Proof. destruct b; [done|apply sublist_nil_l]. Qed.

Lemma elem_optional {A} (b : bool) (x y : A) :
  x ∈ (if b then [y] else []) <-> b = true /\ x = y.
Proof. destruct b; [rewrite elem_of_cons|]; rewrite ?elem_of_nil; naive_solver. Qed.

(** X17. The processors run in one fixed order, whatever flags are given:
    the list main builds is cut out of the list of all nine in order, with
    the identifier minimiser last.  The shape remeasurer is put in front
    of a shape minimiser or shape duplicate remover, and when both
    identifier flags are given the numerical one wins. *)
Theorem processors_run_in_fixed_order fl :
  minzers fl `sublist_of` allProcessors (if useIDMinimizerNum fl then 10 else 36)
  /\ (useShapeMinimizer fl = true \/ useRedShapeRemover fl = true ->
      ShapeRemeasurer ∈ minzers fl)
  /\ (forall b, IDMinimizer_ b ∈ minzers fl
                <-> (useIDMinimizerNum fl = true /\ b = 10)
                    \/ (useIDMinimizerNum fl = false /\ useIDMinimizerChar fl = true
                        /\ b = 36)).
Proof.
  split; [|split].
  - unfold minzers, allProcessors.
    change [OrphanRemover; ShapeRemeasurer; ShapeMinimizer 1; ShapeDuplicateRemover 10;
            RouteDuplicateRemover_; ServiceDuplicateRemover; ServiceMinimizer;
            FrequencyMinimizer; IDMinimizer_ (if useIDMinimizerNum fl then 10 else 36)]
      with ([OrphanRemover] ++ [ShapeRemeasurer] ++ [ShapeMinimizer 1]
            ++ [ShapeDuplicateRemover 10] ++ [RouteDuplicateRemover_]
            ++ [ServiceDuplicateRemover] ++ [ServiceMinimizer] ++ [FrequencyMinimizer]
            ++ [IDMinimizer_ (if useIDMinimizerNum fl then 10 else 36)]).
    repeat (apply sublist_app; [apply optional_sublist|]).
    destruct (useIDMinimizerNum fl); [done|].
    apply optional_sublist.
  - unfold minzers. intros Hshape.
    assert (useShapeRemeasurer fl || useShapeMinimizer fl || useRedShapeRemover fl = true)
      as -> by (destruct Hshape as [-> | ->]; by rewrite ?orb_true_r).
    destruct (useOrphanDeleter fl); cbn; set_solver.
  - intros b. unfold minzers.
    rewrite !elem_of_app, !elem_optional.
    destruct (useIDMinimizerNum fl), (useIDMinimizerChar fl);
      rewrite ?elem_of_cons, ?elem_of_nil; naive_solver.
Qed.

(** X18. Once [flag.Parse()] has returned, which is where the flags of
    the model begin, main ends the process with status 0 or 1, and with 1
    in exactly three cases, none of them with the help flag: no input
    path was given, the parser returned an error, or the writer returned
    one.  What [flag.Parse()] does itself with a command line it rejects
    lies before this and is not covered. *)
Theorem exit_status_is_one_exactly_when w fl :
  (snd (main w fl) = 0 \/ snd (main w fl) = 1)
  /\ (snd (main w fl) = 1
      <-> help fl = false
          /\ (arg0 fl = ""
              \/ (exists feed e, Parse w (parseOptions fl) (arg0 fl) = Ok (feed, Some e))
              \/ (onlyValidate fl = false
                  /\ exists feed feed' e,
                       Parse w (parseOptions fl) (arg0 fl) = Ok (feed, None)
                       /\ forM (runProcessor w) feed (minzers fl) = Ok feed'
                       /\ WriteFeed w feed' (outputPath fl) = Ok (Some e)))).
Proof.
  unfold main. destruct (help fl).
  { cbn. split; [by left|]. split; [done|]. intros [? _]. done. }
  case_bool_decide as Harg.
  { apply arg_empty in Harg. cbn. split; [by right|]. split; [|done].
    intros _. split; [done|by left]. }
  assert (Hne : arg0 fl ≠ "") by (intros Hz; by apply Harg, arg_empty).
  unfold process.
  destruct (Parse w (parseOptions fl) (arg0 fl)) as [[feed [e|]]|v] eqn:EP.
  - cbn. split; [by right|]. split; [|done]. intros _. split; [done|].
    right. left. by exists feed, e.
  - destruct (onlyValidate fl) eqn:EV.
    { cbn. split; [by left|]. split; [done|].
      intros (_ & [Hz|[(? & ? & [=])|([=] & _)]]). done. }
    destruct (forM (runProcessor w) feed (minzers fl)) as [feed'|v] eqn:ER.
    + destruct (WriteFeed w feed' (outputPath fl)) as [[e|]|v] eqn:EW.
      * cbn. split; [by right|]. split; [|done]. intros _. split; [done|].
        right. right. split; [done|]. by exists feed, feed', e.
      * cbn. split; [by left|]. split; [done|].
        intros (_ & [Hz|[(? & ? & [=])|(_ & f1 & f2 & e & [= <-] & Hr & Hw)]]); [done|].
        rewrite ER in Hr. injection Hr as <-. rewrite EW in Hw. discriminate.
      * cbn. split; [by left|]. split; [done|].
        intros (_ & [Hz|[(? & ? & [=])|(_ & f1 & f2 & e & [= <-] & Hr & Hw)]]); [done|].
        rewrite ER in Hr. injection Hr as <-. rewrite EW in Hw. discriminate.
    + cbn. split; [by left|]. split; [done|].
      intros (_ & [Hz|[(? & ? & [=])|(_ & f1 & f2 & e & [= <-] & Hr & Hw)]]); [done|].
      rewrite ER in Hr. discriminate.
  - cbn. split; [by left|]. split; [done|].
    intros (_ & [Hz|[(? & ? & [=])|(_ & ? & ? & ? & [=] & _)]]). done.
Qed.

(** X19. The writer is called only with the output path of the command
    line, and only when the help flag and validation mode are off, the
    parser has returned a feed without error and every processor has
    run to its end on it. *)
Theorem output_written_only_after_processing w fl path :
  CallWrite path ∈ fst (main w fl) ->
  path = outputPath fl /\ help fl = false /\ onlyValidate fl = false
  /\ exists feed feed',
       Parse w (parseOptions fl) (arg0 fl) = Ok (feed, None)
       /\ forM (runProcessor w) feed (minzers fl) = Ok feed'.
Proof.
  unfold main. destruct (help fl).
  { cbn. intros Hin. set_solver. }
  case_bool_decide as Harg.
  { cbn. intros Hin. set_solver. }
  unfold process.
  destruct (Parse w (parseOptions fl) (arg0 fl)) as [[feed [e|]]|v] eqn:EP.
  - destruct (negb (onlyValidate fl)); cbn; intros Hin; set_solver.
  - destruct (onlyValidate fl) eqn:EV.
    { cbn. intros Hin. set_solver. }
    destruct (forM (runProcessor w) feed (minzers fl)) as [feed'|v] eqn:ER.
    + intros Hin.
      assert (path = outputPath fl).
      { destruct (WriteFeed w feed' (outputPath fl)) as [[e|]|v]; cbn in Hin; set_solver. }
      split; [done|]. split; [done|]. split; [done|]. by exists feed, feed'.
    + cbn. intros Hin. set_solver.
  - cbn. intros Hin. set_solver.
Qed.

Lemma output_written_only_after_processing_witness :
  "gtfs-out" = outputPath flagsR /\ onlyValidate flagsR = false.
Proof.
  destruct (output_written_only_after_processing (worldOf feedR1R22) flagsR "gtfs-out")
    as (Hp & _ & Hv & _).
  - vm_compute. set_solver.
  - split; [exact Hp|exact Hv].
Defined.

(** X20. In validation mode no processor runs and nothing is written: what
    main shows and its exit status depend on the answer of the parser
    alone, and the trace holds no call of the writer. *)
Theorem validation_mode_only_parses w w' fl :
  onlyValidate fl = true ->
  Parse w (parseOptions fl) (arg0 fl) = Parse w' (parseOptions fl) (arg0 fl) ->
  main w fl = main w' fl
  /\ forall path, CallWrite path ∉ fst (main w fl).
Proof.
  intros Hv HP. split.
  - unfold main, process. rewrite HP, Hv. done.
  - intros path. unfold main, process. rewrite Hv.
    destruct (help fl); [set_solver|]. case_bool_decide; [set_solver|].
    destruct (Parse w (parseOptions fl) (arg0 fl)) as [[feed [e|]]|v]; cbn; set_solver.
Qed.

Lemma validation_mode_only_parses_witness :
  main (worldOf feedTwoZones) flagsValidateR
  = main (Main.mkWorld reversedOrder 1 (fun _ _ => Ok (feedTwoZones, None))
            (fun _ _ => Panic "not run") (fun _ _ => Panic "not run")) flagsValidateR.
Proof.
  apply (validation_mode_only_parses (worldOf feedTwoZones)
           (Main.mkWorld reversedOrder 1 (fun _ _ => Ok (feedTwoZones, None))
              (fun _ _ => Panic "not run") (fun _ _ => Panic "not run")) flagsValidateR);
    reflexivity.
Defined.

End DriverProperties.

(** * Further properties of combineRoutes: the removal of fare rules *)

Module FareLoopProperties.
Import RouteDuplicateRemover Spec Examples MoreExamples LoopFacts FareRemovalFacts
       CombineFacts FarePassFacts WitnessTools.

(** X21. One removal step, [fa.Rules[j] = fa.Rules[len-1]] and the cut of
    the last slot, takes exactly the rule at index [j] out of the list and
    keeps every other rule, not their order; with [j] beyond the end,
    and so on the empty list, it panics. *)
Theorem swap_remove_takes_out_one_rule rules j :
  (forall rules', swapRemove rules j = Ok rules' ->
     exists x, rules !! j = Some x /\ rules ≡ₚ x :: rules'
               /\ S (length rules') = length rules)
  /\ ((length rules <= j)%nat ->
      swapRemove rules j = Panic "runtime error: index out of range").
Proof.
  split.
  - intros rules' Hok.
    pose proof (swapRemove_range _ _ _ Hok) as Hj.
    pose proof (swapRemove_length _ _ _ Hok) as Hl.
    destruct (lookup_lt_is_Some_2 rules j Hj) as [x Hx].
    exists x. split; [done|]. split; [|lia].
    pose proof (take_drop_middle rules j x Hx) as Hsplit.
    assert (Hpre : length (take j rules) = j) by (rewrite length_take; lia).
    destruct (drop (S j) rules) as [|y suf] eqn:Ed using rev_ind.
    + rewrite <- Hsplit in Hok. rewrite <- Hpre in Hok at 2.
      rewrite swapRemove_last in Hok. injection Hok as <-.
      rewrite <- Hsplit at 1. by rewrite Permutation_app_comm.
    + clear IHsuf. rewrite <- Hsplit in Hok. rewrite <- Hpre in Hok at 2.
      rewrite swapRemove_middle in Hok. injection Hok as <-.
      rewrite <- Hsplit at 1.
      rewrite <- Permutation_middle. apply perm_skip, Permutation_app_head.
      apply (Permutation_app_comm suf [y]).
  - intros Hj. unfold swapRemove.
    destruct (rules !! (length rules - 1)%nat); [|done].
    by rewrite bool_decide_eq_false_2 by lia.
Qed.

(** X22. When the fare loop of combineRoutes for a superseded route [r]
    runs to its end, on fare attributes filed under their own Ids, every
    listed attribute is left with its rules that are not on [r], and it is
    deleted from the collection exactly when it had rules and all of them
    were on [r]; an attribute that had no rule from the start stays. *)
Theorem fare_loop_removes_rules_of_route r fA entries fB :
  faresById fA ->
  entries ≡ₚ map_to_list (FareAttributes fA) ->
  forM (combineFare r) fA entries = Ok fB ->
  forall k p, FareAttributes fA !! k = Some p ->
    FareAttribute.Rules (fare fB p) ≡ₚ rulesOffRoute r (FareAttribute.Rules (fare fA p))
    /\ (FareAttributes fB !! k = None
        <-> FareAttribute.Rules (fare fA p) ≠ []
            /\ rulesOffRoute r (FareAttribute.Rules (fare fA p)) = [])
    /\ (FareAttributes fB !! k = None \/ FareAttributes fB !! k = Some p).
Proof.
  intros Hid Hperm Hrun.
  assert (Hnd : NoDup entries.*1).
  { rewrite Hperm. apply NoDup_fst_map_to_list. }
  assert (Hin : forall k p, (k, p) ∈ entries <-> FareAttributes fA !! k = Some p).
  { intros k p. rewrite Hperm. apply elem_of_map_to_list. }
  destruct (fareLoop_spec r fA entries fB Hid Hperm Hrun) as (Hsub & _ & Hrules & _ & _).
  pose (J := fun (visited : list (string * nat)) (f : Feed) =>
    (forall k p, FareAttributes fA !! k = Some p -> (k, p) ∉ visited ->
       FareAttributes f !! k = Some p /\ fare f p = fare fA p)
    /\ (forall k p, (k, p) ∈ visited ->
          (FareAttributes f !! k = None
           <-> FareAttribute.Rules (fare fA p) ≠ []
               /\ rulesOffRoute r (FareAttribute.Rules (fare fA p)) = []))).
  assert (Hfin : J entries fB).
  { apply (forM_prefix_invariant (combineFare r) J entries fA fB); [|clear Hrun|exact Hrun].
    - split; [done|]. intros k p Hv. by apply elem_of_nil in Hv.
    - intros visited [k p] rest f f1 Hl (J1 & J2) Hbody.
      assert (Hkp : FareAttributes fA !! k = Some p).
      { apply Hin. rewrite Hl. apply elem_of_app. right. by left. }
      rewrite Hl, fmap_app, fmap_cons in Hnd. cbn [fst] in Hnd.
      apply NoDup_app in Hnd as (Hnd1 & Hnd2 & Hnd3).
      assert (Hkfresh : k ∉ visited.*1).
      { intros Hkv. apply (Hnd2 k Hkv). by left. }
      assert (Hfresh : (k, p) ∉ visited).
      { intros Hv. apply Hkfresh. apply list_elem_of_fmap. by exists (k, p). }
      destruct (J1 k p Hkp Hfresh) as [Hpres Hfp].
      destruct (combineFare_present r f k p f1 ltac:(by eexists) Hbody)
        as (rules' & Hrules' & Hfare & Hmap).
      assert (Hidp : FareAttribute.Id (fare f p) = k) by (rewrite Hfp; by apply Hid).
      rewrite Hidp, Hfp in Hmap. rewrite Hfp in Hrules'.
      assert (Hother : forall k', k' ≠ k -> FareAttributes f1 !! k' = FareAttributes f !! k').
      { intros k' Hk'. destruct Hmap as [(_ & _ & ->)|[_ ->]]; [|done].
        by rewrite lookup_delete_ne. }
      split.
      + intros k' p' Hk' Hv.
        assert (Hkk : k' ≠ k).
        { intros ->. apply Hv, elem_of_app. right.
          assert (p' = p) as -> by congruence. by left. }
        assert (Hpp : p' ≠ p).
        { intros ->. apply Hkk. by rewrite <- (Hid k' p Hk'), <- (Hid k p Hkp). }
        destruct (J1 k' p' Hk') as [Hpres' Hfp'].
        { intros Hv'. apply Hv, elem_of_app. by left. }
        split; [by rewrite Hother|]. by rewrite Hfare, decide_False.
      + intros k' p' Hv. apply elem_of_app in Hv as [Hv|Hv].
        * assert (Hkk : k' ≠ k).
          { intros ->. apply Hkfresh. apply list_elem_of_fmap. by exists (k, p'). }
          rewrite Hother by done. by apply J2.
        * apply list_elem_of_singleton in Hv. injection Hv as -> ->.
          destruct Hmap as [(Hnil & Hne & ->)|[Hkeep ->]].
          -- rewrite lookup_delete_eq. split; [|done]. intros _. split; [done|].
             subst rules'. by apply Permutation_nil in Hrules'.
          -- rewrite Hpres. split; [done|]. intros [Hne Hoff].
             destruct Hkeep as [Hk1|Hk1]; [|done].
             exfalso. apply Hk1. rewrite Hoff in Hrules'.
             by apply Permutation_nil_r in Hrules'. }
  destruct Hfin as [_ J2]. intros k p Hk. split; [by apply (Hrules k)|]. split.
  - apply J2. by apply Hin.
  - destruct (FareAttributes fB !! k) as [q|] eqn:E; [|by left]. right.
    by rewrite <- (lookup_weaken _ _ _ _ E Hsub).
Qed.

Lemma fare_loop_removes_rules_of_route_witness :
  exists fB,
    forM (combineFare 2) feedThree (inMapOrder CombineFares (FareAttributes feedThree)) = Ok fB
    /\ FareAttribute.Rules (fare fB 1)
       ≡ₚ rulesOffRoute 2 (FareAttribute.Rules (fare feedThree 1)).
Proof.
  assert (HF : faresById feedThree).
  { intros k p Hk. apply elem_of_map_to_list in Hk. vm_compute in Hk.
    repeat (apply elem_of_cons in Hk as [Hk|Hk]; [injection Hk as -> ->; reflexivity|]).
    by apply elem_of_nil in Hk. }
  assert (HP : inMapOrder CombineFares (FareAttributes feedThree)
               ≡ₚ map_to_list (FareAttributes feedThree)) by apply inMapOrder_fair.
  assert (HK : FareAttributes feedThree !! "F" = Some 1%nat) by reflexivity.
  destruct (forM (combineFare 2) feedThree (inMapOrder CombineFares (FareAttributes feedThree)))
    as [fB|msg] eqn:E; [|vm_compute in E; discriminate E].
  exists fB. split; [reflexivity|].
  exact (proj1 (fare_loop_removes_rules_of_route 2 feedThree
                  (inMapOrder CombineFares (FareAttributes feedThree)) fB HF HP E
                  "F" 1%nat HK)).
Defined.

End FareLoopProperties.

(** * Run on a feed without fare attributes *)

Module WithoutFares.
Import RouteDuplicateRemover Spec Frame Examples MoreExamples LoopFacts ChunkFacts
       CombineFacts MergeCondition PruneFacts ComparisonProperties WitnessTools.

Lemma forM_total {A S} (body : S -> A -> result S) (I : S -> Prop) l :
  (forall s x, x ∈ l -> I s -> exists s', body s x = Ok s' /\ I s') ->
  forall s, I s -> exists s', forM body s l = Ok s' /\ I s'.
Proof.
  induction l as [|x l IH]; intros Hbody s Hs.
  - by exists s.
  - destruct (Hbody s x ltac:(left) Hs) as (s1 & E & H1).
    cbn [forM]. rewrite E. cbn [rbind].
    apply IH; [|done]. intros s' y Hy. apply Hbody. by right.
Qed.

Section WithOrder.
Variable order : Order.
Hypothesis fair : fairOrder order.
Variable feed0 : Feed.
Hypothesis byId : routesById feed0.

(** Without fare attributes the fare loop has nothing to visit, so a
    route is superseded without a panic. *)
Lemma combineOne_without_fares ref trips feed r :
  FareAttributes feed = ∅ ->
  exists feed', combineOne order ref trips feed r = Ok feed' /\ FareAttributes feed' = ∅.
Proof.
  intros HFA. unfold combineOne. case_bool_decide as Hr; [by exists feed|].
  pose proof (repoint_loop r ref (trips !!! r) Hr feed) as Hloop. cbn zeta in Hloop.
  destruct Hloop as (_ & _ & _ & Hfa & _).
  rewrite Hfa, HFA, (fair_empty order CombineFares fair). cbn [forM rbind].
  eexists. split; [reflexivity|]. cbn [FareAttributes setRoutes]. by rewrite Hfa.
Qed.

Lemma combineRoutes_without_fares feed routes trips :
  FareAttributes feed = ∅ -> routes ≠ [] ->
  exists ref feed',
    pickRef feed routes = Ok ref
    /\ forM (combineOne order ref trips) feed routes = Ok feed'
    /\ combineRoutes order feed routes trips = Ok feed'
    /\ FareAttributes feed' = ∅.
Proof.
  intros HFA Hne.
  assert (Hpick : exists ref, pickRef feed routes = Ok ref).
  { destruct routes; [done|]. eexists. reflexivity. }
  destruct Hpick as [ref Hpick]. exists ref.
  destruct (forM_total (combineOne order ref trips) (fun f => FareAttributes f = ∅) routes)
    with (s := feed) as (feed' & Hrun & HFA'); [|done|].
  { intros s x _ Hs. by apply combineOne_without_fares. }
  exists feed'. split; [done|]. split; [done|]. split; [|done].
  unfold combineRoutes. by rewrite Hpick.
Qed.

(** One round of the merging loop. *)
Lemma runStep_without_fares chunks st k r :
  concat chunks = (order RunChunks (Routes feed0)).*2 ->
  Routes feed0 !! k = Some r ->
  classesMerged feed0 st ->
  exists st', runStep order chunks (tripsIndex order feed0) st (k, r) = Ok st'
              /\ classesMerged feed0 st'.
Proof.
  intros Hcat Hkr Hinv. destruct st as [f proced].
  pose proof Hinv as (D & Hrp & HFA & HT & HD & Hclo & Htr & Hfields & Hsurv).
  cbn [fst snd] in *.
  unfold runStep. cbn [fst snd].
  destruct (Routes f !! k) as [p0|] eqn:Ek; [|by exists (f, proced)].
  case_bool_decide as Hproced; [by exists (f, proced)|].
  set (eq := getEquivalentRoutes order r f chunks).
  case_bool_decide as Hlen; [|by exists (f, proced)].
  assert (Hroute : forall x, route f x = route feed0 x).
  { intros x. apply route_frame. apply Hrp. }
  assert (Hmem : forall y, y ∈ eq <-> (exists ky, Routes feed0 !! ky = Some y) /\ y ≠ r
                            /\ fieldsIdentical (route feed0 r) (route feed0 y)).
  { intros y. unfold eq.
    rewrite getEquivalentRoutes_filter, list_elem_of_In, filter_In, <- list_elem_of_In.
    rewrite (equivalentTo_spec order f r y fair), Hcat, !Hroute.
    rewrite list_elem_of_fmap. split.
    - intros (([ky y'] & -> & Hy) & Hne & Hf & _).
      apply (fair_elem order RunChunks _ ky y' fair) in Hy.
      split; [by exists ky|]. split; [done|]. by apply fieldsIdentical_sym.
    - intros ((ky & Hy) & Hne & Hf). split.
      + exists (ky, y). split; [done|]. by apply (fair_elem order RunChunks _ ky y fair).
      + split; [done|]. split; [by apply fieldsIdentical_sym|].
        intros kf fa Hk. by rewrite HFA, lookup_empty in Hk. }
  assert (Hfresh : forall y, y ∈ eq -> y ∉ proced).
  { intros y Hy Hp. apply Hmem in Hy as (_ & _ & Hf). apply Hproced.
    apply (Hclo y r k Hp Hkr). by apply fieldsIdentical_sym. }
  assert (Hgroup : forall x, x ∈ eq ++ [r] ->
            (x ∉ proced)
            /\ (exists kx, Routes feed0 !! kx = Some x /\ Routes f !! kx = Some x)).
  { intros x Hx. apply elem_of_app in Hx as [Hx|Hx].
    - pose proof (Hfresh x Hx) as Hxp. split; [done|].
      apply Hmem in Hx as ((kx & Hkx) & _).
      exists kx. split; [done|]. apply Hrp. split; [done|].
      intros Hd. by apply Hxp, HD.
    - apply list_elem_of_singleton in Hx as ->. split; [done|].
      exists k. split; [done|]. apply Hrp. split; [done|].
      intros Hd. by apply Hproced, HD. }
  destruct (combineRoutes_without_fares f (eq ++ [r]) (tripsIndex order feed0) HFA)
    as (ref & f' & Hpick & Hloop & -> & HFA').
  { intros Hnil. by apply app_eq_nil in Hnil as [_ ?]. }
  cbn [rbind]. exists (f', proced ∪ list_to_set eq ∪ {[r]}). split; [done|].
  apply pickRef_spec in Hpick as [Href _].
  destruct (combineLoop_spec order ref (tripsIndex order feed0) (eq ++ [r]) f f' Hloop)
    as (Hra & HT' & Hgone & Hkeep & Hmoved & Hsame).
  assert (HidF : forall x kx, Routes feed0 !! kx = Some x -> Route.Id (route f x) = kx).
  { intros x kx Hx. rewrite Hroute. by apply byId. }
  assert (Hroutes' : forall kx p, Routes f' !! kx = Some p
            <-> Routes feed0 !! kx = Some p
                /\ p ∉ D ∪ (list_to_set (eq ++ [r]) ∖ {[ref]})).
  { intros kx p. split.
    - intros Hp.
      assert (Hnot : forall x, x ∈ eq ++ [r] -> x ≠ ref -> Route.Id (route f x) ≠ kx).
      { intros x Hx Hne Hid. rewrite (Hgone kx) in Hp; [done|]. by exists x. }
      rewrite (Hkeep kx Hnot) in Hp. apply Hrp in Hp as [Hp0 HpD].
      split; [done|]. intros Hu. apply elem_of_union in Hu as [Hu|Hu]; [done|].
      apply elem_of_difference in Hu as [Hg Hne].
      apply elem_of_list_to_set in Hg.
      apply (Hnot p Hg); [by intros ->; apply Hne, elem_of_singleton|].
      by apply HidF.
    - intros [Hp0 HpD].
      assert (Hpf : Routes f !! kx = Some p).
      { apply Hrp. split; [done|]. intros Hd. apply HpD, elem_of_union. by left. }
      rewrite Hkeep; [done|]. intros x Hx Hne Hid.
      destruct (Hgroup x Hx) as (_ & kx' & Hx0 & _).
      rewrite (HidF x kx' Hx0) in Hid. subst kx'.
      assert (x = p) as -> by congruence.
      apply HpD, elem_of_union. right. apply elem_of_difference.
      split; [by apply elem_of_list_to_set|]. by intros Hs%elem_of_singleton. }
  assert (Hreflive : exists kr, Routes f' !! kr = Some ref).
  { destruct (Hgroup ref Href) as (HrefP & kr & Hr0 & _). exists kr.
    apply Hroutes'. split; [done|]. intros Hu.
    apply elem_of_union in Hu as [Hu|Hu]; [by apply HrefP, HD|].
    apply elem_of_difference in Hu as [_ Hne]. by apply Hne, elem_of_singleton. }
  assert (Hrg : forall x, x ∈ eq ++ [r] ->
            fieldsIdentical (route feed0 r) (route feed0 x)).
  { intros x Hx. apply elem_of_app in Hx as [Hx|Hx].
    - by apply Hmem in Hx as (_ & _ & ?).
    - apply list_elem_of_singleton in Hx as ->. apply fieldsIdentical_refl. }
  assert (Hsup : forall p, p ∈ D ∪ (list_to_set (eq ++ [r]) ∖ {[ref]}) ->
            p ∈ D \/ (p ∈ eq ++ [r] /\ p ≠ ref)).
  { intros p Hu. apply elem_of_union in Hu as [Hu|Hu]; [by left|right].
    apply elem_of_difference in Hu as [Hg Hne]. apply elem_of_list_to_set in Hg.
    split; [done|]. by intros Hs; apply Hne, elem_of_singleton. }
  exists (D ∪ (list_to_set (eq ++ [r]) ∖ {[ref]})). cbn [fst snd].
  split; [|split; [done|split; [congruence|split; [|split; [|split; [|split]]]]]].
  - split; [by rewrite Hra; apply Hrp|exact Hroutes'].
  - intros x Hx. apply elem_of_union in Hx as [Hx|Hx].
    + apply elem_of_union. left. apply elem_of_union. left. by apply HD.
    + apply elem_of_difference in Hx as [Hx _]. apply elem_of_list_to_set in Hx.
      apply elem_of_app in Hx as [Hx|Hx].
      * apply elem_of_union. left. apply elem_of_union. right.
        by apply elem_of_list_to_set.
      * apply elem_of_union. right. by apply list_elem_of_singleton in Hx as ->;
          apply elem_of_singleton.
  - intros x y ky Hx Hy Hf.
    assert (Hclass : x ∈ eq ++ [r] -> y ∈ proced ∪ list_to_set eq ∪ {[r]}).
    { intros Hxg.
      assert (Hrx : fieldsIdentical (route feed0 r) (route feed0 x)).
      { apply elem_of_app in Hxg as [Hxg|Hxg].
        - by apply Hmem in Hxg as (_ & _ & ?).
        - apply list_elem_of_singleton in Hxg as ->. apply fieldsIdentical_refl. }
      destruct (decide (y = r)) as [->|Hyr].
      - apply elem_of_union. right. by apply elem_of_singleton.
      - apply elem_of_union. left. apply elem_of_union. right.
        apply elem_of_list_to_set, Hmem. split; [by exists ky|]. split; [done|].
        by apply (fieldsIdentical_trans _ (route feed0 x)). }
    apply elem_of_union in Hx as [Hx|Hx].
    + apply elem_of_union in Hx as [Hx|Hx].
      * apply elem_of_union. left. apply elem_of_union. left. by apply (Hclo x y ky).
      * apply Hclass, elem_of_app. left. by apply elem_of_list_to_set in Hx.
    + apply Hclass, elem_of_app. right. apply elem_of_singleton in Hx as ->. by left.
  - intros kt t Ht. destruct (Htr kt t Ht) as [(kr & Hlive) Horigin].
    destruct (decide (Trip.Route (trip f t) ∈ eq ++ [r]
                      /\ Trip.Route (trip f t) ≠ ref)) as [[Hg Hne]|Hno].
    + assert (Hinit : Trip.Route (trip f t) = Trip.Route (trip feed0 t)).
      { destruct Horigin as [?|Hp]; [done|]. by destruct (Hgroup _ Hg) as [? _]. }
      rewrite (Hmoved t Hg Hne).
      2:{ rewrite Hinit. apply (tripsIndex_elem order fair). by exists kt. }
      destruct (trip f t); cbn [Trip.setRoute Trip.Route]. split; [done|]. right.
      apply elem_of_app in Href as [Href|Href].
      * apply elem_of_union. left. apply elem_of_union. right.
        by apply elem_of_list_to_set.
      * apply elem_of_union. right. apply list_elem_of_singleton in Href as ->.
        by apply elem_of_singleton.
    + rewrite (Hsame t).
      2:{ intros (Hg & Hne & _). by apply Hno. }
      split.
      * exists kr. apply Hroutes'. apply Hrp in Hlive as [Hl0 HlD]. split; [done|].
        intros Hu. apply elem_of_union in Hu as [Hu|Hu]; [done|].
        apply elem_of_difference in Hu as [Hg Hne]. apply elem_of_list_to_set in Hg.
        apply Hno. split; [done|]. by intros Hs; apply Hne, elem_of_singleton.
      * destruct Horigin as [?|Hp]; [by left|right].
        apply elem_of_union. left. apply elem_of_union. by left.
  - intros kt t Ht. destruct (Htr kt t Ht) as [_ Horigin].
    destruct (decide (Trip.Route (trip f t) ∈ eq ++ [r]
                      /\ Trip.Route (trip f t) ≠ ref)) as [[Hg Hne]|Hno].
    + assert (Hinit : Trip.Route (trip f t) = Trip.Route (trip feed0 t)).
      { destruct Horigin as [?|Hp]; [done|]. by destruct (Hgroup _ Hg) as [? _]. }
      rewrite (Hmoved t Hg Hne).
      2:{ rewrite Hinit. apply (tripsIndex_elem order fair). by exists kt. }
      rewrite <- Hinit.
      destruct (trip f t) as [tid trt tse tsh tst]; cbn [Trip.setRoute Trip.Route] in *.
      apply (fieldsIdentical_trans _ (route feed0 r)).
      * by apply fieldsIdentical_sym, Hrg.
      * by apply Hrg.
    + rewrite (Hsame t); [by apply (Hfields kt)|].
      intros (Hg & Hne & _). by apply Hno.
  - intros kx x Hx. destruct (Hsurv kx x Hx) as (ky & y & Hy & Hxy).
    destruct (decide (y ∈ eq ++ [r] /\ y ≠ ref)) as [[Hg Hne]|Hno].
    + destruct Hreflive as (kr & Hr). exists kr, ref. split; [done|].
      apply (fieldsIdentical_trans _ (route feed0 y)); [done|].
      apply (fieldsIdentical_trans _ (route feed0 r)).
      * by apply fieldsIdentical_sym, Hrg.
      * by apply Hrg.
    + exists ky, y. split; [|done]. apply Hroutes'.
      apply Hrp in Hy as [Hy0 HyD]. split; [done|].
      intros Hu. apply Hsup in Hu as [Hu|Hu]; [done|by apply Hno].
Qed.

(** The merging loop from the initial state. *)
Lemma merge_loop_without_fares chunks :
  concat chunks = (order RunChunks (Routes feed0)).*2 ->
  FareAttributes feed0 = ∅ -> referencesResolve feed0 ->
  exists st,
    forM (runStep order chunks (tripsIndex order feed0)) (feed0, ∅)
         (order RunRoutes (Routes feed0)) = Ok st
    /\ classesMerged feed0 st.
Proof.
  intros Hcat HFA [Htrips _].
  apply (forM_total (runStep order chunks (tripsIndex order feed0)) (classesMerged feed0)).
  - intros s [k r] Hin Hs. apply (fair_elem order RunRoutes _ k r fair) in Hin.
    by apply runStep_without_fares.
  - exists ∅. cbn [fst snd]. split_and!; try done.
    + split; [done|]. intros k p. split; [intros ?; split; [done|set_solver]|tauto].
    + intros k t Ht. split; [|by left].
      specialize (Htrips k t Ht). cbn beta in Htrips. unfold routeListed in Htrips.
      apply list_elem_of_fmap in Htrips as ([kr p] & Hp & Hin). cbn [snd] in Hp.
      exists kr. rewrite Hp. by apply elem_of_map_to_list.
    + intros k t _. apply fieldsIdentical_refl.
    + intros kx x Hx. exists kx, x. split; [done|]. apply fieldsIdentical_refl.
Qed.

Lemma classesMerged_resolve st :
  classesMerged feed0 st ->
  referencesResolve (fst st) /\ Trips (fst st) = Trips feed0
  /\ Routes (fst st) ⊆ Routes feed0.
Proof.
  intros (D & Hrp & HFA' & HT & _ & _ & Htr & _). split; [|split; [done|]].
  - split.
    + intros k t Ht. cbn beta. rewrite HT in Ht.
      destruct (Htr k t Ht) as [(kr & Hlive) _]. unfold routeListed.
      apply list_elem_of_fmap. exists (kr, Trip.Route (trip (fst st) t)).
      split; [done|]. by apply elem_of_map_to_list.
    + rewrite HFA'. apply map_Forall_empty.
  - apply map_subseteq_spec. intros k p Hk. by apply (proj2 Hrp) in Hk as [? _].
Qed.

End WithOrder.

(** X23. On a feed without fare attributes, whose routes are filed under
    their own Ids, Run never panics and breaks no reference: when every
    trip is on a listed route before the run, every trip is on a listed
    route after it, and the Trips collection is the same. *)
Theorem run_without_fares_breaks_no_reference order MaxParallelism feed :
  fairOrder order -> 0 < MaxParallelism ->
  routesById feed -> FareAttributes feed = ∅ -> referencesResolve feed ->
  exists feed',
    Run order MaxParallelism feed = Ok feed'
    /\ referencesResolve feed'
    /\ Trips feed' = Trips feed.
Proof.
  intros Hfair Hw HR HFA Hres. unfold Run.
  destruct (buildChunks_ok order MaxParallelism Hfair Hw feed) as (chunks & -> & Hcat).
  cbn [rbind].
  destruct (merge_loop_without_fares order Hfair feed HR chunks Hcat HFA Hres)
    as (st & -> & Hinv).
  cbn [rbind]. exists (fst st). split; [done|].
  destruct (classesMerged_resolve feed st Hinv) as (H1 & H2 & _). by split.
Qed.

Lemma run_without_fares_breaks_no_reference_witness :
  exists feed',
    Run reversedOrder 4 feedR1R22 = Ok feed' /\ referencesResolve feed'.
Proof.
  assert (HR : routesById feedR1R22).
  { intros k p Hk. apply elem_of_map_to_list in Hk. vm_compute in Hk.
    repeat (apply elem_of_cons in Hk as [Hk|Hk]; [injection Hk as -> ->; reflexivity|]).
    by apply elem_of_nil in Hk. }
  assert (HS : referencesResolve feedR1R22)
    by (apply (bool_decide_unpack _); vm_compute; exact I).
  destruct (run_without_fares_breaks_no_reference reversedOrder 4 feedR1R22
              reversedOrder_fair eq_refl HR eq_refl HS) as (feed' & Hrun & Hres & _).
  exists feed'. split; [exact Hrun|exact Hres].
Defined.

(** X24. Merging loses no route data on a feed without fare attributes:
    after Run every trip is on a route that agrees with the trip's
    original route in all compared fields, and every route of the input
    still has a route with its fields in the Routes collection. *)
Theorem merge_preserves_route_data order MaxParallelism feed :
  fairOrder order -> 0 < MaxParallelism ->
  routesById feed -> FareAttributes feed = ∅ -> referencesResolve feed ->
  exists feed',
    Run order MaxParallelism feed = Ok feed'
    /\ (forall k t, Trips feed !! k = Some t ->
          fieldsIdentical (route feed' (Trip.Route (trip feed' t)))
                          (route feed (Trip.Route (trip feed t))))
    /\ (forall kx x, Routes feed !! kx = Some x ->
          exists ky y, Routes feed' !! ky = Some y
                       /\ fieldsIdentical (route feed x) (route feed' y)).
Proof.
  intros Hfair Hw HR HFA Hres. unfold Run.
  destruct (buildChunks_ok order MaxParallelism Hfair Hw feed) as (chunks & -> & Hcat).
  cbn [rbind].
  destruct (merge_loop_without_fares order Hfair feed HR chunks Hcat HFA Hres)
    as (st & -> & Hinv).
  cbn [rbind]. exists (fst st). split; [done|].
  destruct Hinv as (D & Hrp & _ & _ & _ & _ & _ & Hfields & Hsurv).
  assert (Hroute : forall x, route (fst st) x = route feed x).
  { intros x. apply route_frame. apply Hrp. }
  split.
  - intros k t Ht. rewrite Hroute. by apply (Hfields k).
  - intros kx x Hx. destruct (Hsurv kx x Hx) as (ky & y & Hy & Hxy).
    exists ky, y. by rewrite Hroute.
Qed.

Lemma merge_preserves_route_data_witness :
  exists feed',
    Run inMapOrder 4 feedR1R22 = Ok feed'
    /\ fieldsIdentical (route feed' (Trip.Route (trip feed' 2)))
                       (route feedR1R22 (Trip.Route (trip feedR1R22 2))).
Proof.
  assert (HR : routesById feedR1R22).
  { intros k p Hk. apply elem_of_map_to_list in Hk. vm_compute in Hk.
    repeat (apply elem_of_cons in Hk as [Hk|Hk]; [injection Hk as -> ->; reflexivity|]).
    by apply elem_of_nil in Hk. }
  assert (HS : referencesResolve feedR1R22)
    by (apply (bool_decide_unpack _); vm_compute; exact I).
  destruct (merge_preserves_route_data inMapOrder 4 feedR1R22
              inMapOrder_fair eq_refl HR eq_refl HS) as (feed' & Hrun & Htrips & _).
  exists feed'. split; [exact Hrun|]. by apply (Htrips "T2").
Defined.

End WithoutFares.

(** * Invariants kept by a run, and the two processors in sequence *)

Module PipelineProperties.
Import Spec Frame Examples MoreExamples LoopFacts ChunkFacts SecondRunFacts
       MinimizerFacts MinimizerTwice MinimizerProperties FrameProperties WithoutFares
       WitnessTools.

(** X25. main calls the parser only when the help flag is off and an
    input path is given, and then with that path and the options made
    from the flags; in that case the call is always made. *)
Theorem parser_called_with_given_path w fl opts path :
  Main.CallParse opts path ∈ fst (Main.main w fl)
  <-> Main.help fl = false /\ Main.arg0 fl ≠ ""
      /\ opts = Main.parseOptions fl /\ path = Main.arg0 fl.
Proof.
  unfold Main.main. destruct (Main.help fl).
  { cbn. split; [set_solver|]. intros [? _]. done. }
  case_bool_decide as Harg.
  { cbn. split; [set_solver|]. intros (_ & Hne & _).
    destruct (Main.arg0 fl); [done|discriminate Harg]. }
  assert (Hne : Main.arg0 fl ≠ "") by (intros Hz; apply Harg; by rewrite Hz).
  unfold Main.process.
  destruct (Main.Parse w (Main.parseOptions fl) (Main.arg0 fl)) as [[feed [e|]]|v].
  - destruct (negb (Main.onlyValidate fl)); cbn; split; [set_solver| |set_solver|];
      intros (_ & _ & -> & ->); set_solver.
  - destruct (Main.onlyValidate fl).
    { cbn. split; [set_solver|]. intros (_ & _ & -> & ->). set_solver. }
    destruct (forM (Main.runProcessor w) feed (Main.minzers fl)) as [feed'|v].
    + destruct (Main.WriteFeed w feed' (Main.outputPath fl)) as [[e|]|v]; cbn;
        (split; [set_solver|]); intros (_ & _ & -> & ->); set_solver.
    + cbn. split; [set_solver|]. intros (_ & _ & -> & ->). set_solver.
  - cbn. split; [set_solver|]. intros (_ & _ & -> & ->). set_solver.
Qed.

(** X26. The route duplicate remover keeps the collections filed by Id:
    when the routes and the fare attributes are filed under their own Ids
    before a run that completes, they are so afterwards. *)
Theorem run_keeps_collections_filed_by_id order MaxParallelism feed feed1 :
  fairOrder order -> 0 < MaxParallelism ->
  routesById feed -> faresById feed ->
  RouteDuplicateRemover.Run order MaxParallelism feed = Ok feed1 ->
  routesById feed1 /\ faresById feed1.
Proof.
  intros Hfair Hw HR HF Hrun.
  destruct (first_run_leaves_no_duplicates order MaxParallelism Hfair Hw feed HR HF
              feed1 Hrun) as (D & Hrp & Hfp & _).
  split.
  - intros k p Hk. apply (proj2 Hrp) in Hk as [Hk0 _].
    unfold route. rewrite (proj1 Hrp). by apply HR.
  - intros k p Hk. destruct Hfp as (Hsub & Hids & _).
    apply (Hids k p). eapply lookup_weaken; [exact Hk|exact Hsub].
Qed.

Lemma run_keeps_collections_filed_by_id_witness :
  exists feed1,
    RouteDuplicateRemover.Run inMapOrder 2 feedTriple = Ok feed1
    /\ routesById feed1 /\ faresById feed1.
Proof.
  assert (HR : routesById feedTriple).
  { intros k p Hk. apply elem_of_map_to_list in Hk. vm_compute in Hk.
    repeat (apply elem_of_cons in Hk as [Hk|Hk]; [injection Hk as -> ->; reflexivity|]).
    by apply elem_of_nil in Hk. }
  assert (HF : faresById feedTriple).
  { intros k p Hk. apply elem_of_map_to_list in Hk. vm_compute in Hk.
    repeat (apply elem_of_cons in Hk as [Hk|Hk]; [injection Hk as -> ->; reflexivity|]).
    by apply elem_of_nil in Hk. }
  destruct (RouteDuplicateRemover.Run inMapOrder 2 feedTriple) as [feed1|msg] eqn:E;
    [|vm_compute in E; discriminate E].
  exists feed1. split; [reflexivity|].
  exact (run_keeps_collections_filed_by_id inMapOrder 2 feedTriple feed1 inMapOrder_fair
           eq_refl HR HF E).
Defined.

(** X27. The route duplicate remover followed by the identifier
    minimiser, as main runs them for the flags -R with -i or -d: on a feed
    without fare attributes, with its routes filed under their own Ids
    and every trip on a listed route, both processors run to their end,
    every trip is then still on a listed route, and there are no more
    routes than before. *)
Theorem removal_then_minimiser_completes (w : Main.World) b feed :
  fairOrder (Main.order w) -> 0 < Main.MaxParallelism w -> 2 <= b <= 36 ->
  routesById feed -> FareAttributes feed = ∅ -> referencesResolve feed ->
  countable64 feed ->
  exists feed',
    forM (Main.runProcessor w) feed [Main.RouteDuplicateRemover_; Main.IDMinimizer_ b]
    = Ok feed'
    /\ referencesResolve feed'
    /\ (size (Routes feed') <= size (Routes feed))%nat.
Proof.
  intros Hfair Hw Hb HR HFA Hres Hc.
  cbn [forM Main.runProcessor]. unfold RouteDuplicateRemover.Run.
  destruct (buildChunks_ok (Main.order w) (Main.MaxParallelism w) Hfair Hw feed)
    as (chunks & -> & Hcat).
  cbn [rbind].
  destruct (merge_loop_without_fares (Main.order w) Hfair feed HR chunks Hcat HFA Hres)
    as (st & Hloop & Hinv).
  assert (Hframe : touchesOnlyRoutesAndFares feed (fst st)).
  { revert Hloop.
    apply (forM_invariant _ (fun st => touchesOnlyRoutesAndFares feed (fst st)));
      [apply touchesOnly_refl|].
    intros s x s' _ Hs Hx. eapply touchesOnly_trans; [exact Hs|].
    by apply (runStep_touches (Main.order w) chunks
                (RouteDuplicateRemover.tripsIndex (Main.order w) feed) s x). }
  rewrite Hloop. cbn [rbind].
  destruct (classesMerged_resolve feed st Hinv) as (Hres1 & HT & Hsub).
  apply map_subseteq_size in Hsub.
  assert (Hc1 : countable64 (fst st)).
  { destruct Hframe as (Ha & Hst & Hse & Hsh & _).
    destruct Hc as (? & ? & ? & ? & ? & ?).
    unfold countable64. rewrite HT, Ha, Hst, Hse, Hsh.
    split_and!; try done. lia. }
  destruct (Run_minimized (Main.order w) (IDMinimizer.mk b) (fst st) Hfair Hb Hc1)
    as (f2 & -> & M1 & _ & M3 & _ & _ & _ & HFA2 & HfA2).
  exists f2. split; [done|]. split.
  - by apply (references_survive_renumbering b (fst st) f2).
  - destruct M3 as (Hsame & _). rewrite (sameEntities_size _ _ Hsame). lia.
Qed.

Lemma removal_then_minimiser_completes_witness :
  exists feed',
    forM (Main.runProcessor (worldOf feedR1R22)) feedR1R22
         [Main.RouteDuplicateRemover_; Main.IDMinimizer_ 10] = Ok feed'
    /\ referencesResolve feed'.
Proof.
  assert (HR : routesById feedR1R22).
  { intros k p Hk. apply elem_of_map_to_list in Hk. vm_compute in Hk.
    repeat (apply elem_of_cons in Hk as [Hk|Hk]; [injection Hk as -> ->; reflexivity|]).
    by apply elem_of_nil in Hk. }
  assert (HS : referencesResolve feedR1R22)
    by (apply (bool_decide_unpack _); vm_compute; exact I).
  assert (HC : countable64 feedR1R22)
    by (apply (bool_decide_unpack _); vm_compute; exact I).
  assert (Hb : 2 <= 10 <= 36) by lia.
  destruct (removal_then_minimiser_completes (worldOf feedR1R22) 10 feedR1R22
              inMapOrder_fair eq_refl Hb HR eq_refl HS HC) as (feed' & Hrun & Hres & _).
  exists feed'. split; [exact Hrun|exact Hres].
Defined.

End PipelineProperties.
